(** * Secret push/pull reconciliation, version ledger and snapshots

    A shallow embedding of the helper functions [pushSecrets], [pullSecrets],
    [decryptSecrets] and [takeSecretSnapshotHelper] of the secrets backend,
    over an explicit model of the three collections they touch
    ([Secret], [SecretVersion], [SecretSnapshot]), followed by
    [reformatPullSecrets] and by the two request handlers that push and pull
    secrets, [pushWorkspaceSecrets] and [pullSecrets] of the workspace
    controller.

    Conventions of the embedding:
    - a collection is the list of its documents in insertion order, and a
      query without a sort returns the matching documents in that order;
    - an [_id] is a natural number handed out by the store's allocator
      ([nextId]); the code never inspects an id, it only compares them;
    - a JavaScript object used as a dictionary ([oldSecretsObj],
      [newSecretsObj], the content of [decryptSecrets]) is the finite map of
      its own properties; it is created by [{}], so that it inherits the
      members of [Object.prototype], which the operator [in] and a property
      read see ([js_in], [js_get]) and which an assignment to [__proto__]
      goes to;
    - a value read from a document ([_id], [version], a hash) is [Some]
      value, and [None] when the read gives [undefined] (or, for a number
      computed from it, [NaN]);
    - a store call that returns has done what it was asked to do with the
      documents it was given, whatever their fields hold; a filter whose
      [_id] is [undefined] matches no document;
    - [version] counters are natural numbers;
    - an [async] function is a state transformer over the store that ends
      with a value or with a thrown error (the message of the [Error]);
      every store call may throw, as decided by a fault oracle, and a call
      that throws leaves the store as it was. *)

From stdpp Require Import gmap strings list fin_maps.

(** ** Data model *)

(** Modelled from the spec: the constants SECRET_SHARED and SECRET_PERSONAL
    of [../variables] (absent from the sources) are the two visibility tags
    ['shared'] and ['personal'] of the [type] field. *)
Inductive SecretType : Type := SECRET_SHARED | SECRET_PERSONAL.

#[global] Instance SecretType_eq_dec : EqDecision SecretType.
Proof. solve_decision. Defined.

Module PushSecret.
Record t : Type := mk {
  ciphertextKey : string;
  ivKey : string;
  tagKey : string;
  hashKey : string;
  ciphertextValue : string;
  ivValue : string;
  tagValue : string;
  hashValue : string;
  type : SecretType
}.
#[global] Instance eq_dec : EqDecision t.
Proof. solve_decision. Defined.
End PushSecret.

Module ISecret.
Record t : Type := mk {
  _id : nat;
  workspace : string;
  type : SecretType;
  user : option string;
  environment : string;
  secretKeyCiphertext : string;
  secretKeyIV : string;
  secretKeyTag : string;
  secretKeyHash : string;
  secretValueCiphertext : string;
  secretValueIV : string;
  secretValueTag : string;
  secretValueHash : string;
  version : nat
}.
#[global] Instance eq_dec : EqDecision t.
Proof. solve_decision. Defined.
#[global] Instance inhabited : Inhabited t :=
  populate (mk 0 "" SECRET_SHARED None "" "" "" "" "" "" "" "" "" 0).
End ISecret.

Module ISecretVersion.
Record t : Type := mk {
  secret : option nat;
  version : option nat;
  isDeleted : bool;
  secretKeyCiphertext : string;
  secretKeyIV : string;
  secretKeyTag : string;
  secretKeyHash : string;
  secretValueCiphertext : string;
  secretValueIV : string;
  secretValueTag : string;
  secretValueHash : string
}.
#[global] Instance eq_dec : EqDecision t.
Proof. solve_decision. Defined.
End ISecretVersion.

Module ISecretSnapshot.
Record t : Type := mk {
  workspace : string;
  version : nat;
  secrets : list ISecret.t
}.
#[global] Instance eq_dec : EqDecision t.
Proof. solve_decision. Defined.
End ISecretSnapshot.

(** The [update] document of one [updateOne] operation: the four value
    fields, the [$inc] of [version], and the optional [user] stamp. *)
Module Update.
Record t : Type := mk {
  secretValueCiphertext : string;
  secretValueIV : string;
  secretValueTag : string;
  secretValueHash : string;
  inc_version : nat;
  user : option string
}.
End Update.

Module UpdateOne.
Record t : Type := mk {
  filter_workspace : string;
  filter_id : option nat;
  update : Update.t
}.
End UpdateOne.

(** A document handed to [Secret.insertMany]: no [_id] and no [version]. *)
Module NewSecret.
Record t : Type := mk {
  workspace : string;
  type : SecretType;
  environment : string;
  secretKeyCiphertext : string;
  secretKeyIV : string;
  secretKeyTag : string;
  secretKeyHash : string;
  secretValueCiphertext : string;
  secretValueIV : string;
  secretValueTag : string;
  secretValueHash : string;
  user : option string
}.
End NewSecret.

(** ** The store *)

Record Db : Type := mkDb {
  Secret : list ISecret.t;
  SecretVersion : list ISecretVersion.t;
  SecretSnapshot : list ISecretSnapshot.t;
  nextId : nat
}.

Definition emptyDb : Db := mkDb [] [] [] 0.

Definition with_Secret (db : Db) (l : list ISecret.t) : Db :=
  mkDb l (SecretVersion db) (SecretSnapshot db) (nextId db).

Definition with_SecretVersion (db : Db) (l : list ISecretVersion.t) : Db :=
  mkDb (Secret db) l (SecretSnapshot db) (nextId db).

Definition with_SecretSnapshot (db : Db) (l : list ISecretSnapshot.t) : Db :=
  mkDb (Secret db) (SecretVersion db) l (nextId db).

(** *** Queries and writes used by the helpers *)

(** [Secret.find({ workspace, environment, type: SECRET_SHARED })] *)
Definition Secret_find_shared (workspaceId environment : string) (db : Db)
  : list ISecret.t :=
  filter (λ s, ISecret.workspace s = workspaceId
               ∧ ISecret.environment s = environment
               ∧ ISecret.type s = SECRET_SHARED) (Secret db).

(** [Secret.find({ workspace, environment, type: SECRET_PERSONAL, user })] *)
Definition Secret_find_personal (workspaceId environment userId : string)
  (db : Db) : list ISecret.t :=
  filter (λ s, ISecret.workspace s = workspaceId
               ∧ ISecret.environment s = environment
               ∧ ISecret.type s = SECRET_PERSONAL
               ∧ ISecret.user s = Some userId) (Secret db).

(** [Secret.find({ workspace })] *)
Definition Secret_find_workspace (workspaceId : string) (db : Db)
  : list ISecret.t :=
  filter (λ s, ISecret.workspace s = workspaceId) (Secret db).

(** [Secret.deleteMany({ _id: { $in: ids } })] *)
Definition Secret_deleteMany (ids : list nat) (db : Db) : Db :=
  with_Secret db (filter (λ s, ISecret._id s ∉ ids) (Secret db)).

Definition markDeleted (v : ISecretVersion.t) : ISecretVersion.t :=
  ISecretVersion.mk (ISecretVersion.secret v) (ISecretVersion.version v) true
    (ISecretVersion.secretKeyCiphertext v) (ISecretVersion.secretKeyIV v)
    (ISecretVersion.secretKeyTag v) (ISecretVersion.secretKeyHash v)
    (ISecretVersion.secretValueCiphertext v) (ISecretVersion.secretValueIV v)
    (ISecretVersion.secretValueTag v) (ISecretVersion.secretValueHash v).

(** [SecretVersion.updateMany({ secret: { $in: ids } }, { isDeleted: true })] *)
Definition SecretVersion_updateMany (ids : list nat) (db : Db) : Db :=
  with_SecretVersion db
    (fmap (λ v, if decide (ISecretVersion.secret v ∈ Some <$> ids)
               then markDeleted v else v) (SecretVersion db)).

(** Applying an [update] document to a stored secret. *)
Definition applyUpdate (u : Update.t) (s : ISecret.t) : ISecret.t :=
  ISecret.mk (ISecret._id s) (ISecret.workspace s) (ISecret.type s)
    (match Update.user u with Some x => Some x | None => ISecret.user s end)
    (ISecret.environment s)
    (ISecret.secretKeyCiphertext s) (ISecret.secretKeyIV s)
    (ISecret.secretKeyTag s) (ISecret.secretKeyHash s)
    (Update.secretValueCiphertext u) (Update.secretValueIV u)
    (Update.secretValueTag u) (Update.secretValueHash u)
    (ISecret.version s + Update.inc_version u).

Definition matchesFilter (op : UpdateOne.t) (s : ISecret.t) : Prop :=
  ISecret.workspace s = UpdateOne.filter_workspace op
  ∧ Some (ISecret._id s) = UpdateOne.filter_id op.

#[global] Instance matchesFilter_dec op s : Decision (matchesFilter op s).
Proof. unfold matchesFilter. apply _. Defined.

(** [updateOne]: the first document that matches the filter is updated. *)
Fixpoint updateOne (op : UpdateOne.t) (l : list ISecret.t) : list ISecret.t :=
  match l with
  | [] => []
  | s :: l' =>
      if decide (matchesFilter op s)
      then applyUpdate (UpdateOne.update op) s :: l'
      else s :: updateOne op l'
  end.

(** [Secret.bulkWrite(operations)]: the operations run in order. *)
Definition Secret_bulkWrite (operations : list UpdateOne.t) (db : Db) : Db :=
  with_Secret db (foldl (λ l op, updateOne op l) (Secret db) operations).

(** [SecretVersion.insertMany(rows)] *)
Definition SecretVersion_insertMany (rows : list ISecretVersion.t) (db : Db)
  : Db :=
  with_SecretVersion db (SecretVersion db ++ rows).

(** Modelled from the spec: the [Secret] schema (absent from the sources)
    gives a new document the default [version] 1; the store gives it a
    fresh [_id]. *)
Definition newDocument (id : nat) (o : NewSecret.t) : ISecret.t :=
  ISecret.mk id (NewSecret.workspace o) (NewSecret.type o) (NewSecret.user o)
    (NewSecret.environment o)
    (NewSecret.secretKeyCiphertext o) (NewSecret.secretKeyIV o)
    (NewSecret.secretKeyTag o) (NewSecret.secretKeyHash o)
    (NewSecret.secretValueCiphertext o) (NewSecret.secretValueIV o)
    (NewSecret.secretValueTag o) (NewSecret.secretValueHash o)
    1.

(** [Secret.insertMany(objs)], returning the inserted documents. *)
Definition Secret_insertMany (objs : list NewSecret.t) (db : Db)
  : Db * list ISecret.t :=
  let docs := imap (λ idx o, newDocument (nextId db + idx) o) objs in
  (mkDb (Secret db ++ docs) (SecretVersion db) (SecretSnapshot db)
        (nextId db + length objs),
   docs).

(** [SecretSnapshot.findOne({ workspace }).sort({ version: -1 })]: the
    snapshot of the workspace with the highest version, if any. *)
Definition SecretSnapshot_findLatest (workspaceId : string) (db : Db)
  : option ISecretSnapshot.t :=
  foldl (λ best sn,
           if decide (ISecretSnapshot.workspace sn = workspaceId) then
             match best with
             | None => Some sn
             | Some b =>
                 if decide (ISecretSnapshot.version b < ISecretSnapshot.version sn)
                 then Some sn else Some b
             end
           else best)
        None (SecretSnapshot db).

(** [new SecretSnapshot({...}).save()] *)
Definition SecretSnapshot_save (sn : ISecretSnapshot.t) (db : Db) : Db :=
  with_SecretSnapshot db (SecretSnapshot db ++ [sn]).

(** ** Asynchronous functions that may throw *)

Definition Async (A : Type) : Type := Db → Db * (string + A).

#[global] Instance Async_ret : MRet Async := λ A a db, (db, inr a).

#[global] Instance Async_bind : MBind Async := λ A B f m db,
  match m db with
  | (db', inr a) => f a db'
  | (db', inl e) => (db', inl e)
  end.

Definition throw {A : Type} (e : string) : Async A := λ db, (db, inl e).

Definition try_catch {A : Type} (body : Async A) (handler : string → Async A)
  : Async A :=
  λ db, match body db with
        | (db', inl e) => handler e db'
        | r => r
        end.

(** Reading a property of [undefined] throws a [TypeError]. *)
Definition defined {A : Type} (o : option A) : Async A :=
  match o with
  | Some a => mret a
  | None => throw "TypeError: Cannot read properties of undefined"
  end.

(** The store calls made by the helpers, one tag per call site. *)
Inductive DbCall : Type :=
  | PullFindShared | PullFindPersonal
  | PushDeleteMany | PushMarkDeleted
  | PushBulkWrite | PushInsertUpdatedVersions
  | PushInsertSecrets | PushInsertNewVersions
  | SnapshotFindSecrets | SnapshotFindLatest | SnapshotSave.

#[global] Instance DbCall_eq_dec : EqDecision DbCall.
Proof. solve_decision. Defined.

(** A fault oracle: the error a store call throws, if it throws. *)
Definition Faults : Type := DbCall → option string.

Definition no_faults : Faults := λ _, None.

Definition fault_at (c : DbCall) (e : string) : Faults :=
  λ c', if decide (c' = c) then Some e else None.

(** ** The reconciler's classification *)

(** [list.reduce((acc, s) => ({ ...acc, [key(s)]: s }), {})] *)
Definition indexBy {A : Type} (key : A → string) (l : list A)
  : gmap string A :=
  foldl (λ accumulator s, <[key s := s]> accumulator) ∅ l.

Definition oldSecretsObj (oldSecrets : list ISecret.t) : gmap string ISecret.t :=
  indexBy ISecret.secretKeyHash oldSecrets.

Definition newSecretsObj (secrets : list PushSecret.t)
  : gmap string PushSecret.t :=
  indexBy PushSecret.hashKey secrets.

(** The names of the members of [Object.prototype], which every object
    created by [{}] inherits. *)
Definition Object_prototype : list string :=
  ["constructor"; "__defineGetter__"; "__defineSetter__"; "hasOwnProperty";
   "__lookupGetter__"; "__lookupSetter__"; "isPrototypeOf";
   "propertyIsEnumerable"; "toString"; "valueOf"; "__proto__";
   "toLocaleString"].

(** [k in obj]: [k] names an own property of [obj] or an inherited one. *)
Definition js_in {A : Type} (k : string) (obj : gmap string A) : Prop :=
  is_Some (obj !! k) ∨ k ∈ Object_prototype.

#[global] Instance js_in_dec {A : Type} k (obj : gmap string A)
  : Decision (js_in k obj).
Proof. unfold js_in. apply _. Defined.

(** What [obj[k]] evaluates to when it is not [undefined]: the document
    stored under an own property, or a member of [Object.prototype]. *)
Inductive Member (A : Type) : Type :=
  | Own (a : A)
  | Inherited.
Arguments Own {A} a.
Arguments Inherited {A}.

#[global] Instance Member_eq_dec {A : Type} `{EqDecision A}
  : EqDecision (Member A).
Proof. solve_decision. Defined.

(** [obj[k]]; [None] is [undefined]. *)
Definition js_get {A : Type} (obj : gmap string A) (k : string)
  : option (Member A) :=
  match obj !! k with
  | Some a => Some (Own a)
  | None => if decide (k ∈ Object_prototype) then Some Inherited else None
  end.

(** [obj[k].field]: the field of the document, and [undefined] on a member
    of [Object.prototype], none of which has a property named like a field
    of a secret. *)
Definition field {A B : Type} (f : A → B) (m : Member A) : option B :=
  match m with
  | Own a => Some (f a)
  | Inherited => None
  end.

(** The stored documents to delete, before [.map((s) => s._id)]. *)
Definition toDeleteSecrets (oldSecrets : list ISecret.t)
  (secrets : list PushSecret.t) : list ISecret.t :=
  filter (λ s, ¬ js_in (ISecret.secretKeyHash s) (newSecretsObj secrets))
         oldSecrets.

Definition toDelete (oldSecrets : list ISecret.t) (secrets : list PushSecret.t)
  : list nat :=
  fmap ISecret._id (toDeleteSecrets oldSecrets secrets).

(** The callback of the [toUpdate] filter.  [s.hashKey in oldSecretsObj]
    holds exactly when [oldSecretsObj[s.hashKey]] is not [undefined]
    ([js_in_js_get] below), so the test and the reads are one match. *)
Definition valueOrTypeChanged (obj : gmap string ISecret.t) (s : PushSecret.t)
  : bool :=
  match js_get obj (PushSecret.hashKey s) with
  | Some o =>
      if decide (Some (PushSecret.hashValue s)
                 ≠ field ISecret.secretValueHash o) then true
      else if decide (Some (PushSecret.type s) ≠ field ISecret.type o)
           then true
      else false
  | None => false
  end.

Definition toUpdate (oldSecrets : list ISecret.t) (secrets : list PushSecret.t)
  : list PushSecret.t :=
  filter (λ s, valueOrTypeChanged (oldSecretsObj oldSecrets) s) secrets.

Definition toAdd (oldSecrets : list ISecret.t) (secrets : list PushSecret.t)
  : list PushSecret.t :=
  filter (λ s, ¬ js_in (PushSecret.hashKey s) (oldSecretsObj oldSecrets))
         secrets.

(** ** What the push writes *)

(** The [update] document built for an entry of [toUpdate]. *)
Definition mkUpdate (userId : string) (s : PushSecret.t) : Update.t :=
  Update.mk (PushSecret.ciphertextValue s) (PushSecret.ivValue s)
    (PushSecret.tagValue s) (PushSecret.hashValue s) 1
    (if decide (PushSecret.type s = SECRET_PERSONAL) then Some userId
     else None).

(** One element of [operations]; [o] is [oldSecretsObj[s.hashKey]]. *)
Definition mkOperation (userId workspaceId : string) (o : Member ISecret.t)
  (s : PushSecret.t) : UpdateOne.t :=
  UpdateOne.mk workspaceId (field ISecret._id o) (mkUpdate userId s).

(** The version row appended for an entry of [toUpdate]; [undefined + 1]
    is [NaN]. *)
Definition mkUpdatedVersion (o : Member ISecret.t) (s : PushSecret.t)
  : ISecretVersion.t :=
  ISecretVersion.mk (field ISecret._id o)
    ((λ version, version + 1) <$> field ISecret.version o) false
    (PushSecret.ciphertextKey s) (PushSecret.ivKey s) (PushSecret.tagKey s)
    (PushSecret.hashKey s)
    (PushSecret.ciphertextValue s) (PushSecret.ivValue s)
    (PushSecret.tagValue s) (PushSecret.hashValue s).

(** The document inserted for an entry of [toAdd]. *)
Definition mkNewSecret (userId workspaceId environment : string)
  (s : PushSecret.t) : NewSecret.t :=
  NewSecret.mk workspaceId (PushSecret.type s) environment
    (PushSecret.ciphertextKey s) (PushSecret.ivKey s) (PushSecret.tagKey s)
    (PushSecret.hashKey s)
    (PushSecret.ciphertextValue s) (PushSecret.ivValue s)
    (PushSecret.tagValue s) (PushSecret.hashValue s)
    (if decide (PushSecret.type s = SECRET_PERSONAL) then Some userId
     else None).

(** The version row appended for a newly inserted secret. *)
Definition mkFirstVersion (n : ISecret.t) : ISecretVersion.t :=
  ISecretVersion.mk (Some (ISecret._id n)) (Some 1) false
    (ISecret.secretKeyCiphertext n) (ISecret.secretKeyIV n)
    (ISecret.secretKeyTag n) (ISecret.secretKeyHash n)
    (ISecret.secretValueCiphertext n) (ISecret.secretValueIV n)
    (ISecret.secretValueTag n) (ISecret.secretValueHash n).

(** [toUpdate.map(f)] where [f] reads [oldSecretsObj[s.hashKey]]. *)
Definition mapStored {B : Type} (obj : gmap string ISecret.t)
  (f : Member ISecret.t → PushSecret.t → B) (l : list PushSecret.t)
  : option (list B) :=
  mapM (λ s, o ← js_get obj (PushSecret.hashKey s); Some (f o s)) l.

Definition pullFailed : string := "Failed to pull shared and personal secrets".
Definition pushFailed : string := "Failed to push shared and personal secrets".
Definition snapshotFailed : string := "Failed to take a secret snapshot".

Section Helpers.
Context (faults : Faults).

(** A store call: it throws when the oracle says so, and runs otherwise. *)
Definition call {A : Type} (c : DbCall) (op : Db → Db * A) : Async A :=
  λ db, match faults c with
        | Some e => (db, inl e)
        | None => let r := op db in (fst r, inr (snd r))
        end.

Definition query {A : Type} (c : DbCall) (q : Db → A) : Async A :=
  call c (λ db, (db, q db)).

Definition write (c : DbCall) (w : Db → Db) : Async unit :=
  call c (λ db, (w db, ())).

Definition pullSecrets (userId workspaceId environment : string)
  : Async (list ISecret.t) :=
  try_catch
    (sharedSecrets ← query PullFindShared
                       (Secret_find_shared workspaceId environment);
     personalSecrets ← query PullFindPersonal
                         (Secret_find_personal workspaceId environment userId);
     mret (personalSecrets ++ sharedSecrets))
    (λ err, throw pullFailed).

Definition takeSecretSnapshotHelper (workspaceId : string) : Async unit :=
  try_catch
    (secrets ← query SnapshotFindSecrets (Secret_find_workspace workspaceId);
     latestSecretSnapshot ← query SnapshotFindLatest
                              (SecretSnapshot_findLatest workspaceId);
     match latestSecretSnapshot with
     | None =>
         write SnapshotSave
           (SecretSnapshot_save (ISecretSnapshot.mk workspaceId 1 secrets))
     | Some latest =>
         write SnapshotSave
           (SecretSnapshot_save
              (ISecretSnapshot.mk workspaceId
                 (ISecretSnapshot.version latest + 1) secrets))
     end)
    (λ err, throw snapshotFailed).

Definition pushSecrets (userId workspaceId environment : string)
  (secrets : list PushSecret.t) : Async unit :=
  try_catch
    (oldSecrets ← pullSecrets userId workspaceId environment;
     let obj := oldSecretsObj oldSecrets in
     let toDelete := toDelete oldSecrets secrets in
     (if decide (0 < length toDelete) then
        write PushDeleteMany (Secret_deleteMany toDelete);;
        write PushMarkDeleted (SecretVersion_updateMany toDelete)
      else (mret () : Async unit));;
     let toUpdate := toUpdate oldSecrets secrets in
     operations ← defined (mapStored obj (mkOperation userId workspaceId)
                                     toUpdate);
     write PushBulkWrite (Secret_bulkWrite operations);;
     rows ← defined (mapStored obj mkUpdatedVersion toUpdate);
     write PushInsertUpdatedVersions (SecretVersion_insertMany rows);;
     let toAdd := toAdd oldSecrets secrets in
     (if decide (0 < length toAdd) then
        newSecrets ← call PushInsertSecrets
                       (Secret_insertMany
                          (fmap (mkNewSecret userId workspaceId environment)
                               toAdd));
        write PushInsertNewVersions
          (SecretVersion_insertMany (fmap mkFirstVersion newSecrets))
      else (mret () : Async unit));;
     takeSecretSnapshotHelper workspaceId)
    (λ err, throw pushFailed).

End Helpers.

(** ** Decrypting and rendering *)

Inductive DecryptSecretType : Type := text | object | expanded.

Module ExpandedSecret.
Record t : Type := mk {
  secret : PushSecret.t;
  plaintextKey : string;
  plaintextValue : string
}.
End ExpandedSecret.

Inductive Content : Type :=
  | ContentText (c : string)
  | ContentObject (c : gmap string string)
  | ContentExpanded (c : gmap string ExpandedSecret.t).

(** [content[k] = v] on an object created by [{}], as far as the own
    properties go: an assignment to [__proto__] runs the setter inherited
    from [Object.prototype] and adds no own property (for a value that is
    an object it replaces the prototype of [content], which the own
    properties do not show); every other member of [Object.prototype] is a
    writable data property, which the assignment shadows by an own one. *)
Definition js_set {A : Type} (k : string) (v : A) (obj : gmap string A)
  : gmap string A :=
  if decide (k = "__proto__") then obj else <[k := v]> obj.

Definition newline : string :=
  String (Ascii.ascii_of_nat 10) EmptyString.

(** [list.forEach((s, idx) => ...)] over an accumulator; the callback may
    throw ([None]). *)
Fixpoint forEach {A C : Type} (f : C → A → nat → option C) (idx : nat)
  (l : list A) (acc : C) : option C :=
  match l with
  | [] => Some acc
  | s :: l' => acc' ← f acc s idx; forEach f (S idx) l' acc'
  end.

Section Decrypt.
(** [decryptSymmetric({ciphertext, iv, tag, key})] of [../utils/crypto],
    taken as a parameter; it throws ([None]) on a tag mismatch. *)
Context (decryptSymmetric : string → string → string → string → option string).

(** The callback of [secrets.forEach]; [n] is [secrets.length].  The
    constructor of [content] records the [format] it was initialised for,
    so the [switch (format)] of the source is the match on [content]. *)
Definition decryptOne (key : string) (n : nat) (content : Content)
  (s : PushSecret.t) (idx : nat) : option Content :=
  secretKey ← decryptSymmetric (PushSecret.ciphertextKey s)
                (PushSecret.ivKey s) (PushSecret.tagKey s) key;
  secretValue ← decryptSymmetric (PushSecret.ciphertextValue s)
                  (PushSecret.ivValue s) (PushSecret.tagValue s) key;
  match content with
  | ContentText c =>
      let c := c +:+ secretKey in
      let c := c +:+ "=" in
      let c := c +:+ secretValue in
      Some (ContentText (if decide (idx < n) then c +:+ newline else c))
  | ContentObject c =>
      Some (ContentObject (js_set secretKey secretValue c))
  | ContentExpanded c =>
      Some (ContentExpanded
              (js_set secretKey (ExpandedSecret.mk s secretKey secretValue)
                 c))
  end.

Definition decryptSecrets (secrets : list PushSecret.t) (key : string)
  (format : DecryptSecretType) : option Content :=
  let content :=
    match format with
    | text => ContentText ""
    | object => ContentObject ∅
    | expanded => ContentExpanded ∅
    end in
  forEach (decryptOne key (length secrets)) 0 secrets content.

End Decrypt.

(** ** The effect of the helpers when no store call throws

    The store after each step of a push, written as plain functions of the
    store before it.  [pushSecrets_cases] below shows that every push that
    returns normally ends in [afterPush], and [takeSecretSnapshotHelper_cases]
    that every snapshot that returns normally ends in [afterSnapshot]. *)

(** The caller's scope: what [pullSecrets] returns. *)
Definition scope (userId workspaceId environment : string) (db : Db)
  : list ISecret.t :=
  Secret_find_personal workspaceId environment userId db
  ++ Secret_find_shared workspaceId environment db.

Definition latestVersion (workspaceId : string) (db : Db) : nat :=
  match SecretSnapshot_findLatest workspaceId db with
  | None => 0
  | Some latest => ISecretSnapshot.version latest
  end.

Definition newSnapshot (workspaceId : string) (db : Db) : ISecretSnapshot.t :=
  ISecretSnapshot.mk workspaceId (latestVersion workspaceId db + 1)
    (Secret_find_workspace workspaceId db).

Definition afterSnapshot (workspaceId : string) (db : Db) : Db :=
  SecretSnapshot_save (newSnapshot workspaceId db) db.

Section Effect.
Context (userId workspaceId environment : string).
Context (secrets : list PushSecret.t) (db : Db).

Let oldSecrets := scope userId workspaceId environment db.
Let obj := oldSecretsObj oldSecrets.

Definition stored (s : PushSecret.t) : Member ISecret.t :=
  default Inherited (js_get obj (PushSecret.hashKey s)).

Definition operations : list UpdateOne.t :=
  fmap (λ s, mkOperation userId workspaceId (stored s) s)
      (toUpdate oldSecrets secrets).

Definition updatedVersions : list ISecretVersion.t :=
  fmap (λ s, mkUpdatedVersion (stored s) s) (toUpdate oldSecrets secrets).

Definition afterDelete : Db :=
  SecretVersion_updateMany (toDelete oldSecrets secrets)
    (Secret_deleteMany (toDelete oldSecrets secrets) db).

Definition afterUpdate : Db :=
  SecretVersion_insertMany updatedVersions
    (Secret_bulkWrite operations afterDelete).

Definition newSecrets : list ISecret.t :=
  snd (Secret_insertMany
         (fmap (mkNewSecret userId workspaceId environment)
              (toAdd oldSecrets secrets))
         afterUpdate).

Definition afterAdd : Db :=
  SecretVersion_insertMany (fmap mkFirstVersion newSecrets)
    (fst (Secret_insertMany
            (fmap (mkNewSecret userId workspaceId environment)
                 (toAdd oldSecrets secrets))
            afterUpdate)).

Definition afterPush : Db := afterSnapshot workspaceId afterAdd.

End Effect.

(** ** Properties of the store that the claims speak about *)

(** The versions of the snapshots of a workspace, oldest first. *)
Definition snapshotVersions (workspaceId : string) (db : Db) : list nat :=
  ISecretSnapshot.version
    <$> filter (λ sn, ISecretSnapshot.workspace sn = workspaceId)
               (SecretSnapshot db).


(** The version numbers of the [SecretVersion] rows of a secret, oldest
    first. *)
Definition versionsOf (id : nat) (db : Db) : list (option nat) :=
  ISecretVersion.version
    <$> filter (λ v, ISecretVersion.secret v = Some id) (SecretVersion db).

(** One rendered line of the [text] format: [key=value], then the newline
    that the loop appends. *)
Definition textLine
  (decryptSymmetric : string → string → string → string → option string)
  (key : string) (s : PushSecret.t) : option string :=
  secretKey ← decryptSymmetric (PushSecret.ciphertextKey s)
                (PushSecret.ivKey s) (PushSecret.tagKey s) key;
  secretValue ← decryptSymmetric (PushSecret.ciphertextValue s)
                  (PushSecret.ivValue s) (PushSecret.tagValue s) key;
  Some (secretKey +:+ "=" +:+ secretValue +:+ newline).

(** What the store guarantees about ids: two documents of [Secret] never
    share an [_id], and every id in use was handed out by the allocator. *)
Definition ids_ok (db : Db) : Prop :=
  NoDup (ISecret._id <$> Secret db)
  ∧ (∀ s, s ∈ Secret db → ISecret._id s < nextId db)
  ∧ (∀ v id, v ∈ SecretVersion db → ISecretVersion.secret v = Some id →
             id < nextId db).

(** The version ledger: the rows of every secret carry the versions
    1, 2, 3, ... in the order they were appended, and the last one carries
    the current [version] of the stored secret. *)
Definition ledger_ok (db : Db) : Prop :=
  (∀ id, versionsOf id db = Some <$> seq 1 (length (versionsOf id db)))
  ∧ (∀ s, s ∈ Secret db →
          1 ≤ ISecret.version s
          ∧ versionsOf (ISecret._id s) db = Some <$> seq 1 (ISecret.version s)
          ∧ last (versionsOf (ISecret._id s) db)
            = Some (Some (ISecret.version s))).

(** Membership in the caller's scope, as the two queries of [pullSecrets]
    decide it. *)
Definition inScope (userId workspaceId environment : string) (s : ISecret.t)
  : Prop :=
  (ISecret.workspace s = workspaceId ∧ ISecret.environment s = environment
   ∧ ISecret.type s = SECRET_PERSONAL ∧ ISecret.user s = Some userId)
  ∨ (ISecret.workspace s = workspaceId ∧ ISecret.environment s = environment
     ∧ ISecret.type s = SECRET_SHARED).

#[global] Instance inScope_dec userId workspaceId environment s
  : Decision (inScope userId workspaceId environment s).
Proof. unfold inScope. apply _. Defined.


(** No incoming entry asks for a change of type: an entry whose key hash is
    stored has the type of the stored record. *)
Definition types_agree (userId workspaceId environment : string)
  (secrets : list PushSecret.t) (db : Db) : Prop :=
  ∀ s o, s ∈ secrets →
         oldSecretsObj (scope userId workspaceId environment db)
           !! PushSecret.hashKey s = Some o →
         PushSecret.type s = ISecret.type o.


(** Incoming entries with the same key hash carry the same value hash and
    the same type. *)
Definition consistent (secrets : list PushSecret.t) : Prop :=
  ∀ s s', s ∈ secrets → s' ∈ secrets →
          PushSecret.hashKey s = PushSecret.hashKey s' →
          PushSecret.hashValue s = PushSecret.hashValue s'
          ∧ PushSecret.type s = PushSecret.type s'.

(** Every incoming key hash that names a member of [Object.prototype] is
    the key hash of a stored secret of the caller's scope. *)
Definition inherited_keys_stored (userId workspaceId environment : string)
  (secrets : list PushSecret.t) (db : Db) : Prop :=
  ∀ s, s ∈ secrets → PushSecret.hashKey s ∈ Object_prototype →
       PushSecret.hashKey s
       ∈ ISecret.secretKeyHash <$> scope userId workspaceId environment db.

(** The entries of [toUpdate] whose [updateOne] is aimed at the stored
    secret [r]: those whose key hash the old index sends to [r]. *)
Definition updatesOf (userId workspaceId environment : string)
  (secrets : list PushSecret.t) (db : Db) (r : ISecret.t)
  : list PushSecret.t :=
  filter (λ s, stored userId workspaceId environment db s = Own r)
    (toUpdate (scope userId workspaceId environment db) secrets).

(** No two [updateOne] operations of the push are aimed at the same stored
    secret. *)
Definition distinct_targets (userId workspaceId environment : string)
  (secrets : list PushSecret.t) (db : Db) : Prop :=
  NoDup (omap UpdateOne.filter_id
           (operations userId workspaceId environment secrets db)).

(** The stores reached from the empty store by successful pushes, one at a
    time, none of which aims two updates at one stored secret. *)
Inductive reachable : Db → Prop :=
  | reachable_empty : reachable emptyDb
  | reachable_push f userId workspaceId environment secrets db db' :
      reachable db →
      distinct_targets userId workspaceId environment secrets db →
      pushSecrets f userId workspaceId environment secrets db = (db', inr ()) →
      reachable db'.

(** What a list of [updateOne] operations does to one stored secret. *)
Definition applyOps (ops : list UpdateOne.t) (r : ISecret.t) : ISecret.t :=
  foldl (λ r op, if decide (matchesFilter op r)
                 then applyUpdate (UpdateOne.update op) r else r) r ops.

(** The stored secret after the operations of a push that match it. *)
Definition updatedBy (userId workspaceId environment : string)
  (secrets : list PushSecret.t) (db : Db) (r : ISecret.t) : ISecret.t :=
  foldl (λ r s, applyUpdate (mkUpdate userId s) r) r
    (filter (λ s, matchesFilter
                    (mkOperation userId workspaceId
                       (stored userId workspaceId environment db s) s) r)
            (toUpdate (scope userId workspaceId environment db) secrets)).


(** ** Sample data for the worked examples *)

Definition sharedDoc : ISecret.t :=
  ISecret.mk 0 "w" SECRET_SHARED None "dev" "ck1" "i" "t" "k1" "cv1" "i" "t"
    "v1" 1.

Definition personalDoc : ISecret.t :=
  ISecret.mk 1 "w" SECRET_PERSONAL (Some "u") "dev" "ck2" "i" "t" "k2" "cv2"
    "i" "t" "v2" 1.

Definition k1v1 : PushSecret.t :=
  PushSecret.mk "ck1" "ik" "tk" "k1" "cv1" "iv" "tv" "v1" SECRET_SHARED.

Definition k1v2 : PushSecret.t :=
  PushSecret.mk "ck1" "ik" "tk" "k1" "cv2" "iv" "tv" "v2" SECRET_SHARED.

Definition k1v3 : PushSecret.t :=
  PushSecret.mk "ck1" "ik" "tk" "k1" "cv3" "iv" "tv" "v3" SECRET_SHARED.

Definition k1v1_personal : PushSecret.t :=
  PushSecret.mk "ck1" "ik" "tk" "k1" "cv1" "iv" "tv" "v1" SECRET_PERSONAL.

(** Scenario A: [k1v1] pushed to the empty store; scenario B: [k1v2] pushed
    after A. *)
Definition dbA : Db := afterPush "u" "w" "dev" [k1v1] emptyDb.
Definition dbB : Db := afterPush "u" "w" "dev" [k1v2] dbA.

Definition k2v1 : PushSecret.t :=
  PushSecret.mk "ck2" "ik" "tk" "k2" "cw1" "iv" "tv" "w1" SECRET_PERSONAL.

(** Two entries with the key hash [k1] pushed in one batch, to the empty
    store and after scenario A. *)
Definition dbTwice : Db := afterPush "u" "w" "dev" [k1v1; k1v2] emptyDb.
Definition dbDup : Db := afterPush "u" "w" "dev" [k1v2; k1v3] dbA.

(** The batch [k1v1_personal] pushed twice after scenario A, and the batch
    [k1v1; k1v2] pushed a second time. *)
Definition dbRetyped1 : Db := afterPush "u" "w" "dev" [k1v1_personal] dbA.
Definition dbRetyped2 : Db :=
  afterPush "u" "w" "dev" [k1v1_personal] dbRetyped1.
Definition dbTwice2 : Db := afterPush "u" "w" "dev" [k1v1; k1v2] dbTwice.

(** An entry whose key hash names a member of [Object.prototype], and the
    stores after pushing it once and twice to the empty store. *)
Definition inheritedKey : PushSecret.t :=
  PushSecret.mk "ck" "ik" "tk" "toString" "cv" "iv" "tv" "v1" SECRET_SHARED.
Definition dbInherited1 : Db := afterPush "u" "w" "dev" [inheritedKey] emptyDb.
Definition dbInherited2 : Db :=
  afterPush "u" "w" "dev" [inheritedKey] dbInherited1.



(** The batch [k1v2; k2v1] pushed twice after scenario A. *)
Definition dbC1 : Db := afterPush "u" "w" "dev" [k1v2; k2v1] dbA.
Definition dbC2 : Db := afterPush "u" "w" "dev" [k1v2; k2v1] dbC1.

(** ** Definitions for the further properties *)

(** The run of [pushSecrets] once the pull has answered, call by call:
    the snapshot that ends it, the inserts before the snapshot, the updates
    before the inserts, and the deletes that come first.  [db] is the store
    the push started from, [d] the store the step starts from. *)
Definition pushFinish (f : Faults) (workspaceId : string) (d : Db)
  : Db * (string + ()) :=
  match takeSecretSnapshotHelper f workspaceId d with
  | (d', inl _) => (d', inl pushFailed)
  | r => r
  end.

Definition pushAdding (f : Faults) (userId workspaceId environment : string)
  (secrets : list PushSecret.t) (db d : Db) : Db * (string + ()) :=
  let old := scope userId workspaceId environment db in
  if decide (0 < length (toAdd old secrets)) then
    match f PushInsertSecrets with
    | Some _ => (d, inl pushFailed)
    | None =>
        let r := Secret_insertMany
                   (mkNewSecret userId workspaceId environment
                      <$> toAdd old secrets) d in
        match f PushInsertNewVersions with
        | Some _ => (fst r, inl pushFailed)
        | None =>
            pushFinish f workspaceId
              (SecretVersion_insertMany (mkFirstVersion <$> snd r) (fst r))
        end
    end
  else pushFinish f workspaceId d.

Definition pushUpdating (f : Faults) (userId workspaceId environment : string)
  (secrets : list PushSecret.t) (db d : Db) : Db * (string + ()) :=
  match f PushBulkWrite with
  | Some _ => (d, inl pushFailed)
  | None =>
      let d1 := Secret_bulkWrite
                  (operations userId workspaceId environment secrets db) d in
      match f PushInsertUpdatedVersions with
      | Some _ => (d1, inl pushFailed)
      | None =>
          pushAdding f userId workspaceId environment secrets db
            (SecretVersion_insertMany
               (updatedVersions userId workspaceId environment secrets db) d1)
      end
  end.

Definition pushTrace (f : Faults) (userId workspaceId environment : string)
  (secrets : list PushSecret.t) (db : Db) : Db * (string + ()) :=
  let old := scope userId workspaceId environment db in
  if decide (0 < length (toDelete old secrets)) then
    match f PushDeleteMany with
    | Some _ => (db, inl pushFailed)
    | None =>
        let d1 := Secret_deleteMany (toDelete old secrets) db in
        match f PushMarkDeleted with
        | Some _ => (d1, inl pushFailed)
        | None =>
            pushUpdating f userId workspaceId environment secrets db
              (SecretVersion_updateMany (toDelete old secrets) d1)
        end
    end
  else pushUpdating f userId workspaceId environment secrets db db.

(** The stores at which a push can stop: between two store calls. *)
Definition pushStages (userId workspaceId environment : string)
  (secrets : list PushSecret.t) (db : Db) : list Db :=
  let old := scope userId workspaceId environment db in
  let mid := afterDelete userId workspaceId environment secrets db in
  let upd := afterUpdate userId workspaceId environment secrets db in
  [ db;
    Secret_deleteMany (toDelete old secrets) db;
    mid;
    Secret_bulkWrite (operations userId workspaceId environment secrets db)
      mid;
    upd;
    fst (Secret_insertMany
           (mkNewSecret userId workspaceId environment <$> toAdd old secrets)
           upd);
    afterAdd userId workspaceId environment secrets db;
    afterPush userId workspaceId environment secrets db ].

(** One incoming secret with its two plaintexts, as [decryptSecrets]
    obtains them: the decryption of the key, then that of the value. *)
Definition decryptEntry
  (decryptSymmetric : string → string → string → string → option string)
  (key : string) (s : PushSecret.t) : option ExpandedSecret.t :=
  secretKey ← decryptSymmetric (PushSecret.ciphertextKey s)
                (PushSecret.ivKey s) (PushSecret.tagKey s) key;
  secretValue ← decryptSymmetric (PushSecret.ciphertextValue s)
                  (PushSecret.ivValue s) (PushSecret.tagValue s) key;
  Some (ExpandedSecret.mk s secretKey secretValue).

(** ** Reformatting pulled secrets *)

Module SecretField.
Record t : Type := mk {
  workspace : string;
  ciphertext : string;
  iv : string;
  tag : string;
  hash : string
}.
End SecretField.

Module ReformattedSecret.
Record t : Type := mk {
  _id : nat;
  workspace : string;
  type : SecretType;
  environment : string;
  secretKey : SecretField.t;
  secretValue : SecretField.t
}.
End ReformattedSecret.

(** [secrets.map((s) => ({ ... }))].  The callback only reads fields of the
    documents, which cannot throw on a list of documents, so the [catch] of
    the source is never entered and the function is total. *)
Definition reformatPullSecrets (secrets : list ISecret.t)
  : list ReformattedSecret.t :=
  (λ s, ReformattedSecret.mk (ISecret._id s) (ISecret.workspace s)
          (ISecret.type s) (ISecret.environment s)
          (SecretField.mk (ISecret.workspace s) (ISecret.secretKeyCiphertext s)
             (ISecret.secretKeyIV s) (ISecret.secretKeyTag s)
             (ISecret.secretKeyHash s))
          (SecretField.mk (ISecret.workspace s)
             (ISecret.secretValueCiphertext s) (ISecret.secretValueIV s)
             (ISecret.secretValueTag s) (ISecret.secretValueHash s)))
    <$> secrets.

(** ** The request handlers for pushing and pulling secrets

    The handlers of [controllers/v2/workspaceController.ts].  Their
    collaborators ([v2PushSecrets], [pullSecrets] and [pushKeys] of the
    helpers, the telemetry service and the event service) are not part of the
    sources at hand: they are taken as parameters, gathered in [Services],
    each giving the outcome of a call from its arguments.  A handler yields
    the calls it made to its collaborators, in order, and either a response
    or the error it threw. *)

Module V2PushSecret.
Record t : Type := mk {
  type : string;
  secretKeyCiphertext : string;
  secretKeyIV : string;
  secretKeyTag : string;
  secretKeyHash : string;
  secretValueCiphertext : string;
  secretValueIV : string;
  secretValueTag : string;
  secretValueHash : string;
  secretCommentCiphertext : option string;
  secretCommentIV : option string;
  secretCommentTag : option string;
  secretCommentHash : option string
}.
End V2PushSecret.

Module User.
Record t : Type := mk { _id : string; email : string }.
End User.

Module ServiceTokenData.
Record t : Type := mk { user : string }.
End ServiceTokenData.

Module Environment.
Record t : Type := mk { slug : string }.
End Environment.

Module WorkspaceController.

Module PushArgs.
Record t : Type := mk {
  userId : string;
  workspaceId : string;
  environment : string;
  secrets : list V2PushSecret.t;
  channel : string;
  ipAddress : string
}.
End PushArgs.

Module PullArgs.
Record t : Type := mk {
  userId : option string;
  workspaceId : string;
  environment : string;
  channel : string;
  ipAddress : string
}.
End PullArgs.

Module Capture.
Record t : Type := mk {
  event : string;
  distinctId : string;
  numberOfSecrets : nat;
  environment : string;
  workspaceId : string;
  channel : string
}.
End Capture.

Inductive Body : Type :=
  | BodyMessage (message : string)
  | BodySecrets (secrets : list ISecret.t)
  | BodyReformatted (secrets : list ReformattedSecret.t).

Record Response : Type := mkResponse { status : nat; body : Body }.

Section Handlers.
(** The type of [req.body.keys], which the handler hands on unread. *)
Context {Keys : Type}.

Record Request : Type := mkRequest {
  body_secrets : list V2PushSecret.t;
  body_keys : Keys;
  body_environment : string;
  body_channel : option string;
  query_environment : string;
  query_channel : option string;
  params_workspaceId : string;
  membership_workspace_environments : list Environment.t;
  user : option User.t;
  serviceTokenData : option ServiceTokenData.t;
  realIP : string
}.

Inductive Call : Type :=
  | CallGetPostHogClient
  | CallPush (a : PushArgs.t)
  | CallPushKeys (userId workspaceId : string) (keys : Keys)
  | CallPull (a : PullArgs.t)
  | CallCapture (c : Capture.t)
  | CallHandleEvent (workspaceId environment secretPath : string).

(** [getPostHogClient] answers whether there is a telemetry client. *)
Record Services : Type := mkServices {
  getPostHogClient : string + bool;
  push : PushArgs.t → option string;
  pushKeys : string → string → Keys → option string;
  pull : PullArgs.t → string + list ISecret.t;
  capture : Capture.t → option string;
  handleEvent : string → string → string → option string
}.

Definition Handler (A : Type) : Type := list Call * (string + A).

#[global] Instance Handler_ret : MRet Handler := λ A a, ([], inr a).

#[global] Instance Handler_bind : MBind Handler := λ A B k m,
  match m with
  | (calls, inr a) => (calls ++ fst (k a), snd (k a))
  | (calls, inl e) => (calls, inl e)
  end.

Definition raise {A : Type} (e : string) : Handler A := ([], inl e).

Definition typeError : string :=
  "TypeError: Cannot read properties of undefined".

(** Reading a property of [req.user] when there is no [req.user]. *)
Definition property_of {A : Type} (o : option A) : Handler A :=
  match o with
  | Some a => mret a
  | None => raise typeError
  end.

(** A call that returns nothing: it is recorded, and throws if the
    collaborator does. *)
Definition invoke (c : Call) (outcome : option string) : Handler unit :=
  ([c], match outcome with Some e => inl e | None => inr () end).

(** A call that returns a value. *)
Definition request {A : Type} (c : Call) (outcome : string + A) : Handler A :=
  ([c], outcome).

(** [channel ? channel : "cli"]: an absent or empty channel is falsy. *)
Definition channelOrCli (channel : option string) : string :=
  match channel with
  | Some c => if decide (c = "") then "cli" else c
  | None => "cli"
  end.

(** [workspaceEnvs.find(({ slug }) => slug === environment)] *)
Definition findEnvironment (workspaceEnvs : list Environment.t)
  (environment : string) : option Environment.t :=
  List.find (λ e, bool_decide (Environment.slug e = environment))
    workspaceEnvs.

Definition invalidEnvironment : string := "Failed to validate environment".

Definition sanitize (secrets : list V2PushSecret.t) : list V2PushSecret.t :=
  filter (λ s, V2PushSecret.secretKeyCiphertext s ≠ ""
               ∧ V2PushSecret.secretValueCiphertext s ≠ "") secrets.

Definition pushWorkspaceSecrets (sv : Services) (req : Request)
  : Handler Response :=
  postHogClient ← request CallGetPostHogClient (getPostHogClient sv);
  let secrets := body_secrets req in
  let keys := body_keys req in
  let environment := body_environment req in
  let channel := body_channel req in
  let workspaceId := params_workspaceId req in
  let workspaceEnvs := membership_workspace_environments req in
  match findEnvironment workspaceEnvs environment with
  | None => raise invalidEnvironment
  | Some _ =>
      let secrets := sanitize secrets in
      u ← property_of (user req);
      let a := PushArgs.mk (User._id u) workspaceId environment secrets
                 (channelOrCli channel) (realIP req) in
      invoke (CallPush a) (push sv a);;
      u ← property_of (user req);
      invoke (CallPushKeys (User._id u) workspaceId keys)
        (pushKeys sv (User._id u) workspaceId keys);;
      (if postHogClient : bool then
         u ← property_of (user req);
         let c := Capture.mk "secrets pushed" (User.email u) (length secrets)
                    environment workspaceId (channelOrCli channel) in
         invoke (CallCapture c) (capture sv c)
       else mret ());;
      invoke (CallHandleEvent workspaceId environment "/")
        (handleEvent sv workspaceId environment "/");;
      mret (mkResponse 200
              (BodyMessage "Successfully uploaded workspace secrets"))
  end.

(** The secrets of the response to a pull: as pulled on the channel
    ["cli"], reformatted on every other. *)
Definition pulledBody (channel : option string) (secrets : list ISecret.t)
  : Body :=
  if decide (channel ≠ Some "cli")
  then BodyReformatted (reformatPullSecrets secrets)
  else BodySecrets secrets.

Definition bodyLength (b : Body) : nat :=
  match b with
  | BodyMessage _ => 0
  | BodySecrets l => length l
  | BodyReformatted l => length l
  end.

Definition pullSecrets (sv : Services) (req : Request) : Handler Response :=
  postHogClient ← request CallGetPostHogClient (getPostHogClient sv);
  let environment := query_environment req in
  let channel := query_channel req in
  let workspaceId := params_workspaceId req in
  let userId :=
    match user req with
    | Some u => Some (User._id u)
    | None =>
        match serviceTokenData req with
        | Some t => Some (ServiceTokenData.user t)
        | None => None
        end
    end in
  let workspaceEnvs := membership_workspace_environments req in
  match findEnvironment workspaceEnvs environment with
  | None => raise invalidEnvironment
  | Some _ =>
      let a := PullArgs.mk userId workspaceId environment
                 (channelOrCli channel) (realIP req) in
      secrets ← request (CallPull a) (pull sv a);
      let secrets := pulledBody channel secrets in
      (if postHogClient : bool then
         u ← property_of (user req);
         let c := Capture.mk "secrets pulled" (User.email u)
                    (bodyLength secrets) environment workspaceId
                    (channelOrCli channel) in
         invoke (CallCapture c) (capture sv c)
       else mret ());;
      mret (mkResponse 200 secrets)
  end.

End Handlers.

Arguments Request : clear implicits.
Arguments Call : clear implicits.
Arguments Services : clear implicits.

End WorkspaceController.

(** ** Basic facts *)

Lemma filter_nil_id {A : Type} (P : A → Prop) `{∀ x, Decision (P x)}
  (l : list A) : (∀ x, x ∈ l → P x) → filter P l = l.
Proof.
  induction l as [|a l IH]; intros Hall; [done|].
  rewrite filter_cons_True; [|apply Hall; left].
  f_equal. apply IH. intros x Hx. apply Hall. by right.
Qed.

Lemma Secret_deleteMany_nil db : Secret_deleteMany [] db = db.
Proof.
  destruct db as [s v n i]. unfold Secret_deleteMany, with_Secret. simpl.
  f_equal. apply filter_nil_id. intros x _. apply not_elem_of_nil.
Qed.

Lemma SecretVersion_updateMany_nil db : SecretVersion_updateMany [] db = db.
Proof.
  destruct db as [s v n i].
  unfold SecretVersion_updateMany, with_SecretVersion. simpl. f_equal.
  induction v as [|a v IH]; [done|]. rewrite fmap_cons, IH.
  destruct (decide (ISecretVersion.secret a ∈ [])) as [Hin|_]; [|done].
  by apply not_elem_of_nil in Hin.
Qed.

Lemma SecretVersion_insertMany_nil db : SecretVersion_insertMany [] db = db.
Proof.
  destruct db as [s v n i].
  unfold SecretVersion_insertMany, with_SecretVersion. simpl.
  by rewrite app_nil_r.
Qed.

Lemma Secret_insertMany_nil db : Secret_insertMany [] db = (db, []).
Proof.
  destruct db as [s v n i]. unfold Secret_insertMany. simpl.
  by rewrite app_nil_r, Nat.add_0_r.
Qed.

(** *** The index built by [reduce] *)

Section IndexBy.
Context {A : Type} (key : A → string).

Lemma indexBy_snoc (l : list A) (a : A) :
  indexBy key (l ++ [a]) = <[key a := a]> (indexBy key l).
Proof. unfold indexBy. by rewrite foldl_app. Qed.

Lemma indexBy_is_Some (l : list A) (k : string) :
  is_Some (indexBy key l !! k) ↔ k ∈ fmap key l.
Proof.
  induction l as [|a l IH] using rev_ind.
  - unfold indexBy. simpl. rewrite lookup_empty. split.
    + by intros [? ?].
    + by intros ?%not_elem_of_nil.
  - rewrite indexBy_snoc, fmap_app, elem_of_app. simpl.
    rewrite list_elem_of_singleton.
    destruct (decide (key a = k)) as [->|Hne].
    + rewrite lookup_insert_eq. split; [by right | by eauto].
    + rewrite lookup_insert_ne by done. rewrite IH.
      split; [by left | by intros [?|?]].
Qed.

Lemma indexBy_lookup_Some (l : list A) (k : string) (a : A) :
  indexBy key l !! k = Some a → a ∈ l ∧ key a = k.
Proof.
  induction l as [|b l IH] using rev_ind.
  - unfold indexBy. simpl. by rewrite lookup_empty.
  - rewrite indexBy_snoc. intros Hl.
    destruct (decide (key b = k)) as [<-|Hne].
    + rewrite lookup_insert_eq in Hl. injection Hl as <-.
      split; [|done]. apply elem_of_app. right. by left.
    + rewrite lookup_insert_ne in Hl by done.
      destruct (IH Hl) as [Hin Hk]. split; [|done].
      apply elem_of_app. by left.
Qed.

Lemma indexBy_lookup_NoDup (l : list A) (a : A) :
  NoDup (fmap key l) → a ∈ l → indexBy key l !! key a = Some a.
Proof.
  induction l as [|b l IH] using rev_ind; [by intros _ ?%not_elem_of_nil|].
  rewrite fmap_app. simpl. intros Hnd Hin.
  apply NoDup_app in Hnd as (Hnd & Hdisj & _).
  rewrite indexBy_snoc.
  apply elem_of_app in Hin as [Hin|Hin].
  - rewrite lookup_insert_ne; [by apply IH|].
    intros Heq. apply (Hdisj (key a)).
    + apply list_elem_of_fmap. by exists a.
    + rewrite Heq. by left.
  - apply list_elem_of_singleton in Hin as ->. by rewrite lookup_insert_eq.
Qed.

Lemma indexBy_lookup_last (l : list A) (k : string) :
  indexBy key l !! k = last (filter (λ a, key a = k) l).
Proof.
  induction l as [|a l IH] using rev_ind; [done|].
  rewrite indexBy_snoc, filter_app, filter_cons, filter_nil.
  destruct (decide (key a = k)) as [<-|Hne].
  - by rewrite lookup_insert_eq, last_snoc.
  - by rewrite lookup_insert_ne, app_nil_r.
Qed.

End IndexBy.

(** *** Running the helpers *)

Ltac run_async :=
  unfold defined, try_catch, query, write, call, throw;
  unfold mbind, mret, Async_bind, Async_ret; cbv beta iota zeta.

Lemma pullSecrets_cases f userId workspaceId environment db :
  (f PullFindShared = None ∧ f PullFindPersonal = None
   ∧ pullSecrets f userId workspaceId environment db
     = (db, inr (scope userId workspaceId environment db)))
  ∨ ((is_Some (f PullFindShared) ∨ is_Some (f PullFindPersonal))
     ∧ pullSecrets f userId workspaceId environment db = (db, inl pullFailed)).
Proof.
  unfold pullSecrets. run_async.
  destruct (f PullFindShared) eqn:E1; simpl; [right; eauto|].
  destruct (f PullFindPersonal) eqn:E2; simpl; [right; eauto|].
  left. done.
Qed.

Lemma takeSecretSnapshotHelper_cases f workspaceId db :
  (f SnapshotFindSecrets = None ∧ f SnapshotFindLatest = None
   ∧ f SnapshotSave = None
   ∧ takeSecretSnapshotHelper f workspaceId db
     = (afterSnapshot workspaceId db, inr ()))
  ∨ ((is_Some (f SnapshotFindSecrets) ∨ is_Some (f SnapshotFindLatest)
      ∨ is_Some (f SnapshotSave))
     ∧ takeSecretSnapshotHelper f workspaceId db = (db, inl snapshotFailed)).
Proof.
  unfold takeSecretSnapshotHelper. run_async.
  destruct (f SnapshotFindSecrets) eqn:E1; simpl; [right; eauto|].
  destruct (f SnapshotFindLatest) eqn:E2; simpl; [right; eauto|].
  unfold afterSnapshot, newSnapshot, latestVersion.
  destruct (SecretSnapshot_findLatest workspaceId db) eqn:EL;
    destruct (f SnapshotSave) eqn:E3; simpl; eauto 10.
Qed.

Lemma js_in_js_get {A : Type} (obj : gmap string A) k :
  js_in k obj ↔ is_Some (js_get obj k).
Proof.
  unfold js_in, js_get. destruct (obj !! k) as [a|].
  - split; eauto.
  - destruct (decide (k ∈ Object_prototype)); split; eauto.
    + intros [[? ?]|?]; done.
    + by intros [? ?].
Qed.

Lemma js_get_Own {A : Type} (obj : gmap string A) k a :
  js_get obj k = Some (Own a) ↔ obj !! k = Some a.
Proof.
  unfold js_get. destruct (obj !! k) as [a'|].
  - split; intros H; by simplify_eq.
  - by destruct (decide (k ∈ Object_prototype)).
Qed.

Lemma js_get_Inherited {A : Type} (obj : gmap string A) k :
  js_get obj k = Some Inherited ↔ obj !! k = None ∧ k ∈ Object_prototype.
Proof.
  unfold js_get. destruct (obj !! k) as [a'|].
  - split; [done|]. by intros [? _].
  - destruct (decide (k ∈ Object_prototype)); split; try done.
    + by intros [_ ?].
Qed.

Lemma mapStored_present {B : Type} (obj : gmap string ISecret.t)
  (f : Member ISecret.t → PushSecret.t → B) (l : list PushSecret.t) :
  (∀ s, s ∈ l → js_in (PushSecret.hashKey s) obj) →
  mapStored obj f l
  = Some (fmap (λ s, f (default Inherited (js_get obj (PushSecret.hashKey s)))
                       s) l).
Proof.
  unfold mapStored. induction l as [|s l IH]; intros Hall; [done|].
  destruct (proj1 (js_in_js_get _ _) (Hall s ltac:(left))) as [o Ho].
  simpl. rewrite Ho. simpl. rewrite IH; [done|].
  intros s' Hs'. apply Hall. by right.
Qed.

Lemma valueOrTypeChanged_js_in obj s :
  valueOrTypeChanged obj s → js_in (PushSecret.hashKey s) obj.
Proof.
  unfold valueOrTypeChanged. rewrite js_in_js_get.
  destruct (js_get obj (PushSecret.hashKey s)); [eauto | done].
Qed.

Lemma toUpdate_js_in oldSecrets secrets s :
  s ∈ toUpdate oldSecrets secrets →
  js_in (PushSecret.hashKey s) (oldSecretsObj oldSecrets).
Proof.
  unfold toUpdate. intros [Hc _]%list_elem_of_filter.
  by apply valueOrTypeChanged_js_in.
Qed.

Lemma afterDelete_guard userId workspaceId environment secrets db :
  let td := toDelete (scope userId workspaceId environment db) secrets in
  (if decide (0 < length td)
   then SecretVersion_updateMany td (Secret_deleteMany td db) else db)
  = afterDelete userId workspaceId environment secrets db.
Proof.
  intros td. unfold afterDelete. fold td. clearbody td.
  destruct (decide (0 < length td)) as [|Hz]; [done|].
  destruct td; [|simpl in Hz; lia].
  by rewrite Secret_deleteMany_nil, SecretVersion_updateMany_nil.
Qed.

Lemma afterAdd_guard userId workspaceId environment secrets db :
  let ta := toAdd (scope userId workspaceId environment db) secrets in
  let au := afterUpdate userId workspaceId environment secrets db in
  (if decide (0 < length ta)
   then SecretVersion_insertMany
          (fmap mkFirstVersion
             (snd (Secret_insertMany
                     (fmap (mkNewSecret userId workspaceId environment) ta) au)))
          (fst (Secret_insertMany
                  (fmap (mkNewSecret userId workspaceId environment) ta) au))
   else au)
  = afterAdd userId workspaceId environment secrets db.
Proof.
  intros ta au. unfold afterAdd, newSecrets. fold ta au. clearbody ta au.
  destruct (decide (0 < length ta)) as [|Hz]; [done|].
  destruct ta; [|simpl in Hz; lia].
  change (fmap (mkNewSecret userId workspaceId environment) []) with
    (@nil NewSecret.t).
  rewrite Secret_insertMany_nil. simpl.
  by rewrite SecretVersion_insertMany_nil.
Qed.

#[local] Opaque Secret_deleteMany SecretVersion_updateMany Secret_bulkWrite
  SecretVersion_insertMany Secret_insertMany.

Lemma pushSecrets_cases f userId workspaceId environment secrets db :
  (pushSecrets f userId workspaceId environment secrets db
   = (afterPush userId workspaceId environment secrets db, inr ())
   ∧ f SnapshotFindSecrets = None ∧ f SnapshotFindLatest = None
   ∧ f SnapshotSave = None)
  ∨ ((∃ c, is_Some (f c))
     ∧ ∃ db', pushSecrets f userId workspaceId environment secrets db
              = (db', inl pushFailed)).
Proof.
  remember (pushSecrets f userId workspaceId environment secrets db) as r
    eqn:Hr.
  unfold pushSecrets in Hr.
  unfold try_catch at 1 in Hr. unfold mbind at 1 in Hr.
  unfold Async_bind at 1 in Hr. cbv beta in Hr.
  destruct (pullSecrets_cases f userId workspaceId environment db)
    as [(_ & _ & Hp)|[Hf Hp]]; rewrite Hp in Hr; cbv beta iota in Hr;
    [|right; split; [destruct Hf; eauto | by eexists]].
  set (old := scope userId workspaceId environment db) in Hr.
  pose proof (afterDelete_guard userId workspaceId environment secrets db)
    as Hdel.
  pose proof (afterAdd_guard userId workspaceId environment secrets db)
    as Hadd.
  cbv zeta in Hdel, Hadd. fold old in Hdel, Hadd.
  rewrite (mapStored_present _ _ _ (toUpdate_js_in old secrets)) in Hr.
  rewrite (mapStored_present _ _ _ (toUpdate_js_in old secrets)) in Hr.
  fold (operations userId workspaceId environment secrets db) in Hr.
  fold (updatedVersions userId workspaceId environment secrets db) in Hr.
  unfold afterPush. rewrite <- Hadd. unfold afterUpdate. rewrite <- Hdel.
  clear Hadd Hdel.
  revert Hr. run_async.
  destruct (decide (0 < length (toDelete old secrets))) as [Hd|Hd]; simpl;
    repeat match goal with
      | |- context [match f ?c with _ => _ end] =>
          destruct (f c) eqn:?; simpl;
          [intros ->; right; split; [exists c; eauto | by eexists]|]
      end;
    (destruct (decide (0 < length (toAdd old secrets))) as [Ha|Ha]; simpl;
     repeat match goal with
       | |- context [match f ?c with _ => _ end] =>
           destruct (f c) eqn:?; simpl;
           [intros ->; right; split; [exists c; eauto | by eexists]|]
       end);
    match goal with
    | |- context [takeSecretSnapshotHelper f workspaceId ?d] =>
        destruct (takeSecretSnapshotHelper_cases f workspaceId d)
          as [(? & ? & ? & Hs)|[Hf Hs]]; rewrite Hs
    end; intros ->;
    first [ left; split; [reflexivity | done]
          | right; split; [destruct Hf as [?|[?|?]]; eauto | by eexists] ].
Qed.

#[local] Transparent Secret_deleteMany SecretVersion_updateMany
  Secret_bulkWrite SecretVersion_insertMany Secret_insertMany.

Lemma pushSecrets_no_faults userId workspaceId environment secrets db :
  pushSecrets no_faults userId workspaceId environment secrets db
  = (afterPush userId workspaceId environment secrets db, inr ()).
Proof.
  destruct (pushSecrets_cases no_faults userId workspaceId environment
              secrets db) as [[H _]|[[c [e He]] _]]; [done|].
  discriminate He.
Qed.

Lemma pushSecrets_success f userId workspaceId environment secrets db db' :
  pushSecrets f userId workspaceId environment secrets db = (db', inr ()) →
  db' = afterPush userId workspaceId environment secrets db.
Proof.
  intros Hp.
  destruct (pushSecrets_cases f userId workspaceId environment secrets db)
    as [[H _]|[_ [d H]]]; rewrite H in Hp; by injection Hp.
Qed.

Lemma takeSecretSnapshotHelper_success f workspaceId db db' :
  takeSecretSnapshotHelper f workspaceId db = (db', inr ()) →
  db' = afterSnapshot workspaceId db.
Proof.
  intros Hp.
  destruct (takeSecretSnapshotHelper_cases f workspaceId db)
    as [(_ & _ & _ & H)|[_ H]]; rewrite H in Hp; by injection Hp.
Qed.

(** ** Pull *)

(** C8: [pullSecrets] returns the caller's personal secrets of the scope
    followed by the shared secrets of the scope, each part in store order,
    and leaves the store as it was. *)
Theorem pullSecrets_personal_first f userId workspaceId environment db :
  f PullFindShared = None → f PullFindPersonal = None →
  ∃ personalSecrets sharedSecrets,
    pullSecrets f userId workspaceId environment db
    = (db, inr (personalSecrets ++ sharedSecrets))
    ∧ (∀ s, s ∈ personalSecrets ↔
            s ∈ Secret db ∧ ISecret.workspace s = workspaceId
            ∧ ISecret.environment s = environment
            ∧ ISecret.type s = SECRET_PERSONAL
            ∧ ISecret.user s = Some userId)
    ∧ (∀ s, s ∈ sharedSecrets ↔
            s ∈ Secret db ∧ ISecret.workspace s = workspaceId
            ∧ ISecret.environment s = environment
            ∧ ISecret.type s = SECRET_SHARED)
    ∧ sublist personalSecrets (Secret db)
    ∧ sublist sharedSecrets (Secret db).
Proof.
  intros Hs Hp.
  exists (Secret_find_personal workspaceId environment userId db),
         (Secret_find_shared workspaceId environment db).
  split.
  - destruct (pullSecrets_cases f userId workspaceId environment db)
      as [(_ & _ & H)|[[[e He]|[e He]] _]]; [done | congruence | congruence].
  - unfold Secret_find_personal, Secret_find_shared.
    split_and!; try apply sublist_filter.
    all: intros s; rewrite list_elem_of_filter; tauto.
Qed.

Lemma pullSecrets_personal_first_witness :
  let db := mkDb [sharedDoc; personalDoc] [] [] 2 in
  no_faults PullFindShared = None ∧ no_faults PullFindPersonal = None
  ∧ ∃ personalSecrets sharedSecrets,
      pullSecrets no_faults "u" "w" "dev" db
      = (db, inr (personalSecrets ++ sharedSecrets))
      ∧ (∀ s, s ∈ personalSecrets ↔
              s ∈ Secret db ∧ ISecret.workspace s = "w"
              ∧ ISecret.environment s = "dev"
              ∧ ISecret.type s = SECRET_PERSONAL
              ∧ ISecret.user s = Some "u")
      ∧ (∀ s, s ∈ sharedSecrets ↔
              s ∈ Secret db ∧ ISecret.workspace s = "w"
              ∧ ISecret.environment s = "dev"
              ∧ ISecret.type s = SECRET_SHARED)
      ∧ sublist personalSecrets (Secret db)
      ∧ sublist sharedSecrets (Secret db).
Proof.
  intros db. split; [reflexivity|]. split; [reflexivity|].
  apply (pullSecrets_personal_first no_faults "u" "w" "dev" db);
    reflexivity.
Defined.

Example pullSecrets_scenario_D :
  pullSecrets no_faults "u" "w" "dev" (mkDb [sharedDoc; personalDoc] [] [] 2)
  = (mkDb [sharedDoc; personalDoc] [] [] 2, inr [personalDoc; sharedDoc]).
Proof. vm_compute. reflexivity. Qed.

(** ** Rendering decrypted secrets as text *)

Lemma append_assoc (a b c : string) : (a +:+ b) +:+ c = a +:+ (b +:+ c).
Proof.
  induction a as [|x a IH]; [done|].
  change (String x ((a +:+ b) +:+ c) = String x (a +:+ (b +:+ c))).
  by rewrite IH.
Qed.

Lemma append_nil_r (a : string) : a +:+ "" = a.
Proof.
  induction a as [|x a IH]; [done|].
  change (String x (a +:+ "") = String x a). by rewrite IH.
Qed.

Lemma decryptOne_text d key n acc s idx :
  idx < n →
  decryptOne d key n (ContentText acc) s idx
  = (λ line, ContentText (acc +:+ line)) <$> textLine d key s.
Proof.
  intros Hlt. unfold decryptOne, textLine.
  destruct (d (PushSecret.ciphertextKey s) (PushSecret.ivKey s)
              (PushSecret.tagKey s) key) as [k|]; [|reflexivity].
  destruct (d (PushSecret.ciphertextValue s) (PushSecret.ivValue s)
              (PushSecret.tagValue s) key) as [v|]; [|reflexivity].
  cbn. destruct (decide (idx < n)) as [_|Hge]; [|lia].
  by rewrite !append_assoc.
Qed.

Lemma forEach_text d key n (l : list PushSecret.t) idx acc :
  idx + length l ≤ n →
  forEach (decryptOne d key n) idx l (ContentText acc)
  = (λ lines, ContentText (acc +:+ foldr String.append "" lines))
      <$> mapM (textLine d key) l.
Proof.
  revert idx acc. induction l as [|s l IH]; intros idx acc Hn.
  - cbn. by rewrite append_nil_r.
  - simpl in Hn.
    change (forEach (decryptOne d key n) idx (s :: l) (ContentText acc))
      with (decryptOne d key n (ContentText acc) s idx
            ≫= forEach (decryptOne d key n) (S idx) l).
    change (mapM (textLine d key) (s :: l))
      with (y ← textLine d key s; k ← mapM (textLine d key) l;
            mret (y :: k)).
    rewrite decryptOne_text by lia.
    destruct (textLine d key s) as [line|]; [|reflexivity].
    cbn [fmap option_fmap option_map mbind option_bind].
    rewrite IH by lia.
    destruct (mapM (textLine d key) l) as [lines|]; [|reflexivity].
    cbn. by rewrite append_assoc.
Qed.

(** C9 (what the code does): in the [text] format every line, the last one
    included, is followed by a newline, because the guard
    [idx < secrets.length] holds at every index. *)
Theorem decryptSecrets_text_newline_after_every_line d secrets key :
  decryptSecrets d secrets key text
  = (λ lines, ContentText (foldr String.append "" lines))
      <$> mapM (textLine d key) secrets.
Proof.
  unfold decryptSecrets.
  rewrite (forEach_text d key (length secrets) secrets 0 ""); [done | lia].
Qed.

(** C9 (failing input): one secret renders as [key=value] plus a trailing
    newline, not as the bare line. *)
Example decryptSecrets_text_one_secret :
  decryptSecrets (λ ciphertext _ _ _, Some ciphertext)
    [PushSecret.mk "KEY" "i" "t" "h" "VALUE" "i" "t" "h" SECRET_SHARED]
    "secret" text
  = Some (ContentText ("KEY=VALUE" +:+ newline))
  ∧ "KEY=VALUE" +:+ newline ≠ "KEY=VALUE".
Proof. split; [reflexivity | discriminate]. Qed.

(** ** Errors surfaced by a push *)

Lemma pushSecrets_error f userId workspaceId environment secrets db e :
  snd (pushSecrets f userId workspaceId environment secrets db) = inl e →
  e = pushFailed.
Proof.
  destruct (pushSecrets_cases f userId workspaceId environment secrets db)
    as [[H _]|[_ [d H]]]; rewrite H; simpl; congruence.
Qed.

(** C7 (as amended): when reading the prior snapshot or writing the new one
    fails, [takeSecretSnapshotHelper] throws the snapshot error, the push
    fails, and the error that reaches the caller of [pushSecrets] is the
    generic push error, as for every other failure of a push. *)
Theorem snapshot_failure_surfaces_as_push_failure
  f userId workspaceId environment secrets db :
  is_Some (f SnapshotFindLatest) ∨ is_Some (f SnapshotSave) →
  (∀ db0, takeSecretSnapshotHelper f workspaceId db0
          = (db0, inl snapshotFailed))
  ∧ snd (pushSecrets f userId workspaceId environment secrets db)
    = inl pushFailed
  ∧ (∀ f' e, snd (pushSecrets f' userId workspaceId environment secrets db)
             = inl e → e = pushFailed).
Proof.
  intros Hf. split_and!.
  - intros db0.
    destruct (takeSecretSnapshotHelper_cases f workspaceId db0)
      as [(_ & H2 & H3 & _)|[_ H]]; [|done].
    destruct Hf as [[e He]|[e He]]; congruence.
  - destruct (pushSecrets_cases f userId workspaceId environment secrets db)
      as [(_ & _ & H2 & H3)|[_ [d H]]]; [|by rewrite H].
    destruct Hf as [[e He]|[e He]]; congruence.
  - intros f' e. apply pushSecrets_error.
Qed.

Lemma snapshot_failure_surfaces_as_push_failure_witness :
  let f := fault_at SnapshotSave "write failed" in
  (is_Some (f SnapshotFindLatest) ∨ is_Some (f SnapshotSave))
  ∧ (∀ db0, takeSecretSnapshotHelper f "w" db0 = (db0, inl snapshotFailed))
  ∧ snd (pushSecrets f "u" "w" "dev" [] emptyDb) = inl pushFailed
  ∧ (∀ f' e, snd (pushSecrets f' "u" "w" "dev" [] emptyDb) = inl e →
             e = pushFailed).
Proof.
  intros f.
  assert (Hf : is_Some (f SnapshotFindLatest) ∨ is_Some (f SnapshotSave)).
  { right. vm_compute. eauto. }
  split; [exact Hf|].
  exact (snapshot_failure_surfaces_as_push_failure f "u" "w" "dev" [] emptyDb
           Hf).
Defined.

(** C7 (counterexample): a push whose snapshot write fails and a push whose
    bulk update fails surface the same error, which is not the snapshot
    error. *)
Lemma snapshot_failure_not_distinct :
  snd (pushSecrets (fault_at SnapshotSave "write failed") "u" "w" "dev" []
         emptyDb)
  = snd (pushSecrets (fault_at PushBulkWrite "write failed") "u" "w" "dev" []
           emptyDb)
  ∧ snd (pushSecrets (fault_at SnapshotSave "write failed") "u" "w" "dev" []
           emptyDb)
    ≠ inl snapshotFailed.
Proof. split; [vm_compute; reflexivity | vm_compute; discriminate]. Qed.

(** ** Snapshots *)

Lemma max_list_snoc (l : list nat) (n : nat) :
  max_list (l ++ [n]) = max_list l `max` n.
Proof. induction l as [|a l IH]; simpl; [lia | rewrite IH; lia]. Qed.

Lemma max_list_seq_1 (n : nat) : max_list (seq 1 n) = n.
Proof.
  induction n as [|n IH]; [done|].
  rewrite seq_S, max_list_snoc, IH. lia.
Qed.

Lemma SecretSnapshot_findLatest_spec workspaceId db :
  match SecretSnapshot_findLatest workspaceId db with
  | None => snapshotVersions workspaceId db = []
  | Some latest =>
      latest ∈ SecretSnapshot db
      ∧ ISecretSnapshot.workspace latest = workspaceId
      ∧ ISecretSnapshot.version latest
        = max_list (snapshotVersions workspaceId db)
  end.
Proof.
  unfold SecretSnapshot_findLatest, snapshotVersions.
  induction (SecretSnapshot db) as [|sn l IH] using rev_ind; [done|].
  rewrite foldl_app, filter_app, fmap_app. simpl.
  rewrite filter_cons, filter_nil.
  destruct (decide (ISecretSnapshot.workspace sn = workspaceId)) as [Hw|Hw].
  - simpl. rewrite max_list_snoc.
    destruct (foldl _ None l) as [b|].
    + destruct IH as (Hin & Hb & Hv).
      destruct (decide (ISecretSnapshot.version b < ISecretSnapshot.version sn)).
      * split_and!; [set_solver | done | lia].
      * split_and!; [set_solver | done | lia].
    + rewrite IH. simpl. split_and!; [set_solver | done | lia].
  - rewrite app_nil_r.
    destruct (foldl _ None l) as [b|]; [|done].
    destruct IH as (Hin & Hb & Hv). split_and!; [set_solver | done | done].
Qed.

Lemma latestVersion_max workspaceId db :
  latestVersion workspaceId db = max_list (snapshotVersions workspaceId db).
Proof.
  unfold latestVersion.
  pose proof (SecretSnapshot_findLatest_spec workspaceId db) as H.
  destruct (SecretSnapshot_findLatest workspaceId db).
  - by destruct H as (_ & _ & ->).
  - by rewrite H.
Qed.

Lemma snapshotVersions_afterSnapshot workspaceId w db :
  snapshotVersions w (afterSnapshot workspaceId db)
  = snapshotVersions w db
    ++ (if decide (workspaceId = w)
        then [max_list (snapshotVersions workspaceId db) + 1] else []).
Proof.
  unfold snapshotVersions at 1 2, afterSnapshot, SecretSnapshot_save. simpl.
  rewrite filter_app, fmap_app, filter_cons, filter_nil. simpl.
  destruct (decide (workspaceId = w)); [|done].
  simpl. by rewrite latestVersion_max.
Qed.

(** C4: [takeSecretSnapshotHelper] appends exactly one snapshot of the
    workspace; it holds every [Secret] row of the workspace, whatever the
    environment; its version is 1 when the workspace has no snapshot and
    the highest existing version plus 1 otherwise; so the versions of a
    workspace stay the sequence 1, 2, 3, ... and those of the other
    workspaces do not change. *)
Theorem takeSecretSnapshotHelper_next_version f workspaceId db :
  f SnapshotFindSecrets = None → f SnapshotFindLatest = None →
  f SnapshotSave = None →
  ∃ sn,
    takeSecretSnapshotHelper f workspaceId db
    = (with_SecretSnapshot db (SecretSnapshot db ++ [sn]), inr ())
    ∧ ISecretSnapshot.workspace sn = workspaceId
    ∧ ISecretSnapshot.secrets sn
      = filter (λ s, ISecret.workspace s = workspaceId) (Secret db)
    ∧ (snapshotVersions workspaceId db = [] → ISecretSnapshot.version sn = 1)
    ∧ ISecretSnapshot.version sn
      = max_list (snapshotVersions workspaceId db) + 1
    ∧ (∀ n, snapshotVersions workspaceId db = seq 1 n →
            snapshotVersions workspaceId
              (with_SecretSnapshot db (SecretSnapshot db ++ [sn]))
            = seq 1 (S n))
    ∧ (∀ w, w ≠ workspaceId →
            snapshotVersions w
              (with_SecretSnapshot db (SecretSnapshot db ++ [sn]))
            = snapshotVersions w db).
Proof.
  intros H1 H2 H3. exists (newSnapshot workspaceId db).
  pose proof (snapshotVersions_afterSnapshot workspaceId) as Hsv.
  unfold afterSnapshot, SecretSnapshot_save in Hsv.
  split_and!.
  - destruct (takeSecretSnapshotHelper_cases f workspaceId db)
      as [(_ & _ & _ & H)|[[[e He]|[[e He]|[e He]]] _]];
      [done | congruence ..].
  - done.
  - done.
  - simpl. rewrite latestVersion_max. by intros ->.
  - simpl. by rewrite latestVersion_max.
  - intros n Hn. rewrite Hsv, decide_True by done.
    rewrite Hn, max_list_seq_1, seq_S. by rewrite Nat.add_comm.
  - intros w Hw. rewrite Hsv, decide_False by done. by rewrite app_nil_r.
Qed.

Lemma takeSecretSnapshotHelper_next_version_witness :
  let db := mkDb [sharedDoc; personalDoc] [] [] 2 in
  no_faults SnapshotFindSecrets = None ∧ no_faults SnapshotFindLatest = None
  ∧ no_faults SnapshotSave = None
  ∧ ∃ sn,
      takeSecretSnapshotHelper no_faults "w" db
      = (with_SecretSnapshot db (SecretSnapshot db ++ [sn]), inr ())
      ∧ ISecretSnapshot.workspace sn = "w"
      ∧ ISecretSnapshot.secrets sn
        = filter (λ s, ISecret.workspace s = "w") (Secret db)
      ∧ (snapshotVersions "w" db = [] → ISecretSnapshot.version sn = 1)
      ∧ ISecretSnapshot.version sn = max_list (snapshotVersions "w" db) + 1
      ∧ (∀ n, snapshotVersions "w" db = seq 1 n →
              snapshotVersions "w"
                (with_SecretSnapshot db (SecretSnapshot db ++ [sn]))
              = seq 1 (S n))
      ∧ (∀ w, w ≠ "w" →
              snapshotVersions w
                (with_SecretSnapshot db (SecretSnapshot db ++ [sn]))
              = snapshotVersions w db).
Proof.
  intros db. split_and!; try reflexivity.
  apply (takeSecretSnapshotHelper_next_version no_faults "w" db);
    reflexivity.
Defined.

(** ** What a push writes, counted *)

Lemma afterPush_nothing_to_do userId workspaceId environment secrets db :
  toDelete (scope userId workspaceId environment db) secrets = [] →
  toUpdate (scope userId workspaceId environment db) secrets = [] →
  toAdd (scope userId workspaceId environment db) secrets = [] →
  afterPush userId workspaceId environment secrets db
  = afterSnapshot workspaceId db.
Proof.
  intros Hd Hu Ha.
  unfold afterPush, afterAdd, newSecrets, afterUpdate, operations,
    updatedVersions, afterDelete.
  rewrite Hd, Hu, Ha. rewrite !fmap_nil.
  rewrite Secret_deleteMany_nil, SecretVersion_updateMany_nil.
  unfold Secret_bulkWrite. simpl foldl.
  rewrite SecretVersion_insertMany_nil.
  assert (Hid : with_Secret db (Secret db) = db) by by destruct db.
  rewrite Hid, Secret_insertMany_nil. simpl.
  by rewrite SecretVersion_insertMany_nil.
Qed.

Lemma length_SecretVersion_afterPush
  userId workspaceId environment secrets db :
  length (SecretVersion
            (afterPush userId workspaceId environment secrets db))
  = length (SecretVersion db)
    + length (toUpdate (scope userId workspaceId environment db) secrets)
    + length (toAdd (scope userId workspaceId environment db) secrets).
Proof.
  unfold afterPush, afterSnapshot, afterAdd, newSecrets, afterUpdate,
    updatedVersions, afterDelete.
  simpl. rewrite !length_app, !length_fmap, length_imap, length_fmap. lia.
Qed.

(** ** The classification *)

Lemma own_oldSecretsObj oldSecrets k :
  is_Some (oldSecretsObj oldSecrets !! k)
  ↔ k ∈ ISecret.secretKeyHash <$> oldSecrets.
Proof. apply indexBy_is_Some. Qed.

Lemma js_in_oldSecretsObj oldSecrets k :
  js_in k (oldSecretsObj oldSecrets)
  ↔ k ∈ ISecret.secretKeyHash <$> oldSecrets ∨ k ∈ Object_prototype.
Proof. unfold js_in. by rewrite own_oldSecretsObj. Qed.

Lemma js_in_newSecretsObj secrets k :
  js_in k (newSecretsObj secrets)
  ↔ k ∈ PushSecret.hashKey <$> secrets ∨ k ∈ Object_prototype.
Proof. unfold js_in, newSecretsObj. by rewrite indexBy_is_Some. Qed.

Lemma valueOrTypeChanged_spec obj s :
  valueOrTypeChanged obj s ↔
  (∃ o, obj !! PushSecret.hashKey s = Some o
        ∧ (PushSecret.hashValue s ≠ ISecret.secretValueHash o
           ∨ PushSecret.type s ≠ ISecret.type o))
  ∨ (obj !! PushSecret.hashKey s = None
     ∧ PushSecret.hashKey s ∈ Object_prototype).
Proof.
  unfold valueOrTypeChanged, js_get.
  destruct (obj !! PushSecret.hashKey s) as [o|]; simpl.
  - destruct (decide (Some (PushSecret.hashValue s)
                      ≠ Some (ISecret.secretValueHash o))) as [Hv|Hv].
    { split; [|done]. intros _. left. exists o. split; [done|].
      left. congruence. }
    destruct (decide (Some (PushSecret.type s) ≠ Some (ISecret.type o)))
      as [Ht|Ht].
    { split; [|done]. intros _. left. exists o. split; [done|].
      right. congruence. }
    split; [done|].
    intros [(o' & [= <-] & [Hd|Hd])|[? _]]; [| |done].
    + apply Hv. intros ?. apply Hd. congruence.
    + apply Ht. intros ?. apply Hd. congruence.
  - destruct (decide (PushSecret.hashKey s ∈ Object_prototype)); simpl.
    + split; [|done]. intros _. by right.
    + split; [done|]. intros [(o' & ? & _)|[_ ?]]; done.
Qed.


Lemma elem_of_toDeleteSecrets oldSecrets secrets o :
  o ∈ toDeleteSecrets oldSecrets secrets ↔
  o ∈ oldSecrets
  ∧ (ISecret.secretKeyHash o ∉ PushSecret.hashKey <$> secrets)
  ∧ (ISecret.secretKeyHash o ∉ Object_prototype).
Proof.
  unfold toDeleteSecrets.
  rewrite list_elem_of_filter, js_in_newSecretsObj. tauto.
Qed.

Lemma elem_of_toUpdate oldSecrets secrets s :
  s ∈ toUpdate oldSecrets secrets ↔
  s ∈ secrets
  ∧ ((∃ o, oldSecretsObj oldSecrets !! PushSecret.hashKey s = Some o
           ∧ (PushSecret.hashValue s ≠ ISecret.secretValueHash o
              ∨ PushSecret.type s ≠ ISecret.type o))
     ∨ ((PushSecret.hashKey s ∉ ISecret.secretKeyHash <$> oldSecrets)
        ∧ PushSecret.hashKey s ∈ Object_prototype)).
Proof.
  unfold toUpdate. rewrite list_elem_of_filter, valueOrTypeChanged_spec.
  rewrite <- own_oldSecretsObj, <- eq_None_not_Some. tauto.
Qed.

Lemma elem_of_toAdd oldSecrets secrets s :
  s ∈ toAdd oldSecrets secrets ↔
  s ∈ secrets
  ∧ (PushSecret.hashKey s ∉ ISecret.secretKeyHash <$> oldSecrets)
  ∧ (PushSecret.hashKey s ∉ Object_prototype).
Proof.
  unfold toAdd. rewrite list_elem_of_filter, js_in_oldSecretsObj. tauto.
Qed.

Lemma oldSecretsObj_lookup_Some oldSecrets k o :
  oldSecretsObj oldSecrets !! k = Some o →
  o ∈ oldSecrets ∧ ISecret.secretKeyHash o = k.
Proof. apply indexBy_lookup_Some. Qed.

(** ** The store after each step of a push *)

Section Steps.
Context (userId workspaceId environment : string).
Context (secrets : list PushSecret.t) (db : Db).

Let old := scope userId workspaceId environment db.
Let mid := afterDelete userId workspaceId environment secrets db.
Let upd := afterUpdate userId workspaceId environment secrets db.
Let add := afterAdd userId workspaceId environment secrets db.
Let final := afterPush userId workspaceId environment secrets db.
Let ops := operations userId workspaceId environment secrets db.
Let fresh := newSecrets userId workspaceId environment secrets db.

Lemma Secret_afterDelete :
  Secret mid = filter (λ s, ISecret._id s ∉ toDelete old secrets) (Secret db).
Proof. reflexivity. Qed.

Lemma SecretVersion_afterDelete :
  SecretVersion mid
  = (λ v, if decide (ISecretVersion.secret v ∈ Some <$> toDelete old secrets)
          then markDeleted v else v) <$> SecretVersion db.
Proof. reflexivity. Qed.

Lemma Secret_afterUpdate :
  Secret upd = foldl (λ l op, updateOne op l) (Secret mid) ops.
Proof. reflexivity. Qed.

Lemma SecretVersion_afterUpdate :
  SecretVersion upd
  = SecretVersion mid
    ++ updatedVersions userId workspaceId environment secrets db.
Proof. reflexivity. Qed.

Lemma newSecrets_eq :
  fresh
  = imap (λ idx o, newDocument (nextId db + idx) o)
      (mkNewSecret userId workspaceId environment <$> toAdd old secrets).
Proof. reflexivity. Qed.

Lemma Secret_afterPush : Secret final = Secret upd ++ fresh.
Proof. reflexivity. Qed.

Lemma SecretVersion_afterPush :
  SecretVersion final
  = SecretVersion upd ++ (mkFirstVersion <$> fresh).
Proof. reflexivity. Qed.

Lemma SecretSnapshot_afterPush :
  SecretSnapshot final
  = SecretSnapshot db ++ [newSnapshot workspaceId add].
Proof. reflexivity. Qed.

Lemma nextId_afterPush :
  nextId final = nextId db + length (toAdd old secrets).
Proof.
  unfold final, afterPush, afterSnapshot, afterAdd, Secret_insertMany. simpl.
  by rewrite length_fmap.
Qed.

Lemma Secret_afterAdd : Secret add = Secret final.
Proof. reflexivity. Qed.

End Steps.

(** ** The caller's scope *)

Lemma elem_of_scope userId workspaceId environment db s :
  s ∈ scope userId workspaceId environment db ↔
  s ∈ Secret db ∧ ISecret.workspace s = workspaceId
  ∧ ISecret.environment s = environment
  ∧ (ISecret.type s = SECRET_SHARED
     ∨ (ISecret.type s = SECRET_PERSONAL ∧ ISecret.user s = Some userId)).
Proof.
  unfold scope, Secret_find_personal, Secret_find_shared.
  rewrite elem_of_app, !list_elem_of_filter. tauto.
Qed.

Lemma stored_Own userId workspaceId environment db s o :
  stored userId workspaceId environment db s = Own o
  ↔ oldSecretsObj (scope userId workspaceId environment db)
      !! PushSecret.hashKey s = Some o.
Proof.
  unfold stored. rewrite <- js_get_Own.
  destruct (js_get _ _) as [[?|]|]; simpl; split; intros H;
    by simplify_eq.
Qed.

Lemma stored_lookup userId workspaceId environment db s o :
  oldSecretsObj (scope userId workspaceId environment db)
    !! PushSecret.hashKey s = Some o →
  stored userId workspaceId environment db s = Own o.
Proof. apply stored_Own. Qed.

(** ** Lists with distinct keys *)

Lemma NoDup_fmap_eq {A B : Type} (f : A → B) (l : list A) (x y : A) :
  NoDup (f <$> l) → x ∈ l → y ∈ l → f x = f y → x = y.
Proof.
  induction l as [|a l IH]; [by intros _ ?%not_elem_of_nil|].
  rewrite fmap_cons, NoDup_cons.
  intros [Hna Hnd] Hx Hy Hf.
  apply elem_of_cons in Hx as [->|Hx]; apply elem_of_cons in Hy as [->|Hy].
  - done.
  - exfalso. apply Hna. rewrite Hf. apply list_elem_of_fmap. eauto.
  - exfalso. apply Hna. rewrite <- Hf. apply list_elem_of_fmap. eauto.
  - by apply IH.
Qed.

Lemma filter_none {A : Type} (P : A → Prop) `{∀ x, Decision (P x)}
  (l : list A) : (∀ x, x ∈ l → ¬ P x) → filter P l = [].
Proof.
  induction l as [|a l IH]; intros Hall; [done|].
  rewrite filter_cons_False; [|apply Hall; left].
  apply IH. intros x Hx. apply Hall. by right.
Qed.

Lemma filter_ext_in {A : Type} (P Q : A → Prop) `{∀ x, Decision (P x)}
  `{∀ x, Decision (Q x)} (l : list A) :
  (∀ x, x ∈ l → P x ↔ Q x) → filter P l = filter Q l.
Proof.
  induction l as [|a l IH]; intros Hall; [done|].
  rewrite !filter_cons, IH by (intros x Hx; apply Hall; by right).
  destruct (decide (P a)) as [Ha|Ha], (decide (Q a)) as [Hb|Hb]; try done;
    exfalso; apply (Hall a) in Ha || apply (Hall a) in Hb; try done; by left.
Qed.

Lemma filter_fmap {A B : Type} (f : A → B) (P : B → Prop)
  `{∀ y, Decision (P y)} (l : list A) :
  filter P (f <$> l) = f <$> filter (λ x, P (f x)) l.
Proof.
  induction l as [|a l IH]; [done|].
  rewrite fmap_cons, !filter_cons, IH. by destruct (decide (P (f a))).
Qed.


Lemma fmap_id_on {A : Type} (g : A → A) (l : list A) :
  (∀ x, x ∈ l → g x = x) → g <$> l = l.
Proof.
  intros Hg. rewrite <- (list_fmap_id l) at 2.
  apply list_fmap_ext. intros i x Hx. apply Hg.
  by eapply list_elem_of_lookup_2.
Qed.

Lemma fmap_const_replicate {A B : Type} (g : A → B) (b : B) (l : list A) :
  (∀ x, x ∈ l → g x = b) → g <$> l = replicate (length l) b.
Proof.
  induction l as [|a l IH]; intros Hg; [done|].
  simpl. rewrite (Hg a) by left. f_equal. apply IH.
  intros x Hx. apply Hg. by right.
Qed.

(** A list of optional keys has no repeated key exactly when every key is
    the key of at most one element. *)
Lemma NoDup_omap_filter {A B : Type} `{EqDecision B} (g : A → option B)
  (l : list A) :
  NoDup (omap g l) ↔ ∀ b, length (filter (λ x, g x = Some b) l) ≤ 1.
Proof.
  induction l as [|a l IH]; [split; [simpl; lia | constructor]|].
  simpl. destruct (g a) as [b|] eqn:Hga.
  - rewrite NoDup_cons, IH. split.
    + intros [Hnotin Hall] b'. rewrite filter_cons.
      destruct (decide (g a = Some b')) as [Heq|Hne].
      * assert (b' = b) as -> by congruence. simpl.
        rewrite (filter_none (λ x, g x = Some b) l); [done|].
        intros x Hx Hgx. apply Hnotin. apply list_elem_of_omap. eauto.
      * apply Hall.
    + intros Hall. split.
      * intros (x & Hx & Hgx)%list_elem_of_omap.
        specialize (Hall b). rewrite filter_cons, decide_True in Hall by done.
        simpl in Hall.
        assert (Hin : x ∈ filter (λ x, g x = Some b) l)
          by (apply list_elem_of_filter; by split).
        destruct (filter (λ x, g x = Some b) l); [|simpl in Hall; lia].
        by apply not_elem_of_nil in Hin.
      * intros b'. specialize (Hall b'). rewrite filter_cons in Hall.
        destruct (decide (g a = Some b')); [simpl in Hall; lia | done].
  - rewrite IH. split; intros Hall b; specialize (Hall b).
    + by rewrite filter_cons, decide_False by congruence.
    + by rewrite filter_cons, decide_False in Hall by congruence.
Qed.

Lemma NoDup_replicate {A : Type} (n : nat) (a : A) :
  NoDup (replicate n a) → n ≤ 1.
Proof.
  destruct n as [|[|n]]; [lia|lia|]. simpl.
  intros [Hn _]%NoDup_cons. exfalso. apply Hn. by left.
Qed.

(** ** The bulk update *)

Lemma matchesFilter_applyUpdate op u r :
  matchesFilter op (applyUpdate u r) ↔ matchesFilter op r.
Proof. done. Qed.

Lemma updateOne_ids op l : ISecret._id <$> updateOne op l = ISecret._id <$> l.
Proof.
  induction l as [|r l IH]; [done|]. simpl.
  destruct (decide (matchesFilter op r)); [done|].
  by rewrite !fmap_cons, IH.
Qed.

Lemma updateOne_fmap op l :
  NoDup (ISecret._id <$> l) →
  updateOne op l
  = (λ r, if decide (matchesFilter op r)
          then applyUpdate (UpdateOne.update op) r else r) <$> l.
Proof.
  induction l as [|r l IH]; [done|].
  rewrite fmap_cons, NoDup_cons. intros [Hnr Hnd]. simpl.
  destruct (decide (matchesFilter op r)) as [Hm|Hm].
  - f_equal. symmetry. apply fmap_id_on. intros x Hx.
    destruct (decide (matchesFilter op x)) as [Hmx|]; [|done].
    exfalso. apply Hnr. destruct Hm as [_ Hm], Hmx as [_ Hmx].
    rewrite <- Hmx in Hm. injection Hm as ->.
    apply list_elem_of_fmap. eauto.
  - by rewrite IH.
Qed.

Lemma bulkWrite_ids ops l :
  ISecret._id <$> foldl (λ l op, updateOne op l) l ops = ISecret._id <$> l.
Proof.
  revert l. induction ops as [|op ops IH]; intros l; [done|].
  simpl. by rewrite IH, updateOne_ids.
Qed.

Lemma bulkWrite_fmap ops l :
  NoDup (ISecret._id <$> l) →
  foldl (λ l op, updateOne op l) l ops = applyOps ops <$> l.
Proof.
  revert l. induction ops as [|op ops IH]; intros l Hnd.
  - simpl. by rewrite list_fmap_id.
  - simpl. rewrite IH by by rewrite updateOne_ids.
    rewrite updateOne_fmap by done. rewrite <- list_fmap_compose.
    done.
Qed.

Lemma applyOps_filter {A : Type} (g : A → UpdateOne.t) (l : list A) r :
  applyOps (g <$> l) r
  = foldl (λ r x, applyUpdate (UpdateOne.update (g x)) r) r
      (filter (λ x, matchesFilter (g x) r) l).
Proof.
  revert r. induction l as [|x l IH]; intros r; [done|].
  rewrite fmap_cons, filter_cons. unfold applyOps. simpl.
  destruct (decide (matchesFilter (g x) r)) as [Hm|Hm].
  - simpl. fold (applyOps (g <$> l) (applyUpdate (UpdateOne.update (g x)) r)).
    by rewrite IH.
  - apply IH.
Qed.

Lemma Secret_afterUpdate_fmap userId workspaceId environment secrets db :
  NoDup (ISecret._id <$> Secret db) →
  Secret (afterUpdate userId workspaceId environment secrets db)
  = updatedBy userId workspaceId environment secrets db
      <$> Secret (afterDelete userId workspaceId environment secrets db).
Proof.
  intros Hnd. rewrite Secret_afterUpdate, bulkWrite_fmap.
  - apply list_fmap_ext. intros i r _. unfold operations.
    by rewrite applyOps_filter.
  - rewrite Secret_afterDelete. eapply sublist_NoDup; [exact Hnd|].
    apply fmap_sublist, sublist_filter.
Qed.

(** *** What a sequence of updates leaves of a stored secret *)

Lemma foldl_applyUpdate_frame userId (l : list PushSecret.t) r :
  let r' := foldl (λ r s, applyUpdate (mkUpdate userId s) r) r l in
  ISecret._id r' = ISecret._id r
  ∧ ISecret.workspace r' = ISecret.workspace r
  ∧ ISecret.environment r' = ISecret.environment r
  ∧ ISecret.type r' = ISecret.type r
  ∧ ISecret.secretKeyCiphertext r' = ISecret.secretKeyCiphertext r
  ∧ ISecret.secretKeyIV r' = ISecret.secretKeyIV r
  ∧ ISecret.secretKeyTag r' = ISecret.secretKeyTag r
  ∧ ISecret.secretKeyHash r' = ISecret.secretKeyHash r
  ∧ ISecret.version r' = ISecret.version r + length l.
Proof.
  revert r. induction l as [|s l IH]; intros r; cbv zeta.
  - simpl. split_and!; first [done | lia].
  - simpl.
    destruct (IH (applyUpdate (mkUpdate userId s) r))
      as (-> & -> & -> & -> & -> & -> & -> & -> & ->).
    simpl. split_and!; first [done | lia].
Qed.

Lemma foldl_applyUpdate_last userId (l : list PushSecret.t) r s :
  last l = Some s →
  let r' := foldl (λ r s, applyUpdate (mkUpdate userId s) r) r l in
  ISecret.secretValueCiphertext r' = PushSecret.ciphertextValue s
  ∧ ISecret.secretValueIV r' = PushSecret.ivValue s
  ∧ ISecret.secretValueTag r' = PushSecret.tagValue s
  ∧ ISecret.secretValueHash r' = PushSecret.hashValue s.
Proof.
  intros Hlast. cbv zeta.
  destruct l as [|x l _] using rev_ind; [done|].
  rewrite last_snoc in Hlast. injection Hlast as ->.
  by rewrite foldl_app.
Qed.

Lemma foldl_applyUpdate_user userId (l : list PushSecret.t) r :
  ISecret.user (foldl (λ r s, applyUpdate (mkUpdate userId s) r) r l)
  = if decide (Exists (λ s, PushSecret.type s = SECRET_PERSONAL) l)
    then Some userId else ISecret.user r.
Proof.
  revert r. induction l as [|s l IH]; intros r.
  - destruct (decide (Exists (λ s, PushSecret.type s = SECRET_PERSONAL) []))
      as [He|_]; [by apply Exists_nil in He | done].
  - change (foldl (λ r s, applyUpdate (mkUpdate userId s) r) r (s :: l))
      with (foldl (λ r s, applyUpdate (mkUpdate userId s) r)
              (applyUpdate (mkUpdate userId s) r) l).
    rewrite IH.
    destruct (decide (Exists (λ s, PushSecret.type s = SECRET_PERSONAL) l))
      as [He|He];
      destruct (decide (Exists (λ s, PushSecret.type s = SECRET_PERSONAL)
                          (s :: l))) as [He'|He']; try done.
    + exfalso. apply He'. by apply Exists_cons_tl.
    + apply Exists_cons in He' as [Hp|?]; [|done]. simpl.
      by rewrite decide_True by done.
    + simpl. destruct (decide (PushSecret.type s = SECRET_PERSONAL)) as [Hp|];
        [|done].
      exfalso. apply He'. by apply Exists_cons_hd.
Qed.

(** ** One push over a store with sound ids *)

Lemma scope_subseteq userId workspaceId environment db r :
  r ∈ scope userId workspaceId environment db → r ∈ Secret db.
Proof. by intros (? & _)%elem_of_scope. Qed.

Lemma same_id_same_record db r r' :
  ids_ok db → r ∈ Secret db → r' ∈ Secret db →
  ISecret._id r = ISecret._id r' → r = r'.
Proof. intros (Hnd & _). by apply NoDup_fmap_eq. Qed.

Section OnePush.
Context (userId workspaceId environment : string).
Context (secrets : list PushSecret.t) (db : Db).
Context (Hids : ids_ok db).

Let old := scope userId workspaceId environment db.
Let U := toUpdate old secrets.
Let storedOf := stored userId workspaceId environment db.
Let mid := afterDelete userId workspaceId environment secrets db.
Let upd := afterUpdate userId workspaceId environment secrets db.
Let final := afterPush userId workspaceId environment secrets db.
Let fresh := newSecrets userId workspaceId environment secrets db.
Let h := updatedBy userId workspaceId environment secrets db.

(** An entry of [toUpdate] is aimed at a stored secret of the scope with
    its key hash, or its key hash is a member of [Object.prototype] that is
    not stored. *)
Lemma stored_toUpdate s :
  s ∈ U →
  (∃ o, storedOf s = Own o
        ∧ oldSecretsObj old !! PushSecret.hashKey s = Some o
        ∧ o ∈ old
        ∧ ISecret.secretKeyHash o = PushSecret.hashKey s
        ∧ o ∈ Secret db
        ∧ ISecret.workspace o = workspaceId)
  ∨ (storedOf s = Inherited
     ∧ (PushSecret.hashKey s ∉ ISecret.secretKeyHash <$> old)
     ∧ PushSecret.hashKey s ∈ Object_prototype).
Proof.
  intros [_ [(o & Ho & _)|[Hno Hp]]]%elem_of_toUpdate.
  - left. exists o.
    pose proof Ho as [Hold Hk]%oldSecretsObj_lookup_Some.
    pose proof Hold as (Hdb & Hw & _)%elem_of_scope.
    split_and!; try done. by apply stored_lookup.
  - right. split_and!; try done.
    unfold storedOf, stored. fold old.
    rewrite (proj2 (js_get_Inherited _ _)); [done|].
    split; [|done]. apply eq_None_not_Some. by rewrite own_oldSecretsObj.
Qed.

Lemma stored_Own_toUpdate s o :
  s ∈ U → storedOf s = Own o →
  oldSecretsObj old !! PushSecret.hashKey s = Some o
  ∧ o ∈ old
  ∧ ISecret.secretKeyHash o = PushSecret.hashKey s
  ∧ o ∈ Secret db
  ∧ ISecret.workspace o = workspaceId.
Proof.
  intros Hs Ho.
  destruct (stored_toUpdate s Hs) as [(o' & Ho' & H)|[Hi _]].
  - rewrite Ho in Ho'. by injection Ho' as <-.
  - by rewrite Ho in Hi.
Qed.

Lemma matches_stored s r :
  s ∈ U → r ∈ Secret db →
  matchesFilter (mkOperation userId workspaceId (storedOf s) s) r
  ↔ storedOf s = Own r.
Proof.
  intros Hs Hr. unfold matchesFilter. simpl.
  destruct (stored_toUpdate s Hs)
    as [(o & Ho & _ & _ & _ & Hdb & Hw)|[Hi _]].
  - rewrite Ho. simpl. split.
    + intros [_ [= Hid]]. f_equal. symmetry.
      by apply (same_id_same_record db).
    + by intros [= ->].
  - rewrite Hi. simpl. split; [by intros [_ ?] | done].
Qed.

(** The updates that a stored secret receives are those of the entries
    aimed at it. *)
Lemma updatedBy_updatesOf r :
  r ∈ Secret db →
  h r = foldl (λ r s, applyUpdate (mkUpdate userId s) r) r
          (updatesOf userId workspaceId environment secrets db r).
Proof.
  intros Hr. unfold h, updatedBy, updatesOf. f_equal.
  apply filter_ext_in. intros s Hs. by apply matches_stored.
Qed.

Lemma elem_of_updatesOf r s :
  s ∈ updatesOf userId workspaceId environment secrets db r
  ↔ s ∈ U ∧ oldSecretsObj old !! PushSecret.hashKey s = Some r.
Proof.
  unfold updatesOf. rewrite list_elem_of_filter, stored_Own. tauto.
Qed.

Lemma updatesOf_key r s :
  s ∈ updatesOf userId workspaceId environment secrets db r →
  PushSecret.hashKey s = ISecret.secretKeyHash r ∧ r ∈ old ∧ s ∈ secrets.
Proof.
  intros [Hs Ho]%elem_of_updatesOf.
  apply oldSecretsObj_lookup_Some in Ho as [? ?].
  apply elem_of_toUpdate in Hs as [? _]. done.
Qed.

Lemma h_id r : ISecret._id (h r) = ISecret._id r.
Proof. apply foldl_applyUpdate_frame. Qed.

Lemma h_frame r :
  ISecret.workspace (h r) = ISecret.workspace r
  ∧ ISecret.environment (h r) = ISecret.environment r
  ∧ ISecret.type (h r) = ISecret.type r
  ∧ ISecret.secretKeyHash (h r) = ISecret.secretKeyHash r.
Proof.
  unfold h, updatedBy.
  match goal with
  | |- context [foldl ?g r ?l] =>
      destruct (foldl_applyUpdate_frame userId l r)
        as (_ & ? & ? & ? & _ & _ & _ & ? & _)
  end.
  done.
Qed.

Lemma Secret_final : Secret final = (h <$> Secret mid) ++ fresh.
Proof.
  unfold final. rewrite Secret_afterPush, Secret_afterUpdate_fmap; [done|].
  apply Hids.
Qed.

Lemma elem_of_mid r :
  r ∈ Secret mid ↔ r ∈ Secret db ∧ ISecret._id r ∉ toDelete old secrets.
Proof.
  unfold mid. rewrite Secret_afterDelete, list_elem_of_filter. tauto.
Qed.

Lemma fresh_ids :
  ISecret._id <$> fresh = seq (nextId db) (length (toAdd old secrets)).
Proof.
  unfold fresh. rewrite newSecrets_eq. fold old.
  rewrite fmap_imap.
  rewrite (imap_ext _ (λ idx _, nextId db + idx)) by done.
  rewrite imap_seq_0, length_fmap.
  change (λ idx : nat, nextId db + idx) with (Nat.add (nextId db)).
  by rewrite fmap_add_seq, Nat.add_0_r.
Qed.

Lemma elem_of_fresh n :
  n ∈ fresh →
  ∃ s, s ∈ toAdd old secrets
       ∧ nextId db ≤ ISecret._id n
       ∧ ISecret.version n = 1
       ∧ ISecret.workspace n = workspaceId
       ∧ ISecret.environment n = environment
       ∧ ISecret.type n = PushSecret.type s
       ∧ ISecret.secretKeyHash n = PushSecret.hashKey s
       ∧ ISecret.secretValueHash n = PushSecret.hashValue s
       ∧ ISecret.user n
         = (if decide (PushSecret.type s = SECRET_PERSONAL) then Some userId
            else None).
Proof.
  unfold fresh. rewrite newSecrets_eq. fold old.
  intros (i & o & -> & Ho)%elem_of_lookup_imap.
  apply list_lookup_fmap_Some in Ho as (s & -> & Hs).
  exists s. split_and!; try done.
  - by eapply list_elem_of_lookup_2.
  - simpl. lia.
Qed.

(** A stored secret of the scope is deleted exactly when its key hash is
    neither incoming nor a member of [Object.prototype]. *)
Lemma kept_iff r :
  r ∈ old →
  (r ∈ Secret mid
   ↔ ISecret.secretKeyHash r ∈ PushSecret.hashKey <$> secrets
     ∨ ISecret.secretKeyHash r ∈ Object_prototype).
Proof.
  intros Hr. rewrite elem_of_mid. fold old. split.
  - intros [_ Hn].
    destruct (decide (ISecret.secretKeyHash r
                      ∈ PushSecret.hashKey <$> secrets)) as [|Hk]; [by left|].
    destruct (decide (ISecret.secretKeyHash r ∈ Object_prototype))
      as [|Hp]; [by right|].
    exfalso. apply Hn. unfold toDelete. apply list_elem_of_fmap.
    exists r. split; [done|]. by apply elem_of_toDeleteSecrets.
  - intros Hk. split; [by eapply scope_subseteq|].
    unfold toDelete.
    intros (r' & Hid & (Hr' & Hn & Hp)%elem_of_toDeleteSecrets)
      %list_elem_of_fmap.
    assert (r = r') as <-.
    { apply (same_id_same_record db); try done; by eapply scope_subseteq. }
    tauto.
Qed.

Lemma toDelete_in_scope r :
  r ∈ Secret db → ISecret._id r ∈ toDelete old secrets →
  r ∈ toDeleteSecrets old secrets.
Proof.
  unfold toDelete.
  intros Hr (r' & Hid & Hr')%list_elem_of_fmap.
  pose proof Hr' as [Hold _]%elem_of_toDeleteSecrets.
  by rewrite (same_id_same_record db r r' Hids Hr
                (scope_subseteq _ _ _ _ _ Hold) Hid).
Qed.

End OnePush.

(** ** The version rows after a push *)

Lemma markDeleted_frame (ids : list nat) v :
  ISecretVersion.secret
    (if decide (ISecretVersion.secret v ∈ Some <$> ids) then markDeleted v
     else v)
  = ISecretVersion.secret v
  ∧ ISecretVersion.version
      (if decide (ISecretVersion.secret v ∈ Some <$> ids) then markDeleted v
       else v)
    = ISecretVersion.version v.
Proof. by destruct (decide (ISecretVersion.secret v ∈ Some <$> ids)). Qed.

Lemma elem_of_SecretVersion_afterPush
  userId workspaceId environment secrets db v :
  v ∈ SecretVersion (afterPush userId workspaceId environment secrets db) →
  (∃ v0, v0 ∈ SecretVersion db
         ∧ ISecretVersion.secret v = ISecretVersion.secret v0
         ∧ ISecretVersion.version v = ISecretVersion.version v0)
  ∨ (∃ s, s ∈ toUpdate (scope userId workspaceId environment db) secrets
          ∧ v = mkUpdatedVersion
                  (stored userId workspaceId environment db s) s)
  ∨ (∃ n, n ∈ newSecrets userId workspaceId environment secrets db
          ∧ v = mkFirstVersion n).
Proof.
  rewrite SecretVersion_afterPush, SecretVersion_afterUpdate,
    SecretVersion_afterDelete.
  rewrite !elem_of_app. intros [[Hv|Hv]|Hv].
  - left. apply list_elem_of_fmap in Hv as (v0 & -> & Hv0). exists v0.
    split; [done|]. apply markDeleted_frame.
  - right. left. unfold updatedVersions in Hv.
    apply list_elem_of_fmap in Hv as (s & -> & Hs). eauto.
  - right. right. apply list_elem_of_fmap in Hv as (n & -> & Hn). eauto.
Qed.

Lemma field_id_Some (m : Member ISecret.t) id :
  field ISecret._id m = Some id ↔ ∃ o, m = Own o ∧ ISecret._id o = id.
Proof.
  destruct m as [o|]; simpl.
  - split; [intros [= <-]; eauto | by intros (o' & [= <-] & <-)].
  - split; [done | by intros (? & ? & _)].
Qed.

Lemma ids_ok_afterPush userId workspaceId environment secrets db :
  ids_ok db →
  ids_ok (afterPush userId workspaceId environment secrets db).
Proof.
  intros Hids. pose proof Hids as (Hnd & Hlt & Hrows).
  unfold ids_ok. rewrite nextId_afterPush.
  rewrite (Secret_final _ _ _ _ _ Hids).
  set (old := scope userId workspaceId environment db).
  assert (Hmid : ∀ r, r ∈ Secret (afterDelete userId workspaceId environment
                                    secrets db) → r ∈ Secret db).
  { intros r Hr. by apply elem_of_mid in Hr as [? _]. }
  split_and!.
  - rewrite fmap_app, NoDup_app. split_and!.
    + rewrite <- list_fmap_compose.
      rewrite (list_fmap_ext _ ISecret._id)
        by (intros i r _; apply h_id).
      eapply sublist_NoDup; [exact Hnd|].
      rewrite Secret_afterDelete. apply fmap_sublist, sublist_filter.
    + intros id (r' & -> & (r & -> & Hr)%list_elem_of_fmap)%list_elem_of_fmap.
      rewrite fresh_ids, elem_of_seq, h_id.
      apply Hmid, Hlt in Hr. lia.
    + rewrite fresh_ids. apply NoDup_seq.
  - intros s [(r & -> & Hr)%list_elem_of_fmap|Hs]%elem_of_app.
    + rewrite h_id. apply Hmid, Hlt in Hr. fold old. lia.
    + assert (Hid : ISecret._id s ∈ ISecret._id
                      <$> newSecrets userId workspaceId environment secrets db).
      { apply list_elem_of_fmap. eauto. }
      rewrite fresh_ids, elem_of_seq in Hid. fold old in Hid. fold old. lia.
  - intros v id [(v0 & Hv0 & -> & _)|[(s & Hs & ->)|(n & Hn & ->)]]
      %elem_of_SecretVersion_afterPush Hid.
    + apply (Hrows _ _ Hv0) in Hid. lia.
    + simpl in Hid. apply field_id_Some in Hid as (o & Ho & <-).
      destruct (stored_Own_toUpdate userId workspaceId environment secrets db
                  s o Hs Ho) as (_ & _ & _ & Hdb & _).
      apply Hlt in Hdb. lia.
    + simpl in Hid. injection Hid as <-.
      assert (Hid : ISecret._id n ∈ ISecret._id
                      <$> newSecrets userId workspaceId environment secrets db).
      { apply list_elem_of_fmap. eauto. }
      rewrite fresh_ids, elem_of_seq in Hid. fold old in Hid. fold old.
      lia.
Qed.

Lemma ids_ok_emptyDb : ids_ok emptyDb.
Proof.
  unfold ids_ok, emptyDb. simpl. split_and!.
  - constructor.
  - by intros s ?%not_elem_of_nil.
  - by intros v id ?%not_elem_of_nil.
Qed.

Lemma reachable_ids_ok db : reachable db → ids_ok db.
Proof.
  induction 1 as [|f u w e B db db' _ IH _ Hp]; [apply ids_ok_emptyDb|].
  apply pushSecrets_success in Hp as ->. by apply ids_ok_afterPush.
Qed.

(** ** The version ledger *)

Lemma last_seq_1 (n : nat) : 1 ≤ n → last (seq 1 n) = Some n.
Proof.
  destruct n as [|n]; [lia|]. intros _.
  by rewrite seq_S, last_snoc.
Qed.

Lemma versionsOf_afterPush userId workspaceId environment secrets db id :
  versionsOf id (afterPush userId workspaceId environment secrets db)
  = versionsOf id db
    ++ ((λ s, (λ version, version + 1)
                <$> field ISecret.version
                      (stored userId workspaceId environment db s))
          <$> filter (λ s, field ISecret._id
                             (stored userId workspaceId environment db s)
                           = Some id)
                (toUpdate (scope userId workspaceId environment db) secrets))
    ++ ((λ _, Some 1)
          <$> filter (λ n, ISecret._id n = id)
                (newSecrets userId workspaceId environment secrets db)).
Proof.
  unfold versionsOf.
  rewrite SecretVersion_afterPush, SecretVersion_afterUpdate,
    SecretVersion_afterDelete.
  unfold updatedVersions.
  rewrite !filter_app, !fmap_app, !filter_fmap, <- !list_fmap_compose.
  rewrite <- app_assoc. f_equal; [|f_equal].
  - rewrite (filter_ext_in _ (λ v, ISecretVersion.secret v = Some id)).
    + apply list_fmap_ext. intros i v _. simpl. apply markDeleted_frame.
    + intros v _. by rewrite (proj1 (markDeleted_frame _ v)).
  - f_equal. apply filter_ext_in. intros n _. simpl.
    split; [by intros [= ->] | by intros ->].
Qed.

Section Ledger.
Context (userId workspaceId environment : string).
Context (secrets : list PushSecret.t) (db : Db).
Context (Hids : ids_ok db).

Let old := scope userId workspaceId environment db.
Let U := toUpdate old secrets.
Let storedOf := stored userId workspaceId environment db.
Let fresh := newSecrets userId workspaceId environment secrets db.
Let final := afterPush userId workspaceId environment secrets db.
Let h := updatedBy userId workspaceId environment secrets db.
Let targets := updatesOf userId workspaceId environment secrets db.

(** The entries of [toUpdate] whose operation carries the id [id]: none,
    or the entries aimed at the stored secret with this id. *)
Lemma updates_of_id id :
  filter (λ s, field ISecret._id (storedOf s) = Some id) U = []
  ∨ ∃ o, o ∈ Secret db ∧ ISecret._id o = id ∧ targets o ≠ []
         ∧ filter (λ s, field ISecret._id (storedOf s) = Some id) U
           = targets o.
Proof.
  destruct (filter (λ s, field ISecret._id (storedOf s) = Some id) U)
    as [|s l] eqn:Hf; [by left|right].
  assert (Hs : s ∈ filter (λ s, field ISecret._id (storedOf s) = Some id) U)
    by (rewrite Hf; left).
  apply list_elem_of_filter in Hs as [(o & Ho & Hid)%field_id_Some Hs].
  destruct (stored_Own_toUpdate userId workspaceId environment secrets db
              s o Hs Ho) as (_ & _ & _ & Hdb & _).
  assert (Heq : filter (λ s, field ISecret._id (storedOf s) = Some id) U
                = targets o).
  { unfold targets, updatesOf. fold old U storedOf.
    apply filter_ext_in. intros s' Hs'.
    rewrite field_id_Some. split.
    - intros (o' & Ho' & Hid'). rewrite Ho'. f_equal.
      destruct (stored_Own_toUpdate userId workspaceId environment secrets db
                  s' o' Hs' Ho') as (_ & _ & _ & Hdb' & _).
      apply (same_id_same_record db); try done. congruence.
    - intros Ho'. eauto. }
  exists o. split_and!; try done; by rewrite <- Heq, Hf.
Qed.

Lemma targets_of r :
  r ∈ Secret db →
  filter (λ s, field ISecret._id (storedOf s) = Some (ISecret._id r)) U
  = targets r.
Proof.
  intros Hr. destruct (updates_of_id (ISecret._id r))
    as [Hnil|(o & Ho & Hid & _ & Heq)].
  - rewrite Hnil. symmetry. unfold targets, updatesOf. apply filter_none.
    intros s Hs Hst.
    eapply filter_nil_not_elem_of; [exact Hnil| |exact Hs].
    simpl. fold storedOf in Hst. by rewrite Hst.
  - by rewrite Heq, (same_id_same_record db o r Hids Ho Hr Hid).
Qed.

Lemma distinct_targets_iff :
  distinct_targets userId workspaceId environment secrets db
  ↔ ∀ r, r ∈ Secret db → length (targets r) ≤ 1.
Proof.
  unfold distinct_targets, operations. rewrite NoDup_omap_filter.
  fold old U storedOf. split.
  - intros Hall r Hr. specialize (Hall (ISecret._id r)).
    rewrite filter_fmap, length_fmap in Hall. simpl in Hall.
    by rewrite (targets_of r Hr) in Hall.
  - intros Hall id. rewrite filter_fmap, length_fmap. simpl.
    destruct (updates_of_id id) as [->|(o & Ho & _ & _ & ->)];
      [simpl; lia | by apply Hall].
Qed.

Lemma fresh_id_range n : n ∈ fresh → nextId db ≤ ISecret._id n.
Proof.
  intros Hn. assert (Hid : ISecret._id n ∈ ISecret._id <$> fresh).
  { apply list_elem_of_fmap. eauto. }
  unfold fresh in Hid. rewrite fresh_ids, elem_of_seq in Hid. lia.
Qed.

Lemma inserts_of_id id :
  filter (λ n, ISecret._id n = id) fresh = []
  ∨ ∃ n, filter (λ n, ISecret._id n = id) fresh = [n]
         ∧ n ∈ fresh ∧ ISecret._id n = id.
Proof.
  destruct (filter (λ n, ISecret._id n = id) fresh) as [|n l] eqn:Hf;
    [by left|right].
  assert (Hn : n ∈ filter (λ n, ISecret._id n = id) fresh)
    by (rewrite Hf; left).
  apply list_elem_of_filter in Hn as [Hid Hn].
  exists n. split_and!; [|done|done].
  assert (Hnd : NoDup (ISecret._id <$> (n :: l))).
  { rewrite <- Hf. eapply sublist_NoDup.
    - eapply (NoDup_seq (nextId db)).
    - unfold fresh. rewrite <- fresh_ids. apply fmap_sublist, sublist_filter. }
  destruct l as [|n' l]; [done|]. exfalso.
  assert (Hn' : n' ∈ filter (λ n, ISecret._id n = id) fresh)
    by (rewrite Hf; right; left).
  apply list_elem_of_filter in Hn' as [Hid' _].
  rewrite !fmap_cons in Hnd. apply NoDup_cons in Hnd as [Hnotin _].
  apply Hnotin. rewrite Hid, <- Hid'. left.
Qed.

Lemma no_inserts r :
  r ∈ Secret db → filter (λ n, ISecret._id n = ISecret._id r) fresh = [].
Proof.
  intros Hr. apply filter_none. intros n Hn%fresh_id_range Heq.
  destruct Hids as (_ & Hlt & _). apply Hlt in Hr. lia.
Qed.

Lemma versionsOf_unallocated id : nextId db ≤ id → versionsOf id db = [].
Proof.
  intros Hge. unfold versionsOf. rewrite filter_none; [done|].
  intros v Hv Heq. destruct Hids as (_ & _ & Hrows).
  apply (Hrows _ _ Hv) in Heq. lia.
Qed.

(** The rows of a stored secret after the push: its rows before, then one
    row for every entry aimed at it, each carrying its old version plus
    one. *)
Lemma versionsOf_stored r :
  r ∈ Secret db →
  versionsOf (ISecret._id r) final
  = versionsOf (ISecret._id r) db
    ++ replicate (length (targets r)) (Some (ISecret.version r + 1)).
Proof.
  intros Hr. unfold final. rewrite versionsOf_afterPush.
  fold old U storedOf fresh.
  rewrite (no_inserts r Hr), (targets_of r Hr). simpl. rewrite app_nil_r.
  f_equal. apply fmap_const_replicate.
  intros s [Hs _]%list_elem_of_filter. fold storedOf in Hs. by rewrite Hs.
Qed.

Lemma versionsOf_inserted n :
  n ∈ fresh → versionsOf (ISecret._id n) final = [Some 1].
Proof.
  intros Hn. unfold final. rewrite versionsOf_afterPush.
  fold old U storedOf fresh.
  rewrite (versionsOf_unallocated _ (fresh_id_range n Hn)).
  destruct (updates_of_id (ISecret._id n)) as [->|(o & Ho & Hid & _)].
  - destruct (inserts_of_id (ISecret._id n)) as [Hnil|(n' & -> & _)]; [|done].
    exfalso. eapply filter_nil_not_elem_of; [exact Hnil| |exact Hn]. done.
  - exfalso. apply fresh_id_range in Hn. destruct Hids as (_ & Hlt & _).
    apply Hlt in Ho. lia.
Qed.

Lemma ledger_ok_afterPush :
  distinct_targets userId workspaceId environment secrets db →
  ledger_ok db → ledger_ok final.
Proof.
  intros Hdt0 [Hseq Hcur].
  pose proof (proj1 distinct_targets_iff Hdt0) as Hdt.
  assert (Hstored : ∀ r, r ∈ Secret db →
            versionsOf (ISecret._id r) final
            = Some <$> seq 1 (ISecret.version r + length (targets r))).
  { intros r Hr. rewrite (versionsOf_stored r Hr).
    destruct (Hcur r Hr) as (_ & -> & _).
    specialize (Hdt r Hr).
    destruct (targets r) as [|s [|s' l]]; simpl in *; [| |lia].
    - by rewrite app_nil_r, Nat.add_0_r.
    - by rewrite Nat.add_1_r, seq_S, fmap_app. }
  split.
  - intros id.
    destruct (decide (id ∈ ISecret._id <$> Secret db))
      as [(r & -> & Hr)%list_elem_of_fmap|Hnot].
    { rewrite (Hstored r Hr). by rewrite length_fmap, length_seq. }
    unfold final. rewrite versionsOf_afterPush. fold old U storedOf fresh.
    destruct (updates_of_id id) as [->|(o & Ho & <- & _)];
      [|exfalso; apply Hnot, list_elem_of_fmap; eauto].
    simpl.
    destruct (inserts_of_id id) as [->|(n & -> & Hn & <-)]; simpl.
    + rewrite app_nil_r. apply Hseq.
    + by rewrite (versionsOf_unallocated _ (fresh_id_range n Hn)).
  - intros r' Hr'.
    cut (1 ≤ ISecret.version r'
         ∧ versionsOf (ISecret._id r') final
           = Some <$> seq 1 (ISecret.version r')).
    { intros [H1 H2]. split_and!; [done|done|].
      rewrite H2, fmap_last. by rewrite last_seq_1. }
    unfold final in Hr'. rewrite (Secret_final _ _ _ _ _ Hids) in Hr'.
    fold h fresh in Hr'.
    apply elem_of_app in Hr' as [(r & -> & Hr)%list_elem_of_fmap|Hn].
    + apply elem_of_mid in Hr as [Hr _].
      unfold h.
      rewrite (updatedBy_updatesOf userId workspaceId environment secrets db
                 Hids r Hr).
      destruct (foldl_applyUpdate_frame userId
                  (updatesOf userId workspaceId environment secrets db r) r)
        as (-> & _ & _ & _ & _ & _ & _ & _ & ->).
      destruct (Hcur r Hr) as (Hpos & _). split; [lia|].
      by apply Hstored.
    + destruct (elem_of_fresh userId workspaceId environment secrets db r' Hn)
        as (s & _ & Hge & Hver & _).
      rewrite Hver. split; [lia|]. by apply versionsOf_inserted.
Qed.

(** Two entries aimed at one stored secret break the ledger: both rows
    carry the same version. *)
Lemma ledger_ok_distinct_targets :
  ledger_ok final →
  distinct_targets userId workspaceId environment secrets db.
Proof.
  intros [Hseq _]. apply distinct_targets_iff. intros r Hr.
  specialize (Hseq (ISecret._id r)).
  assert (Hnd : NoDup (versionsOf (ISecret._id r) final)).
  { rewrite Hseq. apply (NoDup_fmap_2 _), NoDup_seq. }
  rewrite (versionsOf_stored r Hr) in Hnd.
  apply NoDup_app in Hnd as (_ & _ & Hnd).
  by apply NoDup_replicate in Hnd.
Qed.

End Ledger.

Lemma ledger_ok_emptyDb : ledger_ok emptyDb.
Proof.
  split; [done|]. by intros s ?%not_elem_of_nil.
Qed.

Lemma reachable_ledger_ok db : reachable db → ledger_ok db.
Proof.
  induction 1 as [|f u w e B db db' Hr IH Hk Hp]; [apply ledger_ok_emptyDb|].
  apply pushSecrets_success in Hp as ->.
  apply ledger_ok_afterPush; [by apply reachable_ids_ok | done | done].
Qed.

(** ** A push, call by call *)

#[local] Opaque Secret_deleteMany SecretVersion_updateMany Secret_bulkWrite
  SecretVersion_insertMany Secret_insertMany.

Lemma pushSecrets_trace f userId workspaceId environment secrets db :
  f PullFindShared = None → f PullFindPersonal = None →
  pushSecrets f userId workspaceId environment secrets db
  = pushTrace f userId workspaceId environment secrets db.
Proof.
  intros Hs Hp. unfold pushSecrets.
  unfold try_catch at 1. unfold mbind at 1. unfold Async_bind at 1.
  cbv beta.
  destruct (pullSecrets_cases f userId workspaceId environment db)
    as [(_ & _ & Hpull)|[[[e He]|[e He]] _]]; [|congruence..].
  rewrite Hpull. cbv beta iota.
  set (old := scope userId workspaceId environment db).
  rewrite (mapStored_present _ _ _ (toUpdate_js_in old secrets)).
  rewrite (mapStored_present _ _ _ (toUpdate_js_in old secrets)).
  unfold pushTrace, pushUpdating, pushAdding, pushFinish.
  unfold operations, updatedVersions, stored. fold old.
  run_async.
  destruct (decide (0 < length (toDelete old secrets)));
    destruct (decide (0 < length (toAdd old secrets))); simpl;
    repeat match goal with
      | |- context [match f ?c with _ => _ end] => destruct (f c); simpl
      end;
    try reflexivity;
    match goal with
    | |- context [takeSecretSnapshotHelper f workspaceId ?d] =>
        by destruct (takeSecretSnapshotHelper f workspaceId d) as [? [?|[]]]
    end.
Qed.

#[local] Transparent Secret_deleteMany SecretVersion_updateMany
  Secret_bulkWrite SecretVersion_insertMany Secret_insertMany.

Lemma pushTrace_writes_ok f userId workspaceId environment secrets db :
  f PushDeleteMany = None → f PushMarkDeleted = None →
  f PushBulkWrite = None → f PushInsertUpdatedVersions = None →
  f PushInsertSecrets = None → f PushInsertNewVersions = None →
  pushTrace f userId workspaceId environment secrets db
  = match takeSecretSnapshotHelper f workspaceId
            (afterAdd userId workspaceId environment secrets db) with
    | (d', inl _) => (d', inl pushFailed)
    | r => r
    end.
Proof.
  intros H1 H2 H3 H4 H5 H6.
  pose proof (afterDelete_guard userId workspaceId environment secrets db)
    as Hdel.
  pose proof (afterAdd_guard userId workspaceId environment secrets db)
    as Hadd.
  cbv zeta in Hdel, Hadd. rewrite <- Hadd. unfold afterUpdate.
  rewrite <- Hdel. clear Hadd Hdel.
  unfold pushTrace, pushUpdating, pushAdding, pushFinish.
  rewrite H1, H2, H3, H4, H5, H6. cbv zeta.
  destruct (decide (0 < length
              (toDelete (scope userId workspaceId environment db) secrets)));
    destruct (decide (0 < length
                (toAdd (scope userId workspaceId environment db) secrets)));
    reflexivity.
Qed.

(** ** Where a push can stop *)

Ltac in_stages := rewrite ?elem_of_cons; auto 10.

Lemma pushFinish_stages f workspaceId d :
  fst (pushFinish f workspaceId d) = d
  ∨ fst (pushFinish f workspaceId d) = afterSnapshot workspaceId d.
Proof.
  unfold pushFinish.
  destruct (takeSecretSnapshotHelper_cases f workspaceId d)
    as [(_ & _ & _ & ->)|[_ ->]]; simpl; auto.
Qed.

Lemma pushAdding_stages f userId workspaceId environment secrets db :
  fst (pushAdding f userId workspaceId environment secrets db
         (afterUpdate userId workspaceId environment secrets db))
  ∈ pushStages userId workspaceId environment secrets db.
Proof.
  pose proof (afterAdd_guard userId workspaceId environment secrets db)
    as Hadd.
  cbv zeta in Hadd. unfold pushAdding, pushStages. cbv zeta.
  destruct (decide (0 < length
              (toAdd (scope userId workspaceId environment db) secrets))).
  - destruct (f PushInsertSecrets); [simpl; in_stages|].
    destruct (f PushInsertNewVersions); [simpl; in_stages|].
    rewrite Hadd.
    destruct (pushFinish_stages f workspaceId
                (afterAdd userId workspaceId environment secrets db))
      as [-> | ->]; [in_stages|].
    fold (afterPush userId workspaceId environment secrets db). in_stages.
  - destruct (pushFinish_stages f workspaceId
                (afterUpdate userId workspaceId environment secrets db))
      as [-> | ->]; [in_stages|].
    rewrite Hadd at 1.
    fold (afterPush userId workspaceId environment secrets db). in_stages.
Qed.

Lemma pushUpdating_stages f userId workspaceId environment secrets db :
  fst (pushUpdating f userId workspaceId environment secrets db
         (afterDelete userId workspaceId environment secrets db))
  ∈ pushStages userId workspaceId environment secrets db.
Proof.
  unfold pushUpdating. cbv zeta.
  destruct (f PushBulkWrite); [unfold pushStages; simpl; in_stages|].
  destruct (f PushInsertUpdatedVersions);
    [unfold pushStages; simpl; in_stages|].
  apply pushAdding_stages.
Qed.

Lemma pushTrace_stages f userId workspaceId environment secrets db :
  fst (pushTrace f userId workspaceId environment secrets db)
  ∈ pushStages userId workspaceId environment secrets db.
Proof.
  pose proof (afterDelete_guard userId workspaceId environment secrets db)
    as Hdel.
  cbv zeta in Hdel. unfold pushTrace. cbv zeta.
  destruct (decide (0 < length
              (toDelete (scope userId workspaceId environment db) secrets))).
  - destruct (f PushDeleteMany); [unfold pushStages; simpl; in_stages|].
    destruct (f PushMarkDeleted); [unfold pushStages; simpl; in_stages|].
    apply pushUpdating_stages.
  - assert (Heq :
      pushUpdating f userId workspaceId environment secrets db db
      = pushUpdating f userId workspaceId environment secrets db
          (afterDelete userId workspaceId environment secrets db))
      by (f_equal; exact Hdel).
    rewrite Heq. apply pushUpdating_stages.
Qed.

Lemma pushSecrets_stages f userId workspaceId environment secrets db :
  fst (pushSecrets f userId workspaceId environment secrets db)
  ∈ pushStages userId workspaceId environment secrets db.
Proof.
  destruct (pullSecrets_cases f userId workspaceId environment db)
    as [(H1 & H2 & _)|[_ Hpull]].
  - rewrite pushSecrets_trace by done. apply pushTrace_stages.
  - unfold pushSecrets.
    unfold try_catch at 1. unfold mbind at 1. unfold Async_bind at 1.
    cbv beta. rewrite Hpull. simpl. unfold pushStages. in_stages.
Qed.

Lemma pushStages_Secret userId workspaceId environment secrets db d :
  d ∈ pushStages userId workspaceId environment secrets db →
  Secret d = Secret db
  ∨ Secret d = Secret (afterDelete userId workspaceId environment secrets db)
  ∨ Secret d = Secret (afterUpdate userId workspaceId environment secrets db)
  ∨ Secret d = Secret (afterPush userId workspaceId environment secrets db).
Proof.
  unfold pushStages. cbv zeta. rewrite !elem_of_cons, elem_of_nil.
  intros [->|[->|[->|[->|[->|[->|[->|[->|[]]]]]]]]]; auto.
Qed.

(** ** What lies outside the caller's scope *)

Lemma inScope_applyUpdate userId workspaceId environment s r :
  inScope userId workspaceId environment r →
  inScope userId workspaceId environment (applyUpdate (mkUpdate userId s) r).
Proof.
  intros [(Hw & He & Ht & Hu)|Hsh]; [left|by right].
  split_and!; try done. simpl.
  by destruct (decide (PushSecret.type s = SECRET_PERSONAL)).
Qed.

Lemma inScope_foldl_applyUpdate userId workspaceId environment l r :
  inScope userId workspaceId environment r →
  inScope userId workspaceId environment
    (foldl (λ r s, applyUpdate (mkUpdate userId s) r) r l).
Proof.
  revert r. induction l as [|s l IH]; intros r Hr; [done|].
  simpl. by apply IH, inScope_applyUpdate.
Qed.

Lemma filter_app_disjoint {A : Type} (P Q : A → Prop) `{∀ x, Decision (P x)}
  `{∀ x, Decision (Q x)} (l : list A) :
  (∀ x, P x → Q x → False) →
  filter P l ++ filter Q l ≡ₚ filter (λ x, P x ∨ Q x) l.
Proof.
  intros Hdisj. induction l as [|a l IH]; [done|].
  rewrite !filter_cons.
  destruct (decide (P a)) as [Ha|Ha], (decide (Q a)) as [Hb|Hb].
  - exfalso. eauto.
  - rewrite decide_True by tauto. simpl. by constructor.
  - rewrite decide_True by tauto. rewrite <- Permutation_middle.
    by constructor.
  - rewrite decide_False by tauto. done.
Qed.

Lemma scope_Permutation userId workspaceId environment db :
  scope userId workspaceId environment db
  ≡ₚ filter (inScope userId workspaceId environment) (Secret db).
Proof.
  unfold scope, Secret_find_personal, Secret_find_shared.
  apply (filter_app_disjoint _ _ (Secret db)).
  intros x (_ & _ & Hp & _) (_ & _ & Hs). congruence.
Qed.


Lemma elem_of_scope_inScope userId workspaceId environment db r :
  r ∈ scope userId workspaceId environment db
  ↔ r ∈ Secret db ∧ inScope userId workspaceId environment r.
Proof. rewrite scope_Permutation, list_elem_of_filter. tauto. Qed.

Lemma fresh_keys userId workspaceId environment secrets db :
  ISecret.secretKeyHash
    <$> newSecrets userId workspaceId environment secrets db
  = PushSecret.hashKey
      <$> toAdd (scope userId workspaceId environment db) secrets.
Proof.
  rewrite newSecrets_eq, fmap_imap, imap_fmap.
  rewrite (imap_ext _ (λ _, PushSecret.hashKey)) by done.
  apply imap_const.
Qed.

Lemma fresh_inScope userId workspaceId environment secrets db n :
  n ∈ newSecrets userId workspaceId environment secrets db →
  inScope userId workspaceId environment n.
Proof.
  intros (s & _ & _ & _ & Hw & He & Ht & _ & _ & Hu)%elem_of_fresh.
  unfold inScope. rewrite Hw, He, Ht, Hu.
  destruct (PushSecret.type s); [right|left]; by split_and!.
Qed.

Section Outside.
Context (userId workspaceId environment : string).
Context (secrets : list PushSecret.t) (db : Db).
Context (Hids : ids_ok db).

Let old := scope userId workspaceId environment db.
Let mid := afterDelete userId workspaceId environment secrets db.
Let upd := afterUpdate userId workspaceId environment secrets db.
Let final := afterPush userId workspaceId environment secrets db.
Let fresh := newSecrets userId workspaceId environment secrets db.
Let h := updatedBy userId workspaceId environment secrets db.
Let P := inScope userId workspaceId environment.

Lemma updatedBy_inside r : P r → P (h r).
Proof. apply inScope_foldl_applyUpdate. Qed.

Lemma updatedBy_outside r : r ∈ Secret db → ¬ P r → h r = r.
Proof.
  intros Hr Hn. unfold h, updatedBy. rewrite filter_none; [done|].
  intros s Hs Hm.
  apply (matches_stored userId workspaceId environment secrets db Hids)
    in Hm; [|done|done].
  destruct (stored_Own_toUpdate userId workspaceId environment secrets db s r
              Hs Hm) as (_ & Hold & _).
  by apply elem_of_scope_inScope in Hold as [_ ?].
Qed.

Lemma updatedBy_inScope_iff r : r ∈ Secret db → P (h r) ↔ P r.
Proof.
  intros Hr. split; [|apply updatedBy_inside].
  intros Hp. destruct (decide (P r)) as [|Hn]; [done|].
  by rewrite (updatedBy_outside r Hr Hn) in Hp.
Qed.

(** The owner of a personal secret is never changed by a push. *)
Lemma updatedBy_user r :
  r ∈ Secret db → ISecret.type r = SECRET_PERSONAL →
  ISecret.user (h r) = ISecret.user r.
Proof.
  intros Hr Ht. destruct (decide (P r)) as [Hp|Hn];
    [|by rewrite (updatedBy_outside r Hr Hn)].
  destruct Hp as [(_ & _ & _ & Hu)|(_ & _ & Hsh)]; [|congruence].
  unfold h, updatedBy. rewrite foldl_applyUpdate_user, Hu.
  by destruct (decide _).
Qed.

Lemma toDelete_inside r :
  r ∈ Secret db → ISecret._id r ∈ toDelete old secrets → P r.
Proof.
  intros Hr Hd.
  pose proof (toDelete_in_scope userId workspaceId environment secrets db
                Hids r Hr Hd) as [Hold _]%elem_of_toDeleteSecrets.
  by apply elem_of_scope_inScope in Hold as [_ ?].
Qed.

Lemma mid_subseteq r : r ∈ Secret mid → r ∈ Secret db.
Proof.
  intros Hr.
  by apply (elem_of_mid userId workspaceId environment secrets db) in Hr
    as [? _].
Qed.

Lemma outside_afterDelete :
  filter (λ r, ¬ P r) (Secret mid) = filter (λ r, ¬ P r) (Secret db).
Proof.
  unfold mid. rewrite Secret_afterDelete, list_filter_filter.
  apply filter_ext_in. intros r Hr. split; [tauto|].
  intros Hn. split; [done|]. intros Hd. by apply Hn, toDelete_inside.
Qed.

Lemma outside_afterUpdate :
  filter (λ r, ¬ P r) (Secret upd) = filter (λ r, ¬ P r) (Secret db).
Proof.
  unfold upd. rewrite Secret_afterUpdate_fmap by apply Hids.
  fold h mid. rewrite filter_fmap.
  rewrite (filter_ext_in (λ r, ¬ P (h r)) (λ r, ¬ P r)).
  - rewrite fmap_id_on; [apply outside_afterDelete|].
    intros r [Hn Hr]%list_elem_of_filter.
    by apply updatedBy_outside; [apply mid_subseteq|].
  - intros r Hr. by rewrite updatedBy_inScope_iff by by apply mid_subseteq.
Qed.

Lemma outside_afterPush :
  filter (λ r, ¬ P r) (Secret final) = filter (λ r, ¬ P r) (Secret db).
Proof.
  unfold final. rewrite Secret_afterPush, filter_app. fold upd fresh.
  rewrite outside_afterUpdate, (filter_none _ fresh), app_nil_r; [done|].
  intros n Hn Hp. by apply Hp, (fresh_inScope _ _ _ secrets db).
Qed.

Lemma outside_versions r :
  r ∈ Secret db → ¬ P r →
  filter (λ v, ISecretVersion.secret v = Some (ISecret._id r))
    (SecretVersion final)
  = filter (λ v, ISecretVersion.secret v = Some (ISecret._id r))
      (SecretVersion db).
Proof.
  intros Hr Hn. unfold final.
  rewrite SecretVersion_afterPush, SecretVersion_afterUpdate,
    SecretVersion_afterDelete.
  fold old fresh. rewrite !filter_app.
  rewrite (filter_none _ (updatedVersions _ _ _ _ _)).
  - rewrite (filter_none _ (mkFirstVersion <$> fresh)).
    + rewrite !app_nil_r, filter_fmap.
      rewrite (filter_ext_in _
                 (λ v, ISecretVersion.secret v = Some (ISecret._id r))).
      * apply fmap_id_on. intros v [Hv _]%list_elem_of_filter.
        rewrite decide_False; [done|].
        rewrite Hv. intros (id & [= <-] & Hd)%list_elem_of_fmap.
        by apply Hn, toDelete_inside.
      * intros v _.
        by destruct (markDeleted_frame (toDelete old secrets) v) as [-> _].
    + intros v (n & -> & Hf)%list_elem_of_fmap Hv. simpl in Hv.
      injection Hv as Hv.
      destruct (elem_of_fresh userId workspaceId environment secrets db n Hf)
        as (_ & _ & Hge & _).
      destruct Hids as (_ & Hlt & _). apply Hlt in Hr. lia.
  - unfold updatedVersions.
    intros v (s & -> & Hs)%list_elem_of_fmap Hv. simpl in Hv.
    apply field_id_Some in Hv as (o & Ho & Hid).
    destruct (stored_Own_toUpdate userId workspaceId environment secrets db
                s o Hs Ho) as (_ & Hold & _ & Hdb & _).
    apply Hn.
    rewrite <- (same_id_same_record db _ r Hids Hdb Hr Hid).
    by apply elem_of_scope_inScope in Hold as [_ ?].
Qed.

End Outside.

(** ** Key hashes of a set of stored secrets across a push *)


Section Keys.
Context (userId workspaceId environment : string).
Context (secrets : list PushSecret.t) (db : Db).
Context (Hids : ids_ok db).

Let old := scope userId workspaceId environment db.
Let final := afterPush userId workspaceId environment secrets db.
Let fresh := newSecrets userId workspaceId environment secrets db.
Let mid := afterDelete userId workspaceId environment secrets db.
Let upd := afterUpdate userId workspaceId environment secrets db.
Let h := updatedBy userId workspaceId environment secrets db.
Let P := inScope userId workspaceId environment.






End Keys.

(** ** The caller's scope after a push *)

Section Sync.
Context (userId workspaceId environment : string).
Context (secrets : list PushSecret.t) (db : Db).
Context (Hids : ids_ok db).

Let old := scope userId workspaceId environment db.
Let U := toUpdate old secrets.
Let mid := afterDelete userId workspaceId environment secrets db.
Let final := afterPush userId workspaceId environment secrets db.
Let fresh := newSecrets userId workspaceId environment secrets db.
Let h := updatedBy userId workspaceId environment secrets db.
Let P := inScope userId workspaceId environment.
Let old1 := scope userId workspaceId environment final.

Lemma elem_of_scope_afterPush r1 :
  r1 ∈ old1 ↔
  (∃ r, r1 = h r ∧ r ∈ old
        ∧ (ISecret.secretKeyHash r ∈ PushSecret.hashKey <$> secrets
           ∨ ISecret.secretKeyHash r ∈ Object_prototype))
  ∨ r1 ∈ fresh.
Proof.
  unfold old1. rewrite elem_of_scope_inScope. unfold final.
  rewrite (Secret_final _ _ _ _ _ Hids), elem_of_app. fold h mid fresh P.
  split.
  - intros [[(r & -> & Hr)%list_elem_of_fmap|Hf] Hp]; [left|by right].
    assert (Hdb : r ∈ Secret db)
      by by eapply (mid_subseteq userId workspaceId environment secrets db).
    assert (Hold : r ∈ old).
    { apply elem_of_scope_inScope. split; [done|].
      by apply (updatedBy_inScope_iff userId workspaceId environment secrets
                  db Hids). }
    exists r. split_and!; [done|done|].
    by apply (kept_iff userId workspaceId environment secrets db Hids).
  - intros [(r & -> & Hr & Hk)|Hf].
    + pose proof Hr as [Hdb Hp]%elem_of_scope_inScope.
      split; [|by apply updatedBy_inside].
      left. apply list_elem_of_fmap. exists r. split; [done|].
      by apply (kept_iff userId workspaceId environment secrets db Hids).
    + split; [by right|]. by eapply fresh_inScope.
Qed.

Lemma h_key r : ISecret.secretKeyHash (h r) = ISecret.secretKeyHash r.
Proof. apply h_frame. Qed.

Lemma fresh_key_toAdd n :
  n ∈ fresh →
  ∃ s, s ∈ toAdd old secrets ∧ s ∈ secrets
       ∧ ISecret.secretKeyHash n = PushSecret.hashKey s
       ∧ ISecret.secretValueHash n = PushSecret.hashValue s
       ∧ ISecret.type n = PushSecret.type s
       ∧ (PushSecret.hashKey s ∉ ISecret.secretKeyHash <$> old)
       ∧ (PushSecret.hashKey s ∉ Object_prototype).
Proof.
  intros (s & Hs & _ & _ & _ & _ & Ht & Hk & Hv & _)%elem_of_fresh.
  pose proof Hs as (Hin & Hno & Hnp)%elem_of_toAdd.
  exists s. by split_and!.
Qed.

Lemma toAdd_fresh s :
  s ∈ toAdd old secrets →
  ∃ n, n ∈ fresh ∧ ISecret.secretKeyHash n = PushSecret.hashKey s.
Proof.
  intros Hs.
  assert (Hk : PushSecret.hashKey s ∈ ISecret.secretKeyHash <$> fresh).
  { unfold fresh. rewrite fresh_keys. apply list_elem_of_fmap. eauto. }
  apply list_elem_of_fmap in Hk as (n & Hk & Hf). eauto.
Qed.

(** A key hash that names a member of [Object.prototype] is stored after
    the push exactly when it was stored before; every other key hash is
    stored after the push exactly when it is incoming. *)
Lemma keys_of_scope_afterPush k :
  k ∈ ISecret.secretKeyHash <$> old1
  ↔ if decide (k ∈ Object_prototype)
    then k ∈ ISecret.secretKeyHash <$> old
    else k ∈ PushSecret.hashKey <$> secrets.
Proof.
  split.
  - intros (r1 & -> & Hr1)%list_elem_of_fmap.
    apply elem_of_scope_afterPush in Hr1 as [(r & -> & Hr & Hk)|Hf].
    + rewrite h_key.
      destruct (decide (ISecret.secretKeyHash r ∈ Object_prototype));
        [apply list_elem_of_fmap; eauto | by destruct Hk].
    + destruct (fresh_key_toAdd r1 Hf)
        as (s & _ & Hs & -> & _ & _ & _ & Hnp).
      rewrite decide_False by done. apply list_elem_of_fmap. eauto.
  - destruct (decide (k ∈ Object_prototype)) as [Hp|Hnp].
    + intros (o & -> & Ho)%list_elem_of_fmap.
      apply list_elem_of_fmap. exists (h o). split; [by rewrite h_key|].
      apply elem_of_scope_afterPush. left. exists o. by split_and!; [| |right].
    + intros (s & -> & Hs)%list_elem_of_fmap.
      destruct (decide (PushSecret.hashKey s ∈ ISecret.secretKeyHash <$> old))
        as [(o & Hk & Ho)%list_elem_of_fmap|Hnew].
      * apply list_elem_of_fmap. exists (h o). split; [by rewrite h_key|].
        apply elem_of_scope_afterPush. left. exists o.
        split_and!; [done|done|]. left. rewrite <- Hk.
        apply list_elem_of_fmap. eauto.
      * destruct (toAdd_fresh s) as (n & Hn & Hk);
          [by apply elem_of_toAdd|].
        apply list_elem_of_fmap. exists n. split; [done|].
        apply elem_of_scope_afterPush. by right.
Qed.

(** The secrets of the new scope under a key hash that was stored and is
    not deleted: the old ones, updated, in their order. *)
Lemma keyed_filter_final (Q : ISecret.t → Prop) `{∀ r, Decision (Q r)} k :
  (∀ r, r ∈ Secret db → Q (h r) ↔ Q r) →
  (∀ r, r ∈ Secret db → Q r → r ∈ old) →
  k ∈ PushSecret.hashKey <$> secrets ∨ k ∈ Object_prototype →
  k ∈ ISecret.secretKeyHash <$> old →
  filter (λ r, ISecret.secretKeyHash r = k) (filter Q (Secret final))
  = h <$> filter (λ r, ISecret.secretKeyHash r = k) (filter Q (Secret db)).
Proof.
  intros Hstable Hscope HkB Hkold.
  unfold final. rewrite (Secret_final _ _ _ _ _ Hids). fold h mid fresh.
  rewrite !filter_app.
  rewrite (filter_none _ (filter Q fresh)), app_nil_r.
  - rewrite !list_filter_filter, filter_fmap. f_equal.
    unfold mid. rewrite Secret_afterDelete, list_filter_filter.
    apply filter_ext_in. intros r Hr. rewrite h_key.
    rewrite (Hstable r Hr). split; [tauto|].
    intros [Hk Hq]. split; [done|].
    assert (Hkept : r ∈ Secret mid).
    { apply (kept_iff userId workspaceId environment secrets db Hids);
        [by apply Hscope|]. by rewrite Hk. }
    by apply (elem_of_mid userId workspaceId environment secrets db)
      in Hkept as [_ ?].
  - intros n [_ Hn]%list_elem_of_filter Hk.
    destruct (fresh_key_toAdd n Hn) as (s & _ & _ & Hkn & _ & _ & Hnot & _).
    apply Hnot. by rewrite <- Hkn, Hk.
Qed.

Lemma keyed_old1 k :
  k ∈ PushSecret.hashKey <$> secrets ∨ k ∈ Object_prototype →
  k ∈ ISecret.secretKeyHash <$> old →
  filter (λ r, ISecret.secretKeyHash r = k) old1
  = h <$> filter (λ r, ISecret.secretKeyHash r = k) old.
Proof.
  intros HkB Hkold.
  unfold old1, old, scope, Secret_find_personal, Secret_find_shared.
  rewrite !filter_app, fmap_app. fold final. f_equal.
  - apply keyed_filter_final; try done.
    + intros r Hr.
      destruct (h_frame userId workspaceId environment secrets db r)
        as (Hw & He & Ht & _). fold h in Hw, He, Ht. rewrite Hw, He, Ht.
      pose proof (updatedBy_user userId workspaceId environment secrets db
                    Hids r Hr) as Hu'. fold h in Hu'.
      split; intros (? & ? & Hp & Hu); split_and!; try done.
      * by rewrite <- Hu'.
      * by rewrite Hu'.
    + intros r Hr Hq. apply elem_of_app. left.
      apply list_elem_of_filter. by split.
  - apply keyed_filter_final; try done.
    + intros r Hr.
      destruct (h_frame userId workspaceId environment secrets db r)
        as (Hw & He & Ht & _). fold h in Hw, He, Ht. by rewrite Hw, He, Ht.
    + intros r Hr Hq. apply elem_of_app. right.
      apply list_elem_of_filter. by split.
Qed.

(** The new index at a key hash that was stored and is not deleted holds
    the updated record of the old index. *)
Lemma index_after_push k o :
  k ∈ PushSecret.hashKey <$> secrets ∨ k ∈ Object_prototype →
  oldSecretsObj old !! k = Some o →
  oldSecretsObj old1 !! k = Some (h o).
Proof.
  intros HkB Ho. unfold oldSecretsObj in *.
  rewrite indexBy_lookup_last in *.
  rewrite keyed_old1, fmap_last, Ho; [done|done|].
  apply own_oldSecretsObj. unfold oldSecretsObj.
  rewrite indexBy_lookup_last, Ho. eauto.
Qed.

(** The new index at a key hash that was not stored holds an inserted
    record. *)
Lemma index_after_push_new k o1 :
  (k ∉ ISecret.secretKeyHash <$> old) →
  oldSecretsObj old1 !! k = Some o1 →
  o1 ∈ fresh.
Proof.
  intros Hnew [Ho1 Hk]%oldSecretsObj_lookup_Some.
  apply elem_of_scope_afterPush in Ho1 as [(r & -> & Hr & _)|Hf]; [|done].
  exfalso. apply Hnew. rewrite <- Hk, h_key.
  apply list_elem_of_fmap. eauto.
Qed.

(** The value and the type that the updated record of the old index
    carries: those of the stored record when no entry is aimed at it, and
    otherwise the value of the last such entry. *)
Lemma updated_value o :
  o ∈ Secret db →
  ISecret.type (h o) = ISecret.type o
  ∧ match last (updatesOf userId workspaceId environment secrets db o) with
    | Some s => ISecret.secretValueHash (h o) = PushSecret.hashValue s
    | None => h o = o
    end.
Proof.
  intros Ho. split; [apply h_frame|]. unfold h.
  rewrite (updatedBy_updatesOf userId workspaceId environment secrets db Hids
             o Ho).
  destruct (last (updatesOf userId workspaceId environment secrets db o))
    as [s|] eqn:Hlast.
  - by apply foldl_applyUpdate_last.
  - apply last_None in Hlast. by rewrite Hlast.
Qed.

(** What the pull after the push finds under the key hash of a pushed
    entry, when this key hash is stored after the push. *)
Lemma pulled_after_push s :
  s ∈ secrets →
  (PushSecret.hashKey s ∈ Object_prototype →
   PushSecret.hashKey s ∈ ISecret.secretKeyHash <$> old) →
  ∃ o1 s', oldSecretsObj old1 !! PushSecret.hashKey s = Some o1
           ∧ o1 ∈ old1
           ∧ ISecret.secretKeyHash o1 = PushSecret.hashKey s
           ∧ s' ∈ secrets
           ∧ PushSecret.hashKey s' = PushSecret.hashKey s
           ∧ ISecret.secretValueHash o1 = PushSecret.hashValue s'.
Proof.
  intros Hs Hproto.
  assert (HkB : PushSecret.hashKey s ∈ PushSecret.hashKey <$> secrets)
    by (apply list_elem_of_fmap; eauto).
  destruct (decide (PushSecret.hashKey s ∈ ISecret.secretKeyHash <$> old))
    as [[o Ho]%own_oldSecretsObj|Hnew].
  - pose proof (index_after_push _ o (or_introl HkB) Ho) as Ho1.
    pose proof Ho as [Hold Hk]%oldSecretsObj_lookup_Some.
    pose proof Ho1 as [Hold1 Hk1]%oldSecretsObj_lookup_Some.
    destruct (updated_value o (scope_subseteq _ _ _ _ _ Hold))
      as [_ Hval].
    destruct (last (updatesOf userId workspaceId environment secrets db o))
      as [s'|] eqn:Hlast.
    + apply last_Some_elem_of in Hlast.
      destruct (updatesOf_key userId workspaceId environment secrets db o s'
                  Hlast) as (Hk' & _ & Hs').
      exists (h o), s'. split_and!; try done. congruence.
    + exists (h o), s. split_and!; try done. rewrite Hval.
      destruct (decide (PushSecret.hashValue s = ISecret.secretValueHash o))
        as [|Hdiff]; [done|].
      exfalso. apply last_None in Hlast.
      assert (Hin : s ∈ updatesOf userId workspaceId environment secrets db o).
      { apply (elem_of_updatesOf userId workspaceId environment secrets db).
        split; [|done]. apply elem_of_toUpdate. split; [done|].
        left. exists o. split; [done|]. by left. }
      rewrite Hlast in Hin. by apply not_elem_of_nil in Hin.
  - assert (Hnp : PushSecret.hashKey s ∉ Object_prototype) by tauto.
    assert (Hk1 : PushSecret.hashKey s ∈ ISecret.secretKeyHash <$> old1).
    { apply keys_of_scope_afterPush. by rewrite decide_False. }
    apply own_oldSecretsObj in Hk1 as [o1 Ho1].
    pose proof Ho1 as [Hold1 Hk1]%oldSecretsObj_lookup_Some.
    destruct (fresh_key_toAdd o1 (index_after_push_new _ _ Hnew Ho1))
      as (s' & _ & Hs' & Hk' & Hv' & _).
    exists o1, s'. split_and!; try done. congruence.
Qed.

End Sync.

(** ** Pushing the same batch again *)

Section Again.
Context (userId workspaceId environment : string).
Context (secrets : list PushSecret.t) (db : Db).
Context (Hids : ids_ok db).

Let old := scope userId workspaceId environment db.
Let db1 := afterPush userId workspaceId environment secrets db.
Let fresh := newSecrets userId workspaceId environment secrets db.
Let h := updatedBy userId workspaceId environment secrets db.
Let old1 := scope userId workspaceId environment db1.

Lemma second_toDelete_nil : toDelete old1 secrets = [].
Proof.
  unfold toDelete, toDeleteSecrets. rewrite (filter_none _ old1); [done|].
  intros r1 Hr1 Hn. apply Hn, js_in_newSecretsObj.
  assert (Hk : ISecret.secretKeyHash r1 ∈ ISecret.secretKeyHash <$> old1)
    by (apply list_elem_of_fmap; eauto).
  apply (keys_of_scope_afterPush userId workspaceId environment secrets db
           Hids) in Hk.
  destruct (decide (ISecret.secretKeyHash r1 ∈ Object_prototype)); auto.
Qed.

Lemma second_toAdd_nil : toAdd old1 secrets = [].
Proof.
  unfold toAdd. apply filter_none. intros s Hs Hn. apply Hn.
  apply js_in_oldSecretsObj. fold old1.
  destruct (decide (PushSecret.hashKey s ∈ Object_prototype)) as [|Hnp];
    [by right|left].
  apply (keys_of_scope_afterPush userId workspaceId environment secrets db
           Hids).
  rewrite decide_False by done. apply list_elem_of_fmap. eauto.
Qed.

(** When the second push has nothing to update, the new index holds, under
    the key hash of every entry, a record with the value hash and the type
    of the entry. *)
Lemma second_index_agrees s :
  toUpdate old1 secrets = [] → s ∈ secrets →
  ∃ o1, oldSecretsObj old1 !! PushSecret.hashKey s = Some o1
        ∧ PushSecret.hashValue s = ISecret.secretValueHash o1
        ∧ PushSecret.type s = ISecret.type o1.
Proof.
  intros Hnil Hs.
  assert (Hnot : ¬ valueOrTypeChanged (oldSecretsObj old1) s).
  { intros Hc.
    assert (Hin : s ∈ toUpdate old1 secrets)
      by (unfold toUpdate; apply list_elem_of_filter; by split).
    rewrite Hnil in Hin. by apply not_elem_of_nil in Hin. }
  rewrite valueOrTypeChanged_spec in Hnot.
  destruct (oldSecretsObj old1 !! PushSecret.hashKey s) as [o1|] eqn:Ho1.
  - exists o1. split; [done|].
    destruct (decide (PushSecret.hashValue s = ISecret.secretValueHash o1))
      as [|Hv]; [|exfalso; apply Hnot; left; eauto].
    destruct (decide (PushSecret.type s = ISecret.type o1))
      as [|Ht]; [done|exfalso; apply Hnot; left; eauto].
  - exfalso.
    destruct (decide (PushSecret.hashKey s ∈ Object_prototype)) as [|Hnp];
      [apply Hnot; by right|].
    assert (Hk : PushSecret.hashKey s ∈ ISecret.secretKeyHash <$> old1).
    { apply (keys_of_scope_afterPush userId workspaceId environment secrets
               db Hids).
      rewrite decide_False by done. apply list_elem_of_fmap. eauto. }
    apply own_oldSecretsObj in Hk as [o1 Hk]. congruence.
Qed.

(** The second push has nothing to update exactly when the entries of the
    batch that share a key hash agree in value hash and type, no entry
    differs in type from the stored record of its key hash, and every
    incoming key hash that names a member of [Object.prototype] was
    stored. *)
Lemma second_toUpdate_nil_iff :
  toUpdate old1 secrets = []
  ↔ consistent secrets
    ∧ types_agree userId workspaceId environment secrets db
    ∧ inherited_keys_stored userId workspaceId environment secrets db.
Proof.
  split.
  - intros Hnil. split_and!.
    + intros s s' Hs Hs' Hk.
      destruct (second_index_agrees s Hnil Hs) as (o1 & Ho1 & Hv & Ht).
      destruct (second_index_agrees s' Hnil Hs') as (o1' & Ho1' & Hv' & Ht').
      rewrite Hk, Ho1' in Ho1. injection Ho1 as <-.
      split; congruence.
    + intros s o Hs Ho.
      destruct (second_index_agrees s Hnil Hs) as (o1 & Ho1 & _ & Ht).
      assert (HkB : PushSecret.hashKey s ∈ PushSecret.hashKey <$> secrets)
        by (apply list_elem_of_fmap; eauto).
      pose proof (index_after_push userId workspaceId environment secrets db
                    Hids _ o (or_introl HkB) Ho) as Ho1'.
      assert (Heq : Some (h o) = Some o1)
        by exact (eq_trans (eq_sym Ho1') Ho1).
      injection Heq as <-. rewrite Ht. apply h_frame.
    + intros s Hs Hp.
      destruct (second_index_agrees s Hnil Hs) as (o1 & Ho1 & _).
      assert (Hk : PushSecret.hashKey s ∈ ISecret.secretKeyHash <$> old1)
        by (apply own_oldSecretsObj; eauto).
      apply (keys_of_scope_afterPush userId workspaceId environment secrets
               db Hids) in Hk.
      by rewrite decide_True in Hk.
  - intros (Hcons & Htypes & Hinh).
    unfold toUpdate. apply filter_none. intros s Hs.
    rewrite valueOrTypeChanged_spec. fold old1.
    assert (HkB : PushSecret.hashKey s ∈ PushSecret.hashKey <$> secrets)
      by (apply list_elem_of_fmap; eauto).
    intros [(o1 & Ho1 & Hdiff)|[Hnone Hp]].
    + destruct (decide (PushSecret.hashKey s ∈ ISecret.secretKeyHash <$> old))
        as [[o Ho]%own_oldSecretsObj|Hnew].
      * pose proof (index_after_push userId workspaceId environment secrets
                      db Hids _ o (or_introl HkB) Ho) as Ho1'.
        assert (Heq : Some (h o) = Some o1)
          by exact (eq_trans (eq_sym Ho1') Ho1).
        injection Heq as <-.
        pose proof (Htypes s o Hs Ho) as Ht.
        pose proof Ho as [Hold Hk]%oldSecretsObj_lookup_Some.
        destruct (updated_value userId workspaceId environment secrets db
                    Hids o (scope_subseteq _ _ _ _ _ Hold)) as [Htype Hval].
        destruct Hdiff as [Hdiff|Hdiff];
          [|apply Hdiff; rewrite Ht; symmetry; exact Htype].
        destruct (last (updatesOf userId workspaceId environment secrets db o))
          as [s'|] eqn:Hlast.
        -- apply last_Some_elem_of in Hlast.
           destruct (updatesOf_key userId workspaceId environment secrets db
                       o s' Hlast) as (Hk' & _ & Hs').
           destruct (Hcons s s' Hs Hs') as [Hv _]; [congruence|].
           apply Hdiff. rewrite Hv. symmetry. exact Hval.
        -- apply last_None in Hlast.
           assert (Hin : s ∈ updatesOf userId workspaceId environment secrets
                               db o).
           { apply (elem_of_updatesOf userId workspaceId environment secrets
                      db).
             split; [|done]. apply elem_of_toUpdate. split; [done|].
             left. exists o. split; [done|]. left.
             intros Hv. apply Hdiff. rewrite Hv. f_equal. symmetry.
             exact Hval. }
           rewrite Hlast in Hin. by apply not_elem_of_nil in Hin.
      * pose proof (index_after_push_new userId workspaceId environment
                      secrets db Hids _ o1 Hnew Ho1) as Hf.
        apply oldSecretsObj_lookup_Some in Ho1 as [_ Hk1].
        destruct (fresh_key_toAdd userId workspaceId environment secrets db
                    o1 Hf) as (s' & _ & Hs' & Hk' & Hv' & Ht' & _).
        destruct (Hcons s s' Hs Hs') as [Hv Ht]; [congruence|].
        destruct Hdiff; congruence.
    + apply eq_None_not_Some in Hnone. apply Hnone, own_oldSecretsObj.
      apply (keys_of_scope_afterPush userId workspaceId environment secrets
               db Hids).
      rewrite decide_True by done. by apply Hinh.
Qed.

End Again.

Lemma latestVersion_afterSnapshot workspaceId db :
  latestVersion workspaceId (afterSnapshot workspaceId db)
  = latestVersion workspaceId db + 1.
Proof.
  rewrite !latestVersion_max, snapshotVersions_afterSnapshot.
  rewrite decide_True by done. rewrite max_list_snoc. lia.
Qed.

(** ** The version rows of one stored secret across a push *)

Section Rows.
Context (userId workspaceId environment : string).
Context (secrets : list PushSecret.t) (db : Db).
Context (Hids : ids_ok db).

Let old := scope userId workspaceId environment db.
Let U := toUpdate old secrets.
Let storedOf := stored userId workspaceId environment db.
Let fresh := newSecrets userId workspaceId environment secrets db.
Let final := afterPush userId workspaceId environment secrets db.
Let targets := updatesOf userId workspaceId environment secrets db.



End Rows.

(** ** C1: the classification *)




(** ** C2: the same batch pushed twice *)

(** C2 (as amended): when a batch is pushed twice in succession to a store
    with unique ids, the second push deletes nothing and adds nothing, and
    it leaves [Secret] and [SecretVersion] as the first push left them
    exactly when it has nothing to update, that is, exactly when the entries
    of the batch that share a key hash agree in value hash and type, no
    entry differs in type from the stored record of its key hash, and every
    incoming key hash that names a member of [Object.prototype] was stored
    before the first push.  Each of the two pushes appends exactly one
    snapshot, the second with the next version and, when the second push
    has nothing to update, with the secret list of the first. *)
Theorem second_push_writes_only_a_snapshot
  f1 f2 userId workspaceId environment secrets db db1 db2 :
  ids_ok db →
  pushSecrets f1 userId workspaceId environment secrets db = (db1, inr ()) →
  pushSecrets f2 userId workspaceId environment secrets db1 = (db2, inr ()) →
  let same_batch_twice_is_quiet :=
    consistent secrets
    ∧ types_agree userId workspaceId environment secrets db
    ∧ inherited_keys_stored userId workspaceId environment secrets db in
  toDelete (scope userId workspaceId environment db1) secrets = []
  ∧ toAdd (scope userId workspaceId environment db1) secrets = []
  ∧ (toUpdate (scope userId workspaceId environment db1) secrets = []
     ↔ same_batch_twice_is_quiet)
  ∧ (Secret db2 = Secret db1 ∧ SecretVersion db2 = SecretVersion db1
     ↔ same_batch_twice_is_quiet)
  ∧ ∃ sn1 sn2,
      SecretSnapshot db1 = SecretSnapshot db ++ [sn1]
      ∧ SecretSnapshot db2 = SecretSnapshot db1 ++ [sn2]
      ∧ ISecretSnapshot.workspace sn1 = workspaceId
      ∧ ISecretSnapshot.workspace sn2 = workspaceId
      ∧ ISecretSnapshot.version sn2 = ISecretSnapshot.version sn1 + 1
      ∧ (same_batch_twice_is_quiet →
         ISecretSnapshot.secrets sn2 = ISecretSnapshot.secrets sn1).
Proof.
  intros Hids ->%pushSecrets_success ->%pushSecrets_success. cbv zeta.
  pose proof (second_toDelete_nil userId workspaceId environment secrets db
                Hids) as Hd.
  pose proof (second_toAdd_nil userId workspaceId environment secrets db
                Hids) as Ha.
  pose proof (second_toUpdate_nil_iff userId workspaceId environment secrets
                db Hids) as Hu.
  set (db1 := afterPush userId workspaceId environment secrets db) in *.
  assert (Hquiet :
    toUpdate (scope userId workspaceId environment db1) secrets = [] →
    afterPush userId workspaceId environment secrets db1
    = afterSnapshot workspaceId db1).
  { intros Hnil. by apply afterPush_nothing_to_do. }
  split_and!; [done|done|done| |].
  - rewrite <- Hu. split.
    + intros [_ Hsv]. apply (f_equal length) in Hsv.
      rewrite length_SecretVersion_afterPush in Hsv.
      apply nil_length_inv. lia.
    + intros Hnil. by rewrite (Hquiet Hnil).
  - exists (newSnapshot workspaceId
              (afterAdd userId workspaceId environment secrets db)),
           (newSnapshot workspaceId
              (afterAdd userId workspaceId environment secrets db1)).
    split_and!; try done.
    + simpl. f_equal.
      rewrite <- (latestVersion_afterSnapshot workspaceId
                    (afterAdd userId workspaceId environment secrets db)).
      reflexivity.
    + intros Hq%Hu. simpl.
      change (Secret_find_workspace workspaceId
                (afterAdd userId workspaceId environment secrets db1))
        with (Secret_find_workspace workspaceId
                (afterPush userId workspaceId environment secrets db1)).
      by rewrite (Hquiet Hq).
Qed.

Lemma second_push_writes_only_a_snapshot_witness :
  ids_ok dbA
  ∧ pushSecrets no_faults "u" "w" "dev" [k1v2; k2v1] dbA = (dbC1, inr ())
  ∧ pushSecrets no_faults "u" "w" "dev" [k1v2; k2v1] dbC1 = (dbC2, inr ())
  ∧ ISecret.version <$> Secret dbC1 = [2; 1]
  ∧ ISecretSnapshot.version <$> SecretSnapshot dbC2 = [1; 2; 3]
  ∧ (consistent [k1v2; k2v1] ∧ types_agree "u" "w" "dev" [k1v2; k2v1] dbA
     ∧ inherited_keys_stored "u" "w" "dev" [k1v2; k2v1] dbA)
  ∧ toDelete (scope "u" "w" "dev" dbC1) [k1v2; k2v1] = []
  ∧ toAdd (scope "u" "w" "dev" dbC1) [k1v2; k2v1] = []
  ∧ (toUpdate (scope "u" "w" "dev" dbC1) [k1v2; k2v1] = []
     ↔ consistent [k1v2; k2v1] ∧ types_agree "u" "w" "dev" [k1v2; k2v1] dbA
       ∧ inherited_keys_stored "u" "w" "dev" [k1v2; k2v1] dbA)
  ∧ (Secret dbC2 = Secret dbC1 ∧ SecretVersion dbC2 = SecretVersion dbC1
     ↔ consistent [k1v2; k2v1] ∧ types_agree "u" "w" "dev" [k1v2; k2v1] dbA
       ∧ inherited_keys_stored "u" "w" "dev" [k1v2; k2v1] dbA)
  ∧ ∃ sn1 sn2,
      SecretSnapshot dbC1 = SecretSnapshot dbA ++ [sn1]
      ∧ SecretSnapshot dbC2 = SecretSnapshot dbC1 ++ [sn2]
      ∧ ISecretSnapshot.workspace sn1 = "w"
      ∧ ISecretSnapshot.workspace sn2 = "w"
      ∧ ISecretSnapshot.version sn2 = ISecretSnapshot.version sn1 + 1
      ∧ (consistent [k1v2; k2v1]
         ∧ types_agree "u" "w" "dev" [k1v2; k2v1] dbA
         ∧ inherited_keys_stored "u" "w" "dev" [k1v2; k2v1] dbA →
         ISecretSnapshot.secrets sn2 = ISecretSnapshot.secrets sn1).
Proof.
  assert (Hids : ids_ok dbA).
  { apply ids_ok_afterPush, ids_ok_emptyDb. }
  assert (H1 : pushSecrets no_faults "u" "w" "dev" [k1v2; k2v1] dbA
               = (dbC1, inr ())).
  { vm_compute. reflexivity. }
  assert (H2 : pushSecrets no_faults "u" "w" "dev" [k1v2; k2v1] dbC1
               = (dbC2, inr ())).
  { vm_compute. reflexivity. }
  pose proof (second_push_writes_only_a_snapshot no_faults no_faults "u" "w"
                "dev" [k1v2; k2v1] dbA dbC1 dbC2 Hids H1 H2) as Hthm.
  cbv zeta in Hthm.
  split; [exact Hids|]. split; [exact H1|]. split; [exact H2|].
  split; [vm_compute; reflexivity|]. split; [vm_compute; reflexivity|].
  split; [|exact Hthm].
  destruct Hthm as (_ & _ & Hiff & _). apply Hiff. vm_compute. reflexivity.
Defined.

(** C2 (counterexamples): the second push of the same batch writes again
    when an entry differs from the stored record only in type, because the
    update never writes [type]; when two entries share a key hash and
    differ in value hash, because both are inserted and the first differs
    from the indexed record; and when an entry has the key hash [toString],
    which is never stored and is classified [toUpdate] by every push. *)
Lemma second_push_writes_again :
  (pushSecrets no_faults "u" "w" "dev" [k1v1_personal] dbA
   = (dbRetyped1, inr ())
   ∧ pushSecrets no_faults "u" "w" "dev" [k1v1_personal] dbRetyped1
     = (dbRetyped2, inr ())
   ∧ toUpdate (scope "u" "w" "dev" dbRetyped1) [k1v1_personal]
     = [k1v1_personal]
   ∧ ISecret.version <$> Secret dbRetyped1 = [2]
   ∧ ISecret.version <$> Secret dbRetyped2 = [3]
   ∧ length (SecretVersion dbRetyped1) = 2
   ∧ length (SecretVersion dbRetyped2) = 3)
  ∧ (pushSecrets no_faults "u" "w" "dev" [k1v1; k1v2] emptyDb
     = (dbTwice, inr ())
     ∧ pushSecrets no_faults "u" "w" "dev" [k1v1; k1v2] dbTwice
       = (dbTwice2, inr ())
     ∧ toUpdate (scope "u" "w" "dev" dbTwice) [k1v1; k1v2] = [k1v1]
     ∧ ISecret.version <$> Secret dbTwice = [1; 1]
     ∧ ISecret.version <$> Secret dbTwice2 = [1; 2]
     ∧ length (SecretVersion dbTwice) = 2
     ∧ length (SecretVersion dbTwice2) = 3)
  ∧ (pushSecrets no_faults "u" "w" "dev" [inheritedKey] emptyDb
     = (dbInherited1, inr ())
     ∧ pushSecrets no_faults "u" "w" "dev" [inheritedKey] dbInherited1
       = (dbInherited2, inr ())
     ∧ Secret dbInherited1 = []
     ∧ toUpdate (scope "u" "w" "dev" dbInherited1) [inheritedKey]
       = [inheritedKey]
     ∧ length (SecretVersion dbInherited1) = 1
     ∧ length (SecretVersion dbInherited2) = 2).
Proof. split_and!; vm_compute; reflexivity. Qed.

(** ** C3: the version ledger along a run *)

Lemma distinct_update_keys_distinct_targets
  userId workspaceId environment secrets db :
  ids_ok db →
  NoDup (PushSecret.hashKey
           <$> toUpdate (scope userId workspaceId environment db) secrets) →
  distinct_targets userId workspaceId environment secrets db.
Proof.
  intros Hids Hnd. apply distinct_targets_iff; [done|]. intros r Hr.
  assert (Hsub : NoDup (PushSecret.hashKey
                          <$> updatesOf userId workspaceId environment
                                secrets db r)).
  { eapply sublist_NoDup; [exact Hnd|].
    apply fmap_sublist, sublist_filter. }
  destruct (updatesOf userId workspaceId environment secrets db r)
    as [|a [|b l]] eqn:Ht; simpl; [lia|lia|exfalso].
  assert (Ha : a ∈ updatesOf userId workspaceId environment secrets db r)
    by (rewrite Ht; left).
  assert (Hb : b ∈ updatesOf userId workspaceId environment secrets db r)
    by (rewrite Ht; right; left).
  apply updatesOf_key in Ha as (Hka & _).
  apply updatesOf_key in Hb as (Hkb & _).
  rewrite !fmap_cons in Hsub. apply NoDup_cons in Hsub as [Hnotin _].
  apply Hnotin. rewrite Hka, <- Hkb. left.
Qed.

(** C3 (as amended): after any sequence of successful pushes, one at a
    time, none of which aims two of its updates at one stored secret, the
    version rows of every secret, deleted ones included, carry the versions
    1, 2, 3, ... in the order they were appended, and the last row of a
    stored secret carries its current [version], which is at least 1.  One
    more successful push keeps this ledger exactly when it does not aim two
    updates at one stored secret, which is the case when the entries of its
    [toUpdate] have pairwise distinct key hashes: an inserted secret has
    version 1 and the single row 1; a stored secret receives one row with
    its old version plus one for every entry aimed at it. *)
Theorem distinct_batches_keep_version_ledger db :
  reachable db →
  (∀ id, versionsOf id db = Some <$> seq 1 (length (versionsOf id db)))
  ∧ (∀ s, s ∈ Secret db →
          1 ≤ ISecret.version s
          ∧ versionsOf (ISecret._id s) db = Some <$> seq 1 (ISecret.version s)
          ∧ last (versionsOf (ISecret._id s) db)
            = Some (Some (ISecret.version s)))
  (* how one more push extends the ledger *)
  ∧ (∀ f userId workspaceId environment secrets db',
       pushSecrets f userId workspaceId environment secrets db
       = (db', inr ()) →
       (ledger_ok db'
        ↔ distinct_targets userId workspaceId environment secrets db)
       ∧ (NoDup (PushSecret.hashKey
                   <$> toUpdate (scope userId workspaceId environment db)
                         secrets) →
          distinct_targets userId workspaceId environment secrets db)
       ∧ (∀ n, n ∈ newSecrets userId workspaceId environment secrets db →
               n ∈ Secret db' ∧ ISecret.version n = 1
               ∧ versionsOf (ISecret._id n) db' = [Some 1])
       ∧ (∀ s o, s ∈ toUpdate (scope userId workspaceId environment db)
                       secrets →
                 stored userId workspaceId environment db s = Own o →
                 o ∈ Secret db
                 ∧ versionsOf (ISecret._id o) db'
                   = versionsOf (ISecret._id o) db
                     ++ replicate
                          (length (updatesOf userId workspaceId environment
                                     secrets db o))
                          (Some (ISecret.version o + 1))
                 ∧ (distinct_targets userId workspaceId environment secrets
                      db →
                    applyUpdate (mkUpdate userId s) o ∈ Secret db'
                    ∧ ISecret.version (applyUpdate (mkUpdate userId s) o)
                      = ISecret.version o + 1
                    ∧ versionsOf (ISecret._id o) db'
                      = versionsOf (ISecret._id o) db
                        ++ [Some (ISecret.version o + 1)]))).
Proof.
  intros Hreach. pose proof (reachable_ids_ok db Hreach) as Hids.
  pose proof (reachable_ledger_ok db Hreach) as Hledger.
  destruct Hledger as [H1 H2].
  split_and!; [done|done|].
  intros f userId workspaceId environment secrets db' ->%pushSecrets_success.
  split_and!.
  - split.
    + by apply ledger_ok_distinct_targets.
    + intros Hdt. by apply ledger_ok_afterPush.
  - by apply distinct_update_keys_distinct_targets.
  - intros n Hn. split_and!.
    + rewrite (Secret_final _ _ _ _ _ Hids). apply elem_of_app. by right.
    + by destruct (elem_of_fresh userId workspaceId environment secrets db n
                     Hn) as (_ & _ & _ & ? & _).
    + by apply versionsOf_inserted.
  - intros s o Hs Ho.
    destruct (stored_Own_toUpdate userId workspaceId environment secrets db
                s o Hs Ho) as (Hlook & Hold & Hk & Hdb & _).
    pose proof (versionsOf_stored userId workspaceId environment secrets db
                  Hids o Hdb) as Hrows.
    split_and!; [done|done|].
    intros Hdt.
    pose proof (proj1 (distinct_targets_iff userId workspaceId environment
                         secrets db Hids) Hdt o Hdb) as Hlen.
    assert (Hin : s ∈ updatesOf userId workspaceId environment secrets db o).
    { apply (elem_of_updatesOf userId workspaceId environment secrets db).
      by split. }
    assert (Hone : updatesOf userId workspaceId environment secrets db o = [s]).
    { destruct (updatesOf userId workspaceId environment secrets db o)
        as [|a [|b l]]; simpl in Hlen; [|by apply list_elem_of_singleton in Hin as ->|lia].
      by apply not_elem_of_nil in Hin. }
    split_and!; [|simpl; lia|by rewrite Hrows, Hone].
    rewrite (Secret_final _ _ _ _ _ Hids).
    apply elem_of_app. left. apply list_elem_of_fmap. exists o. split.
    + by rewrite (updatedBy_updatesOf userId workspaceId environment secrets
                    db Hids o Hdb), Hone.
    + apply (kept_iff userId workspaceId environment secrets db Hids o Hold).
      left. rewrite Hk. apply list_elem_of_fmap. exists s.
      split; [done|]. by apply elem_of_toUpdate in Hs as [? _].
Qed.

Lemma reachable_dbB : reachable dbB.
Proof.
  apply (reachable_push no_faults "u" "w" "dev" [k1v2] dbA).
  - apply (reachable_push no_faults "u" "w" "dev" [k1v1] emptyDb).
    + apply reachable_empty.
    + unfold distinct_targets. apply (bool_decide_unpack _).
      vm_compute. exact I.
    + vm_compute. reflexivity.
  - unfold distinct_targets. apply (bool_decide_unpack _).
    vm_compute. exact I.
  - vm_compute. reflexivity.
Defined.

Lemma distinct_batches_keep_version_ledger_witness :
  reachable dbB
  ∧ ISecret.version <$> Secret dbB = [2]
  ∧ versionsOf 0 dbB = [Some 1; Some 2]
  ∧ (∀ id, versionsOf id dbB = Some <$> seq 1 (length (versionsOf id dbB)))
  ∧ (∀ s, s ∈ Secret dbB →
          1 ≤ ISecret.version s
          ∧ versionsOf (ISecret._id s) dbB
            = Some <$> seq 1 (ISecret.version s)
          ∧ last (versionsOf (ISecret._id s) dbB)
            = Some (Some (ISecret.version s))).
Proof.
  split; [exact reachable_dbB|].
  split; [vm_compute; reflexivity|].
  split; [vm_compute; reflexivity|].
  split.
  - exact (proj1 (distinct_batches_keep_version_ledger dbB reachable_dbB)).
  - exact (proj1 (proj2
             (distinct_batches_keep_version_ledger dbB reachable_dbB))).
Defined.

(** C3 (counterexample): two entries with the key hash of a stored secret,
    both with a new value, update it twice: its version goes from 1 to 3
    while the two rows appended both carry version 2. *)
Lemma duplicate_batch_breaks_version_ledger :
  pushSecrets no_faults "u" "w" "dev" [k1v1] emptyDb = (dbA, inr ())
  ∧ pushSecrets no_faults "u" "w" "dev" [k1v2; k1v3] dbA = (dbDup, inr ())
  ∧ ISecret._id <$> Secret dbDup = [0]
  ∧ ISecret.version <$> Secret dbDup = [3]
  ∧ versionsOf 0 dbDup = [Some 1; Some 2; Some 2]
  ∧ versionsOf 0 dbDup ≠ Some <$> seq 1 3
  ∧ last (versionsOf 0 dbDup) ≠ Some (Some 3).
Proof.
  split_and!; try (vm_compute; reflexivity); vm_compute; discriminate.
Qed.

(** ** C5: deleting *)

(** A push whose bulk update throws stops in the store that the delete
    step has left. *)
Lemma pushSecrets_stops_after_delete
  f userId workspaceId environment secrets db :
  f PullFindShared = None → f PullFindPersonal = None →
  f PushDeleteMany = None → f PushMarkDeleted = None →
  is_Some (f PushBulkWrite) →
  pushSecrets f userId workspaceId environment secrets db
  = (afterDelete userId workspaceId environment secrets db, inl pushFailed).
Proof.
  intros Hs Hp H1 H2 [e H3].
  rewrite pushSecrets_trace by done. unfold pushTrace, pushUpdating.
  rewrite H1, H2, H3. cbv zeta.
  destruct (decide (0 < length
              (toDelete (scope userId workspaceId environment db) secrets)))
    as [|Hz]; [done|].
  unfold afterDelete.
  destruct (toDelete (scope userId workspaceId environment db) secrets);
    [|simpl in Hz; lia].
  by rewrite Secret_deleteMany_nil, SecretVersion_updateMany_nil.
Qed.

(** C5: a successful push removes from [Secret] exactly the rows whose id
    was classified [toDelete]: the ids of the stored rows after the push
    are those of the rows before it that are not classified, in their
    order, followed by the ids of the inserted rows, and with unique ids a
    stored row has no row with its id after the push exactly when it was
    classified.  Every [SecretVersion] row stays at its place; [isDeleted]
    is set on the rows of the classified secrets and no other field of any
    row is changed; the rows that the push appends are not flagged.  A push
    that is stopped right after the delete step, by a bulk update that
    throws, leaves exactly this: the unclassified [Secret] rows, unchanged,
    and the [SecretVersion] rows, flagged. *)
Theorem toDelete_hard_deletes_and_flags
  f userId workspaceId environment secrets db db' :
  pushSecrets f userId workspaceId environment secrets db = (db', inr ()) →
  let old := scope userId workspaceId environment db in
  let ids := toDelete old secrets in
  let flag := λ v, if decide (ISecretVersion.secret v ∈ Some <$> ids)
                   then markDeleted v else v in
  ISecret._id <$> Secret db'
  = filter (λ i, i ∉ ids) (ISecret._id <$> Secret db)
    ++ seq (nextId db) (length (toAdd old secrets))
  ∧ (∀ i v, SecretVersion db !! i = Some v →
       ∃ v', SecretVersion db' !! i = Some v'
         ∧ ISecretVersion.isDeleted v'
           = (if decide (ISecretVersion.secret v ∈ Some <$> ids) then true
              else ISecretVersion.isDeleted v)
         ∧ ISecretVersion.secret v' = ISecretVersion.secret v
         ∧ ISecretVersion.version v' = ISecretVersion.version v
         ∧ ISecretVersion.secretKeyCiphertext v'
           = ISecretVersion.secretKeyCiphertext v
         ∧ ISecretVersion.secretKeyIV v' = ISecretVersion.secretKeyIV v
         ∧ ISecretVersion.secretKeyTag v' = ISecretVersion.secretKeyTag v
         ∧ ISecretVersion.secretKeyHash v' = ISecretVersion.secretKeyHash v
         ∧ ISecretVersion.secretValueCiphertext v'
           = ISecretVersion.secretValueCiphertext v
         ∧ ISecretVersion.secretValueIV v' = ISecretVersion.secretValueIV v
         ∧ ISecretVersion.secretValueTag v' = ISecretVersion.secretValueTag v
         ∧ ISecretVersion.secretValueHash v'
           = ISecretVersion.secretValueHash v)
  ∧ (∃ rows, SecretVersion db' = (flag <$> SecretVersion db) ++ rows
             ∧ ∀ v, v ∈ rows → ISecretVersion.isDeleted v = false)
  ∧ (ids_ok db →
     (∀ s, s ∈ Secret db →
           (ISecret._id s ∈ ids ↔ s ∈ toDeleteSecrets old secrets))
     ∧ (∀ s, s ∈ Secret db →
             ((ISecret._id s ∉ ISecret._id <$> Secret db')
              ↔ s ∈ toDeleteSecrets old secrets)))
  ∧ (∀ f', f' PullFindShared = None → f' PullFindPersonal = None →
           f' PushDeleteMany = None → f' PushMarkDeleted = None →
           is_Some (f' PushBulkWrite) →
           ∃ mid,
             pushSecrets f' userId workspaceId environment secrets db
             = (mid, inl pushFailed)
             ∧ Secret mid = filter (λ s, ISecret._id s ∉ ids) (Secret db)
             ∧ SecretVersion mid = flag <$> SecretVersion db
             ∧ SecretSnapshot mid = SecretSnapshot db).
Proof.
  intros Hpush old ids flag.
  apply pushSecrets_success in Hpush. subst db'.
  assert (Hidlist :
    ISecret._id
      <$> Secret (afterPush userId workspaceId environment secrets db)
    = filter (λ i, i ∉ ids) (ISecret._id <$> Secret db)
      ++ seq (nextId db) (length (toAdd old secrets))).
  { rewrite Secret_afterPush, fmap_app, Secret_afterUpdate, bulkWrite_ids.
    rewrite Secret_afterDelete, fresh_ids, filter_fmap. done. }
  assert (Hrows :
    SecretVersion (afterPush userId workspaceId environment secrets db)
    = (flag <$> SecretVersion db)
      ++ (updatedVersions userId workspaceId environment secrets db
          ++ (mkFirstVersion
                <$> newSecrets userId workspaceId environment secrets db))).
  { rewrite SecretVersion_afterPush, SecretVersion_afterUpdate,
      SecretVersion_afterDelete.
    by rewrite <- app_assoc. }
  assert (Hclass : ids_ok db → ∀ s, s ∈ Secret db →
            (ISecret._id s ∈ ids ↔ s ∈ toDeleteSecrets old secrets)).
  { intros Hids s Hs. split.
    - by apply toDelete_in_scope.
    - intros Hd. unfold ids, toDelete. apply list_elem_of_fmap. eauto. }
  split_and!.
  - exact Hidlist.
  - intros i v Hi. rewrite Hrows.
    exists (flag v). split.
    + rewrite lookup_app_l
        by (rewrite length_fmap; by eapply lookup_lt_Some).
      by rewrite list_lookup_fmap, Hi.
    + unfold flag.
      destruct (decide (ISecretVersion.secret v ∈ Some <$> ids));
        by split_and!.
  - eexists. split; [exact Hrows|].
    intros v [Hv|Hv]%elem_of_app.
    + unfold updatedVersions in Hv.
      by apply list_elem_of_fmap in Hv as (s & -> & _).
    + by apply list_elem_of_fmap in Hv as (n & -> & _).
  - intros Hids. split; [by apply Hclass|].
    intros s Hs. rewrite <- (Hclass Hids s Hs), Hidlist.
    rewrite elem_of_app, list_elem_of_filter, elem_of_seq.
    assert (Hin : ISecret._id s ∈ ISecret._id <$> Secret db)
      by (apply list_elem_of_fmap; eauto).
    destruct Hids as (_ & Hlt & _). apply Hlt in Hs.
    destruct (decide (ISecret._id s ∈ ids)); split; intros; try tauto; try lia.
    intros [[? _]|?]; [done|lia].
  - intros f' Hs Hp H1 H2 H3.
    exists (afterDelete userId workspaceId environment secrets db).
    split; [by apply pushSecrets_stops_after_delete|]. done.
Qed.

Lemma toDelete_hard_deletes_and_flags_witness :
  let db' := afterPush "u" "w" "dev" [] dbB in
  let f' := fault_at PushBulkWrite "write failed" in
  pushSecrets no_faults "u" "w" "dev" [] dbB = (db', inr ())
  ∧ toDelete (scope "u" "w" "dev" dbB) [] = [0]
  ∧ ISecret._id <$> Secret dbB = [0]
  ∧ (ISecretVersion.isDeleted <$> SecretVersion dbB) = [false; false]
  ∧ (ISecretVersion.isDeleted <$> SecretVersion db') = [true; true]
  ∧ ISecret._id <$> Secret db' = []
  ∧ ISecret._id <$> Secret db'
    = filter (λ i, i ∉ toDelete (scope "u" "w" "dev" dbB) [])
        (ISecret._id <$> Secret dbB)
      ++ seq (nextId dbB) (length (toAdd (scope "u" "w" "dev" dbB) []))
  ∧ ∃ mid, pushSecrets f' "u" "w" "dev" [] dbB = (mid, inl pushFailed)
           ∧ Secret mid
             = filter (λ s, ISecret._id s
                            ∉ toDelete (scope "u" "w" "dev" dbB) [])
                 (Secret dbB)
           ∧ SecretVersion mid
             = (λ v, if decide (ISecretVersion.secret v
                                ∈ Some <$> toDelete (scope "u" "w" "dev" dbB)
                                             [])
                     then markDeleted v else v) <$> SecretVersion dbB
           ∧ SecretSnapshot mid = SecretSnapshot dbB.
Proof.
  intros db' f'.
  assert (Hp : pushSecrets no_faults "u" "w" "dev" [] dbB = (db', inr ())).
  { vm_compute. reflexivity. }
  pose proof (toDelete_hard_deletes_and_flags no_faults "u" "w" "dev" [] dbB
                db' Hp) as Hthm.
  cbv zeta in Hthm. destruct Hthm as (Hids & _ & _ & _ & Hstop).
  split; [exact Hp|].
  split; [vm_compute; reflexivity|].
  split; [vm_compute; reflexivity|].
  split; [vm_compute; reflexivity|].
  split; [vm_compute; reflexivity|].
  split; [vm_compute; reflexivity|].
  split; [exact Hids|].
  apply (Hstop f'); try reflexivity. vm_compute. eauto.
Defined.

(** ** C6: key hashes stay unique *)




(** ** C10: updating *)

(** C10: after a successful push over a store with unique ids, every
    stored secret that the push does not delete is found at its place among
    the kept ones with its [_id], [workspace], [environment], [type] and
    its four key fields as before; its [version] has gone up by the number
    of entries of [toUpdate] aimed at it; when there is none the record is
    as before, and otherwise its four value fields are those of the last
    such entry and its [user] is the caller when one of these entries is
    personal, and as before when none is.  Every entry of [toUpdate] whose
    key hash is stored is aimed at a secret that the push keeps; when it is
    the only one aimed at it, the stored record after the push is the old
    one with the entry's value fields, its version plus 1, and the caller as
    [user] for a personal entry.  An entry of [toUpdate] whose key hash is
    not stored matches no stored secret. *)
Theorem update_writes_value_fields_only
  f userId workspaceId environment secrets db db' :
  ids_ok db →
  pushSecrets f userId workspaceId environment secrets db = (db', inr ()) →
  let old := scope userId workspaceId environment db in
  let kept := filter (λ r, ISecret._id r ∉ toDelete old secrets) (Secret db) in
  let aimedAt := updatesOf userId workspaceId environment secrets db in
  (∀ i r, kept !! i = Some r →
     ∃ r', Secret db' !! i = Some r'
       ∧ ISecret._id r' = ISecret._id r
       ∧ ISecret.workspace r' = ISecret.workspace r
       ∧ ISecret.environment r' = ISecret.environment r
       ∧ ISecret.type r' = ISecret.type r
       ∧ ISecret.secretKeyCiphertext r' = ISecret.secretKeyCiphertext r
       ∧ ISecret.secretKeyIV r' = ISecret.secretKeyIV r
       ∧ ISecret.secretKeyTag r' = ISecret.secretKeyTag r
       ∧ ISecret.secretKeyHash r' = ISecret.secretKeyHash r
       ∧ ISecret.version r' = ISecret.version r + length (aimedAt r)
       ∧ (aimedAt r = [] → r' = r)
       ∧ (∀ s, last (aimedAt r) = Some s →
               ISecret.secretValueCiphertext r' = PushSecret.ciphertextValue s
               ∧ ISecret.secretValueIV r' = PushSecret.ivValue s
               ∧ ISecret.secretValueTag r' = PushSecret.tagValue s
               ∧ ISecret.secretValueHash r' = PushSecret.hashValue s)
       ∧ ISecret.user r'
         = (if decide (Exists (λ s, PushSecret.type s = SECRET_PERSONAL)
                         (aimedAt r))
            then Some userId else ISecret.user r))
  ∧ (∀ s, s ∈ toUpdate old secrets →
          (∃ o, oldSecretsObj old !! PushSecret.hashKey s = Some o
                ∧ o ∈ kept ∧ s ∈ aimedAt o
                ∧ (PushSecret.hashValue s ≠ ISecret.secretValueHash o
                   ∨ PushSecret.type s ≠ ISecret.type o)
                ∧ (aimedAt o = [s] →
                   ∃ r', r' ∈ Secret db'
                     ∧ r' = applyUpdate (mkUpdate userId s) o
                     ∧ ISecret.secretValueCiphertext r'
                       = PushSecret.ciphertextValue s
                     ∧ ISecret.secretValueIV r' = PushSecret.ivValue s
                     ∧ ISecret.secretValueTag r' = PushSecret.tagValue s
                     ∧ ISecret.secretValueHash r' = PushSecret.hashValue s
                     ∧ ISecret.version r' = ISecret.version o + 1
                     ∧ ISecret.user r'
                       = (if decide (PushSecret.type s = SECRET_PERSONAL)
                          then Some userId else ISecret.user o)
                     ∧ ISecret._id r' = ISecret._id o
                     ∧ ISecret.secretKeyCiphertext r'
                       = ISecret.secretKeyCiphertext o
                     ∧ ISecret.secretKeyIV r' = ISecret.secretKeyIV o
                     ∧ ISecret.secretKeyTag r' = ISecret.secretKeyTag o
                     ∧ ISecret.secretKeyHash r' = ISecret.secretKeyHash o
                     ∧ ISecret.workspace r' = ISecret.workspace o
                     ∧ ISecret.environment r' = ISecret.environment o
                     ∧ ISecret.type r' = ISecret.type o))
          ∨ ((PushSecret.hashKey s ∉ ISecret.secretKeyHash <$> old)
             ∧ PushSecret.hashKey s ∈ Object_prototype
             ∧ ∀ r, ¬ matchesFilter
                        (mkOperation userId workspaceId
                           (stored userId workspaceId environment db s) s)
                        r)).
Proof.
  intros Hids ->%pushSecrets_success old kept aimedAt.
  assert (Hkept : kept
                  = Secret (afterDelete userId workspaceId environment
                              secrets db)) by done.
  split.
  - intros i r Hi.
    assert (Hr : r ∈ Secret db).
    { apply list_elem_of_lookup_2 in Hi.
      by apply list_elem_of_filter in Hi as [_ ?]. }
    exists (updatedBy userId workspaceId environment secrets db r). split.
    + rewrite (Secret_final _ _ _ _ _ Hids).
      rewrite lookup_app_l.
      * rewrite list_lookup_fmap, <- Hkept, Hi. done.
      * rewrite length_fmap, <- Hkept. by eapply lookup_lt_Some.
    + rewrite (updatedBy_updatesOf userId workspaceId environment secrets db
                 Hids r Hr).
      fold (aimedAt r).
      destruct (foldl_applyUpdate_frame userId (aimedAt r) r)
        as (H1 & H2 & H3 & H4 & H5 & H6 & H7 & H8 & H9).
      split_and!; try done.
      * by intros ->.
      * intros s Hs. by apply foldl_applyUpdate_last.
      * apply foldl_applyUpdate_user.
  - intros s Hs.
    destruct (stored_toUpdate userId workspaceId environment secrets db s Hs)
      as [(o & Hst & Ho & Hold & Hk & Hdb & _)|(Hst & Hno & Hp)].
    + left. exists o.
      assert (Hin : s ∈ aimedAt o).
      { apply (elem_of_updatesOf userId workspaceId environment secrets db).
        by split. }
      assert (Hmid : o ∈ kept).
      { rewrite Hkept.
        apply (kept_iff userId workspaceId environment secrets db Hids o
                 Hold).
        left. rewrite Hk. apply list_elem_of_fmap. exists s.
        split; [done|]. by apply elem_of_toUpdate in Hs as [? _]. }
      split_and!; try done.
      * apply elem_of_toUpdate in Hs as [_ [(o' & Ho' & Hd)|[Hno _]]].
        -- assert (Heq : Some o = Some o')
             by exact (eq_trans (eq_sym Ho) Ho').
           by injection Heq as <-.
        -- exfalso. apply Hno, own_oldSecretsObj. eauto.
      * intros Hone. eexists. split; [|split; [reflexivity|]].
        -- rewrite (Secret_final _ _ _ _ _ Hids).
           apply elem_of_app. left. apply list_elem_of_fmap. exists o.
           split; [|by rewrite <- Hkept].
           rewrite (updatedBy_updatesOf userId workspaceId environment
                      secrets db Hids o Hdb).
           fold (aimedAt o). by rewrite Hone.
        -- split_and!; try done.
           simpl. by destruct (decide (PushSecret.type s = SECRET_PERSONAL)).
    + right. split_and!; [done|done|].
      intros r [_ Hid]. rewrite Hst in Hid. simpl in Hid. done.
Qed.

Lemma update_writes_value_fields_only_witness :
  let o := ISecret.mk 0 "w" SECRET_SHARED None "dev" "ck1" "ik" "tk" "k1"
             "cv1" "iv" "tv" "v1" 1 in
  ids_ok dbA
  ∧ pushSecrets no_faults "u" "w" "dev" [k1v1_personal] dbA
    = (dbRetyped1, inr ())
  ∧ k1v1_personal ∈ toUpdate (scope "u" "w" "dev" dbA) [k1v1_personal]
  ∧ Secret dbA = [o]
  ∧ updatesOf "u" "w" "dev" [k1v1_personal] dbA o = [k1v1_personal]
  ∧ Secret dbRetyped1
    = [ISecret.mk 0 "w" SECRET_SHARED (Some "u") "dev" "ck1" "ik" "tk" "k1"
         "cv1" "iv" "tv" "v1" 2]
  ∧ ∃ r', Secret dbRetyped1 !! 0 = Some r'
          ∧ ISecret._id r' = ISecret._id o
          ∧ ISecret.type r' = ISecret.type o
          ∧ ISecret.secretKeyHash r' = ISecret.secretKeyHash o
          ∧ ISecret.version r'
            = ISecret.version o
              + length (updatesOf "u" "w" "dev" [k1v1_personal] dbA o).
Proof.
  intros o.
  assert (Hids : ids_ok dbA).
  { apply ids_ok_afterPush, ids_ok_emptyDb. }
  assert (Hp : pushSecrets no_faults "u" "w" "dev" [k1v1_personal] dbA
               = (dbRetyped1, inr ())).
  { vm_compute. reflexivity. }
  split; [exact Hids|]. split; [exact Hp|].
  split; [apply (bool_decide_unpack _); vm_compute; exact I|].
  split; [vm_compute; reflexivity|].
  split; [vm_compute; reflexivity|].
  split; [vm_compute; reflexivity|].
  pose proof (update_writes_value_fields_only no_faults "u" "w" "dev"
                [k1v1_personal] dbA dbRetyped1 Hids Hp) as Hthm.
  cbv zeta in Hthm. destruct Hthm as [Hkept _].
  destruct (Hkept 0 o) as (r' & Hr' & H1 & _ & _ & H4 & _ & _ & _ & H8 & H9 & _).
  { vm_compute. reflexivity. }
  exists r'. by split_and!.
Defined.

(** ** The scenarios of the specification, run on the model *)

(** Scenario A: one secret pushed to the empty scope. *)
Example scenario_A :
  pushSecrets no_faults "u" "w" "dev" [k1v1] emptyDb = (dbA, inr ())
  ∧ (ISecret.secretKeyHash <$> Secret dbA) = ["k1"]
  ∧ (ISecret.version <$> Secret dbA) = [1]
  ∧ versionsOf 0 dbA = [Some 1]
  ∧ snapshotVersions "w" dbA = [1].
Proof. split_and!; vm_compute; reflexivity. Qed.

(** Scenario B: the same key hash pushed with a new value. *)
Example scenario_B :
  pushSecrets no_faults "u" "w" "dev" [k1v2] dbA = (dbB, inr ())
  ∧ (ISecret.secretValueHash <$> Secret dbB) = ["v2"]
  ∧ (ISecret.version <$> Secret dbB) = [2]
  ∧ versionsOf 0 dbB = [Some 1; Some 2]
  ∧ (ISecretVersion.secretValueHash <$> SecretVersion dbB) = ["v1"; "v2"]
  ∧ snapshotVersions "w" dbB = [1; 2].
Proof. split_and!; vm_compute; reflexivity. Qed.

(** Scenario C: the empty batch pushed after scenario B. *)
Example scenario_C :
  let dbC := afterPush "u" "w" "dev" [] dbB in
  pushSecrets no_faults "u" "w" "dev" [] dbB = (dbC, inr ())
  ∧ Secret dbC = []
  ∧ (ISecretVersion.isDeleted <$> SecretVersion dbC) = [true; true]
  ∧ snapshotVersions "w" dbC = [1; 2; 3]
  ∧ (ISecretSnapshot.secrets <$> last (SecretSnapshot dbC)) = Some [].
Proof. split_and!; vm_compute; reflexivity. Qed.

(** Scenario D, second half: in the [object] format the later of two
    entries with the same decrypted key wins. *)
Example scenario_D_object :
  decryptSecrets (λ ciphertext _ _ _, Some ciphertext)
    [PushSecret.mk "KEY" "i" "t" "h" "first" "i" "t" "h1" SECRET_SHARED;
     PushSecret.mk "KEY" "i" "t" "h" "second" "i" "t" "h2" SECRET_SHARED]
    "secret" object
  = Some (ContentObject {["KEY" := "second"]}).
Proof. vm_compute. reflexivity. Qed.

(** * Further properties of the helpers *)

(** ** Reading never writes; failures of the reads *)

(** X1: [pullSecrets] never changes the store; it returns the scope when
    both queries answer and throws the pull error, whatever the store
    threw, when one of them fails. *)
Theorem pullSecrets_read_only f userId workspaceId environment db :
  fst (pullSecrets f userId workspaceId environment db) = db
  ∧ (f PullFindShared = None → f PullFindPersonal = None →
     snd (pullSecrets f userId workspaceId environment db)
     = inr (scope userId workspaceId environment db))
  ∧ (is_Some (f PullFindShared) ∨ is_Some (f PullFindPersonal) →
     snd (pullSecrets f userId workspaceId environment db) = inl pullFailed).
Proof.
  destruct (pullSecrets_cases f userId workspaceId environment db)
    as [(H1 & H2 & ->)|[Hf ->]]; simpl; split_and!; try done.
  - intros [[e He]|[e He]]; congruence.
  - intros H1 H2. destruct Hf as [[e He]|[e He]]; congruence.
Qed.

(** X2: when the pull that opens a push fails, the push throws the push
    error and has written nothing. *)
Theorem pushSecrets_pull_failure_writes_nothing
  f userId workspaceId environment secrets db :
  is_Some (f PullFindShared) ∨ is_Some (f PullFindPersonal) →
  pushSecrets f userId workspaceId environment secrets db
  = (db, inl pushFailed).
Proof.
  intros Hf. unfold pushSecrets.
  unfold try_catch at 1. unfold mbind at 1. unfold Async_bind at 1.
  cbv beta.
  destruct (pullSecrets_cases f userId workspaceId environment db)
    as [(H1 & H2 & _)|[_ Hpull]].
  - destruct Hf as [[e He]|[e He]]; congruence.
  - by rewrite Hpull.
Qed.

Lemma pushSecrets_pull_failure_writes_nothing_witness :
  let f := fault_at PullFindPersonal "connection lost" in
  (is_Some (f PullFindShared) ∨ is_Some (f PullFindPersonal))
  ∧ pushSecrets f "u" "w" "dev" [k1v2; k2v1] dbA = (dbA, inl pushFailed).
Proof.
  intros f.
  assert (Hf : is_Some (f PullFindShared) ∨ is_Some (f PullFindPersonal)).
  { right. vm_compute. eauto. }
  split; [exact Hf|].
  exact (pushSecrets_pull_failure_writes_nothing f "u" "w" "dev" [k1v2; k2v1]
           dbA Hf).
Defined.

(** X3: there is no rollback.  When every write of a push goes through and
    the snapshot then fails, the push throws the push error although the
    deletes, updates, inserts and version rows are all in the store, exactly
    as after a successful push; only the snapshot is missing. *)
Theorem pushSecrets_snapshot_failure_keeps_writes
  f userId workspaceId environment secrets db :
  f PullFindShared = None → f PullFindPersonal = None →
  f PushDeleteMany = None → f PushMarkDeleted = None →
  f PushBulkWrite = None → f PushInsertUpdatedVersions = None →
  f PushInsertSecrets = None → f PushInsertNewVersions = None →
  is_Some (f SnapshotFindSecrets) ∨ is_Some (f SnapshotFindLatest)
  ∨ is_Some (f SnapshotSave) →
  ∃ db',
    pushSecrets f userId workspaceId environment secrets db
    = (db', inl pushFailed)
    ∧ Secret db'
      = Secret (afterPush userId workspaceId environment secrets db)
    ∧ SecretVersion db'
      = SecretVersion (afterPush userId workspaceId environment secrets db)
    ∧ SecretSnapshot db' = SecretSnapshot db.
Proof.
  intros Hs Hp H1 H2 H3 H4 H5 H6 Hf.
  exists (afterAdd userId workspaceId environment secrets db).
  split; [|done].
  rewrite pushSecrets_trace, pushTrace_writes_ok by done.
  destruct (takeSecretSnapshotHelper_cases f workspaceId
              (afterAdd userId workspaceId environment secrets db))
    as [(Ha & Hb & Hc & _)|[_ ->]]; [|done].
  destruct Hf as [[e He]|[[e He]|[e He]]]; congruence.
Qed.

Lemma pushSecrets_snapshot_failure_keeps_writes_witness :
  let f := fault_at SnapshotSave "write failed" in
  f PullFindShared = None ∧ f PullFindPersonal = None
  ∧ f PushDeleteMany = None ∧ f PushMarkDeleted = None
  ∧ f PushBulkWrite = None ∧ f PushInsertUpdatedVersions = None
  ∧ f PushInsertSecrets = None ∧ f PushInsertNewVersions = None
  ∧ (is_Some (f SnapshotFindSecrets) ∨ is_Some (f SnapshotFindLatest)
     ∨ is_Some (f SnapshotSave))
  ∧ ∃ db',
      pushSecrets f "u" "w" "dev" [k1v2; k2v1] dbA = (db', inl pushFailed)
      ∧ Secret db' = Secret (afterPush "u" "w" "dev" [k1v2; k2v1] dbA)
      ∧ SecretVersion db'
        = SecretVersion (afterPush "u" "w" "dev" [k1v2; k2v1] dbA)
      ∧ SecretSnapshot db' = SecretSnapshot dbA.
Proof.
  intros f.
  assert (Hf : is_Some (f SnapshotFindSecrets) ∨ is_Some (f SnapshotFindLatest)
               ∨ is_Some (f SnapshotSave)).
  { right. right. vm_compute. eauto. }
  split_and!; try reflexivity; [exact Hf|].
  apply (pushSecrets_snapshot_failure_keeps_writes f "u" "w" "dev"
           [k1v2; k2v1] dbA); try reflexivity.
  exact Hf.
Defined.

(** X4: a push that stops between its two delete calls has removed the
    [Secret] rows and has flagged none of their version rows: the store
    keeps the first write and the push throws the push error. *)
Theorem pushSecrets_half_delete
  f userId workspaceId environment secrets db :
  f PullFindShared = None → f PullFindPersonal = None →
  f PushDeleteMany = None → is_Some (f PushMarkDeleted) →
  toDelete (scope userId workspaceId environment db) secrets ≠ [] →
  pushSecrets f userId workspaceId environment secrets db
  = (Secret_deleteMany
       (toDelete (scope userId workspaceId environment db) secrets) db,
     inl pushFailed)
  ∧ SecretVersion
      (Secret_deleteMany
         (toDelete (scope userId workspaceId environment db) secrets) db)
    = SecretVersion db.
Proof.
  intros Hs Hp H1 [e H2] Hne. split; [|done].
  rewrite pushSecrets_trace by done. unfold pushTrace.
  rewrite H1, H2. cbv zeta.
  destruct (decide (0 < length
              (toDelete (scope userId workspaceId environment db) secrets)))
    as [|Hz]; [done|].
  destruct (toDelete (scope userId workspaceId environment db) secrets);
    [done | simpl in Hz; lia].
Qed.

Lemma pushSecrets_half_delete_witness :
  let f := fault_at PushMarkDeleted "write failed" in
  f PullFindShared = None ∧ f PullFindPersonal = None
  ∧ f PushDeleteMany = None ∧ is_Some (f PushMarkDeleted)
  ∧ toDelete (scope "u" "w" "dev" dbB) [] ≠ []
  ∧ pushSecrets f "u" "w" "dev" [] dbB
    = (Secret_deleteMany (toDelete (scope "u" "w" "dev" dbB) []) dbB,
       inl pushFailed)
  ∧ SecretVersion
      (Secret_deleteMany (toDelete (scope "u" "w" "dev" dbB) []) dbB)
    = SecretVersion dbB.
Proof.
  intros f.
  assert (H4 : is_Some (f PushMarkDeleted)) by (vm_compute; eauto).
  assert (H5 : toDelete (scope "u" "w" "dev" dbB) [] ≠ [])
    by (vm_compute; discriminate).
  repeat (split; [reflexivity|]).
  split; [exact H4|]. split; [exact H5|].
  exact (pushSecrets_half_delete f "u" "w" "dev" [] dbB eq_refl eq_refl
           eq_refl H4 H5).
Defined.

(** X5: the delete calls and the insert calls are made only when there is
    something to delete or to add, whereas the bulk update and the insert
    of updated version rows are always made: a push with nothing to delete
    and nothing to add succeeds even if the guarded calls would fail, and a
    failing bulk update fails the push at once, before any write. *)
Theorem pushSecrets_guarded_calls
  f userId workspaceId environment secrets db :
  f PullFindShared = None → f PullFindPersonal = None →
  toDelete (scope userId workspaceId environment db) secrets = [] →
  (toAdd (scope userId workspaceId environment db) secrets = [] →
   f PushBulkWrite = None → f PushInsertUpdatedVersions = None →
   f SnapshotFindSecrets = None → f SnapshotFindLatest = None →
   f SnapshotSave = None →
   pushSecrets f userId workspaceId environment secrets db
   = (afterPush userId workspaceId environment secrets db, inr ()))
  ∧ (is_Some (f PushBulkWrite) →
     pushSecrets f userId workspaceId environment secrets db
     = (db, inl pushFailed)).
Proof.
  intros Hs Hp Hd. split.
  - intros Ha H3 H4 H7 H8 H9.
    rewrite pushSecrets_trace by done.
    unfold pushTrace, pushUpdating, pushAdding, pushFinish.
    rewrite Hd, Ha, H3, H4. cbv zeta. simpl.
    pose proof (afterDelete_guard userId workspaceId environment secrets db)
      as Hdel.
    pose proof (afterAdd_guard userId workspaceId environment secrets db)
      as Hadd.
    cbv zeta in Hdel, Hadd. unfold afterPush. rewrite <- Hadd.
    unfold afterUpdate. rewrite <- Hdel. rewrite Hd, Ha. simpl.
    match goal with
    | |- context [takeSecretSnapshotHelper f workspaceId ?d] =>
        destruct (takeSecretSnapshotHelper_cases f workspaceId d)
          as [(_ & _ & _ & ->)|[[[e He]|[[e He]|[e He]]] _]];
          [done | congruence ..]
    end.
  - intros [e H3].
    rewrite pushSecrets_trace by done. unfold pushTrace, pushUpdating.
    rewrite Hd, H3. by simpl.
Qed.

Lemma pushSecrets_guarded_calls_witness :
  let f := λ c, if decide (c = PushDeleteMany ∨ c = PushMarkDeleted
                           ∨ c = PushInsertSecrets
                           ∨ c = PushInsertNewVersions)
                then Some "write failed" else None in
  f PullFindShared = None ∧ f PullFindPersonal = None
  ∧ toDelete (scope "u" "w" "dev" dbC1) [k1v2; k2v1] = []
  ∧ toAdd (scope "u" "w" "dev" dbC1) [k1v2; k2v1] = []
  ∧ pushSecrets f "u" "w" "dev" [k1v2; k2v1] dbC1 = (dbC2, inr ()).
Proof.
  intros f.
  assert (Hd : toDelete (scope "u" "w" "dev" dbC1) [k1v2; k2v1] = [])
    by (vm_compute; reflexivity).
  assert (Ha : toAdd (scope "u" "w" "dev" dbC1) [k1v2; k2v1] = [])
    by (vm_compute; reflexivity).
  split; [reflexivity|]. split; [reflexivity|].
  split; [exact Hd|]. split; [exact Ha|].
  exact (proj1 (pushSecrets_guarded_calls f "u" "w" "dev" [k1v2; k2v1] dbC1
                  eq_refl eq_refl Hd)
           Ha eq_refl eq_refl eq_refl eq_refl eq_refl).
Defined.


(** X6: [takeSecretSnapshotHelper] touches nothing but the snapshot
    collection, whatever fails: secrets, version rows and the id allocator
    are as before, the earlier snapshots stay in place, and a snapshot that
    throws, at whichever of its three store calls, has written nothing and
    throws the snapshot error. *)
Theorem takeSecretSnapshotHelper_frame f workspaceId db :
  let r := takeSecretSnapshotHelper f workspaceId db in
  Secret (fst r) = Secret db
  ∧ SecretVersion (fst r) = SecretVersion db
  ∧ nextId (fst r) = nextId db
  ∧ SecretSnapshot db `prefix_of` SecretSnapshot (fst r)
  ∧ (∀ e, snd r = inl e → fst r = db ∧ e = snapshotFailed)
  ∧ (is_Some (f SnapshotFindSecrets) ∨ is_Some (f SnapshotFindLatest)
     ∨ is_Some (f SnapshotSave) → r = (db, inl snapshotFailed)).
Proof.
  intros r. unfold r.
  destruct (takeSecretSnapshotHelper_cases f workspaceId db)
    as [(Ha & Hb & Hc & ->)|[_ ->]]; simpl; split_and!; try done.
  - by apply prefix_app_r.
  - intros [[e He]|[[e He]|[e He]]]; congruence.
  - intros e. by injection 1 as <-.
Qed.

(** ** What lies outside the caller's scope, across a push *)

(** X7: a push, finished or failed at any of its store calls, leaves every
    secret outside the caller's scope as it was and where it was: secrets of
    other workspaces and other environments, and the personal secrets of
    other users, are neither deleted nor updated, and none is inserted.
    After a successful push the version rows of such a secret are unchanged
    as well. *)
Theorem pushSecrets_leaves_other_scopes
  f userId workspaceId environment secrets db :
  ids_ok db →
  filter (λ r, ¬ inScope userId workspaceId environment r)
    (Secret (fst (pushSecrets f userId workspaceId environment secrets db)))
  = filter (λ r, ¬ inScope userId workspaceId environment r) (Secret db)
  ∧ (∀ r, r ∈ Secret db → ¬ inScope userId workspaceId environment r →
       r ∈ Secret (afterPush userId workspaceId environment secrets db)
       ∧ filter (λ v, ISecretVersion.secret v = Some (ISecret._id r))
           (SecretVersion
              (afterPush userId workspaceId environment secrets db))
         = filter (λ v, ISecretVersion.secret v = Some (ISecret._id r))
             (SecretVersion db)).
Proof.
  intros Hids. split.
  - destruct (pushStages_Secret userId workspaceId environment secrets db _
                (pushSecrets_stages f userId workspaceId environment secrets
                   db)) as [->|[->|[->| ->]]].
    + done.
    + by apply outside_afterDelete.
    + by apply outside_afterUpdate.
    + by apply outside_afterPush.
  - intros r Hr Hn. split; [|by apply outside_versions].
    assert (Hin : r ∈ filter (λ r, ¬ inScope userId workspaceId environment r)
                        (Secret db))
      by (apply list_elem_of_filter; by split).
    rewrite <- (outside_afterPush userId workspaceId environment secrets db
                  Hids) in Hin.
    by apply list_elem_of_filter in Hin as [_ ?].
Qed.

Lemma pushSecrets_leaves_other_scopes_witness :
  let db := mkDb [sharedDoc; personalDoc] [] [] 2 in
  ids_ok db
  ∧ filter (λ r, ¬ inScope "v" "w" "dev" r)
      (Secret (fst (pushSecrets no_faults "v" "w" "dev" [k1v2] db)))
    = filter (λ r, ¬ inScope "v" "w" "dev" r) (Secret db).
Proof.
  intros db.
  assert (Hids : ids_ok db).
  { unfold ids_ok. split_and!.
    - apply (bool_decide_unpack _). vm_compute. exact I.
    - intros s Hs. simpl in Hs.
      repeat (apply elem_of_cons in Hs as [->|Hs]; [simpl; lia|]).
      by apply not_elem_of_nil in Hs.
    - intros v id Hv. by apply not_elem_of_nil in Hv. }
  split; [exact Hids|].
  exact (proj1 (pushSecrets_leaves_other_scopes no_faults "v" "w" "dev" [k1v2]
                  db Hids)).
Defined.


(** ** The caller's scope after a push *)

(** X8: which key hashes the caller's scope holds after a successful push.
    A key hash that names a member of [Object.prototype] is stored after
    the push exactly when it was stored before it: the push neither adds
    nor deletes a secret under such a key hash.  Any other key hash is
    stored after the push exactly when an incoming entry carries it.  So
    the scope holds exactly the incoming key hashes if and only if the
    stored and the incoming key hashes agree on the members of
    [Object.prototype]; and the empty batch empties the scope if and only
    if no stored key hash is such a name. *)
Theorem pushSecrets_scope_becomes_batch
  f userId workspaceId environment secrets db db' :
  ids_ok db →
  pushSecrets f userId workspaceId environment secrets db = (db', inr ()) →
  let storedKeys d :=
    ISecret.secretKeyHash <$> scope userId workspaceId environment d in
  (∀ k, k ∈ storedKeys db'
        ↔ if decide (k ∈ Object_prototype) then k ∈ storedKeys db
          else k ∈ PushSecret.hashKey <$> secrets)
  ∧ ((∀ k, k ∈ storedKeys db' ↔ k ∈ PushSecret.hashKey <$> secrets)
     ↔ (∀ k, k ∈ Object_prototype →
             k ∈ storedKeys db ↔ k ∈ PushSecret.hashKey <$> secrets))
  ∧ (secrets = [] →
     scope userId workspaceId environment db' = []
     ↔ ∀ k, k ∈ storedKeys db → k ∉ Object_prototype).
Proof.
  intros Hids ->%pushSecrets_success storedKeys.
  assert (Hkeys : ∀ k,
    k ∈ storedKeys (afterPush userId workspaceId environment secrets db)
    ↔ if decide (k ∈ Object_prototype) then k ∈ storedKeys db
      else k ∈ PushSecret.hashKey <$> secrets).
  { intros k. by apply keys_of_scope_afterPush. }
  split_and!; [exact Hkeys| |].
  - split.
    + intros Hall k Hp. rewrite <- Hall, Hkeys. by rewrite decide_True.
    + intros Hall k. rewrite Hkeys.
      destruct (decide (k ∈ Object_prototype)); [by apply Hall|done].
  - intros ->. split.
    + intros Hnil k Hk Hp.
      assert (Hin : k ∈ storedKeys
                          (afterPush userId workspaceId environment [] db)).
      { apply Hkeys. by rewrite decide_True. }
      unfold storedKeys in Hin. rewrite Hnil in Hin.
      by apply not_elem_of_nil in Hin.
    + intros Hall. apply elem_of_nil_inv. intros r Hr.
      assert (Hk : ISecret.secretKeyHash r
                   ∈ storedKeys
                       (afterPush userId workspaceId environment [] db))
        by (apply list_elem_of_fmap; eauto).
      apply Hkeys in Hk.
      destruct (decide (ISecret.secretKeyHash r ∈ Object_prototype)) as [Hp|];
        [by apply (Hall _ Hk) | by apply not_elem_of_nil in Hk].
Qed.

Lemma pushSecrets_scope_becomes_batch_witness :
  ids_ok dbA
  ∧ pushSecrets no_faults "u" "w" "dev" [k1v2; k2v1] dbA = (dbC1, inr ())
  ∧ ISecret.secretKeyHash <$> scope "u" "w" "dev" dbC1 = ["k2"; "k1"]
  ∧ ∀ k, k ∈ ISecret.secretKeyHash <$> scope "u" "w" "dev" dbC1
         ↔ if decide (k ∈ Object_prototype)
           then k ∈ ISecret.secretKeyHash <$> scope "u" "w" "dev" dbA
           else k ∈ PushSecret.hashKey <$> [k1v2; k2v1].
Proof.
  assert (Hids : ids_ok dbA).
  { apply (ids_ok_afterPush "u" "w" "dev" [k1v1] emptyDb), ids_ok_emptyDb. }
  assert (Hp : pushSecrets no_faults "u" "w" "dev" [k1v2; k2v1] dbA
               = (dbC1, inr ())) by (vm_compute; reflexivity).
  split; [exact Hids|]. split; [exact Hp|].
  split; [vm_compute; reflexivity|].
  exact (proj1 (pushSecrets_scope_becomes_batch no_faults "u" "w" "dev"
                  [k1v2; k2v1] dbA dbC1 Hids Hp)).
Defined.

(** X9: pulling after a push gives back what was pushed.  After a
    successful push the pull of the same caller succeeds, and for every
    pushed entry whose key hash is stored before the push or does not name
    a member of [Object.prototype], the index of the pulled secrets holds,
    under the key hash of the entry, a secret with this key hash and with
    the value hash of a pushed entry with this key hash: that of the entry
    itself when all pushed entries with its key hash carry its value
    hash. *)
Theorem pushSecrets_then_pullSecrets
  f userId workspaceId environment secrets db db' :
  ids_ok db →
  pushSecrets f userId workspaceId environment secrets db = (db', inr ()) →
  ∃ pulled,
    pullSecrets no_faults userId workspaceId environment db'
    = (db', inr pulled)
    ∧ ∀ s, s ∈ secrets →
        (PushSecret.hashKey s ∈ Object_prototype →
         PushSecret.hashKey s
         ∈ ISecret.secretKeyHash <$> scope userId workspaceId environment db) →
        ∃ o s', oldSecretsObj pulled !! PushSecret.hashKey s = Some o
                ∧ o ∈ pulled
                ∧ ISecret.secretKeyHash o = PushSecret.hashKey s
                ∧ s' ∈ secrets
                ∧ PushSecret.hashKey s' = PushSecret.hashKey s
                ∧ ISecret.secretValueHash o = PushSecret.hashValue s'
                ∧ ((∀ s'', s'' ∈ secrets →
                           PushSecret.hashKey s'' = PushSecret.hashKey s →
                           PushSecret.hashValue s'' = PushSecret.hashValue s) →
                   ISecret.secretValueHash o = PushSecret.hashValue s).
Proof.
  intros Hids ->%pushSecrets_success.
  exists (scope userId workspaceId environment
            (afterPush userId workspaceId environment secrets db)).
  split.
  - destruct (pullSecrets_cases no_faults userId workspaceId environment
                (afterPush userId workspaceId environment secrets db))
      as [(_ & _ & H)|[[[e He]|[e He]] _]]; [done|discriminate..].
  - intros s Hs Hp.
    destruct (pulled_after_push userId workspaceId environment secrets db
                Hids s Hs Hp) as (o & s' & Ho & Hin & Hk & Hs' & Hk' & Hv).
    exists o, s'. split_and!; try done.
    intros Hall. rewrite Hv. by apply Hall.
Qed.

Lemma pushSecrets_then_pullSecrets_witness :
  ids_ok dbA
  ∧ pushSecrets no_faults "u" "w" "dev" [k1v2; k2v1] dbA = (dbC1, inr ())
  ∧ ∃ pulled,
      pullSecrets no_faults "u" "w" "dev" dbC1 = (dbC1, inr pulled)
      ∧ ∃ o, oldSecretsObj pulled !! PushSecret.hashKey k1v2 = Some o
             ∧ o ∈ pulled
             ∧ ISecret.secretKeyHash o = PushSecret.hashKey k1v2
             ∧ ISecret.secretValueHash o = PushSecret.hashValue k1v2.
Proof.
  assert (Hids : ids_ok dbA).
  { apply (ids_ok_afterPush "u" "w" "dev" [k1v1] emptyDb), ids_ok_emptyDb. }
  assert (Hp : pushSecrets no_faults "u" "w" "dev" [k1v2; k2v1] dbA
               = (dbC1, inr ())) by (vm_compute; reflexivity).
  split; [exact Hids|]. split; [exact Hp|].
  destruct (pushSecrets_then_pullSecrets no_faults "u" "w" "dev" [k1v2; k2v1]
              dbA dbC1 Hids Hp) as (pulled & Hpull & Hall).
  exists pulled. split; [exact Hpull|].
  destruct (Hall k1v2) as (o & s' & Ho & Hin & Hk & _ & _ & _ & Hv).
  - left.
  - intros Hproto. exfalso. revert Hproto.
    apply (bool_decide_unpack _). vm_compute. exact I.
  - exists o. split_and!; try done. apply Hv.
    intros s'' Hs'' Hk''.
    apply elem_of_cons in Hs'' as [->|Hs'']; [done|].
    apply list_elem_of_singleton in Hs'' as ->. discriminate Hk''.
Defined.

(** X10: every successful push ends with one new snapshot, taken after the
    writes: it is appended behind the unchanged earlier snapshots, carries
    the next version of the workspace, and holds the [Secret] rows of the
    whole workspace as the push left them, so every secret of the caller's
    new scope is in it. *)
Theorem pushSecrets_snapshots_its_result
  f userId workspaceId environment secrets db db' :
  pushSecrets f userId workspaceId environment secrets db = (db', inr ()) →
  ∃ sn,
    SecretSnapshot db' = SecretSnapshot db ++ [sn]
    ∧ ISecretSnapshot.workspace sn = workspaceId
    ∧ ISecretSnapshot.version sn
      = max_list (snapshotVersions workspaceId db) + 1
    ∧ ISecretSnapshot.secrets sn
      = filter (λ s, ISecret.workspace s = workspaceId) (Secret db')
    ∧ ∀ r, r ∈ scope userId workspaceId environment db' →
           r ∈ ISecretSnapshot.secrets sn.
Proof.
  intros ->%pushSecrets_success.
  exists (newSnapshot workspaceId
            (afterAdd userId workspaceId environment secrets db)).
  split_and!; try done.
  - simpl.
    change (latestVersion workspaceId
              (afterAdd userId workspaceId environment secrets db))
      with (latestVersion workspaceId db).
    by rewrite latestVersion_max.
  - intros r (Hr & Hw & _)%elem_of_scope. simpl.
    unfold Secret_find_workspace. apply list_elem_of_filter. by split.
Qed.

Lemma pushSecrets_snapshots_its_result_witness :
  pushSecrets no_faults "u" "w" "dev" [k1v2; k2v1] dbA = (dbC1, inr ())
  ∧ ∃ sn,
      SecretSnapshot dbC1 = SecretSnapshot dbA ++ [sn]
      ∧ ISecretSnapshot.workspace sn = "w"
      ∧ ISecretSnapshot.version sn = max_list (snapshotVersions "w" dbA) + 1
      ∧ ISecretSnapshot.secrets sn
        = filter (λ s, ISecret.workspace s = "w") (Secret dbC1)
      ∧ ∀ r, r ∈ scope "u" "w" "dev" dbC1 → r ∈ ISecretSnapshot.secrets sn.
Proof.
  assert (Hp : pushSecrets no_faults "u" "w" "dev" [k1v2; k2v1] dbA
               = (dbC1, inr ())) by (vm_compute; reflexivity).
  split; [exact Hp|].
  exact (pushSecrets_snapshots_its_result no_faults "u" "w" "dev"
           [k1v2; k2v1] dbA dbC1 Hp).
Defined.


(** ** Decrypting into an object *)

Lemma mapM_None {A B : Type} (g : A → option B) (l : list A) :
  mapM g l = None ↔ ∃ x, x ∈ l ∧ g x = None.
Proof.
  induction l as [|a l IH].
  - split; [done|]. by intros (x & ?%not_elem_of_nil & _).
  - change (mapM g (a :: l))
      with (y ← g a; k ← mapM g l; mret (y :: k)).
    destruct (g a) as [y|] eqn:Ha; simpl.
    + destruct (mapM g l) as [k|]; simpl.
      * split; [done|]. intros (x & [->|Hx]%elem_of_cons & Hn);
          [congruence|].
        assert (Hnone : Some k = None) by (apply IH; eauto).
        done.
      * split; [|done]. intros _.
        destruct (proj1 IH eq_refl) as (x & Hx & Hn).
        exists x. split; [by right|done].
    + split; [|done]. intros _. exists a. split; [by left|done].
Qed.

Lemma decryptEntry_None d key s :
  decryptEntry d key s = None
  ↔ d (PushSecret.ciphertextKey s) (PushSecret.ivKey s) (PushSecret.tagKey s)
      key = None
    ∨ d (PushSecret.ciphertextValue s) (PushSecret.ivValue s)
        (PushSecret.tagValue s) key = None.
Proof.
  unfold decryptEntry.
  destruct (d (PushSecret.ciphertextKey s) _ _ _);
    destruct (d (PushSecret.ciphertextValue s) _ _ _); simpl;
    intuition congruence.
Qed.

Lemma textLine_None d key s :
  textLine d key s = None ↔ decryptEntry d key s = None.
Proof.
  unfold textLine, decryptEntry.
  destruct (d (PushSecret.ciphertextKey s) _ _ _);
    destruct (d (PushSecret.ciphertextValue s) _ _ _); done.
Qed.

Lemma decryptOne_object d key n m s idx :
  decryptOne d key n (ContentObject m) s idx
  = (λ x, ContentObject
            (js_set (ExpandedSecret.plaintextKey x)
               (ExpandedSecret.plaintextValue x) m))
      <$> decryptEntry d key s.
Proof.
  unfold decryptOne, decryptEntry.
  destruct (d (PushSecret.ciphertextKey s) _ _ _); [|done].
  by destruct (d (PushSecret.ciphertextValue s) _ _ _).
Qed.

Lemma decryptOne_expanded d key n m s idx :
  decryptOne d key n (ContentExpanded m) s idx
  = (λ x, ContentExpanded (js_set (ExpandedSecret.plaintextKey x) x m))
      <$> decryptEntry d key s.
Proof.
  unfold decryptOne, decryptEntry.
  destruct (d (PushSecret.ciphertextKey s) _ _ _); [|done].
  by destruct (d (PushSecret.ciphertextValue s) _ _ _).
Qed.

Lemma forEach_object d key n (l : list PushSecret.t) idx m :
  forEach (decryptOne d key n) idx l (ContentObject m)
  = (λ xs, ContentObject
             (foldl (λ m x, js_set (ExpandedSecret.plaintextKey x)
                              (ExpandedSecret.plaintextValue x) m) m xs))
      <$> mapM (decryptEntry d key) l.
Proof.
  revert idx m. induction l as [|s l IH]; intros idx m; [done|].
  change (forEach (decryptOne d key n) idx (s :: l) (ContentObject m))
    with (decryptOne d key n (ContentObject m) s idx
          ≫= forEach (decryptOne d key n) (S idx) l).
  change (mapM (decryptEntry d key) (s :: l))
    with (y ← decryptEntry d key s; k ← mapM (decryptEntry d key) l;
          mret (y :: k)).
  rewrite decryptOne_object.
  destruct (decryptEntry d key s) as [x|]; [|done].
  cbn [fmap option_fmap option_map mbind option_bind].
  rewrite IH. by destruct (mapM (decryptEntry d key) l).
Qed.

Lemma forEach_expanded d key n (l : list PushSecret.t) idx m :
  forEach (decryptOne d key n) idx l (ContentExpanded m)
  = (λ xs, ContentExpanded
             (foldl (λ m x, js_set (ExpandedSecret.plaintextKey x) x m) m xs))
      <$> mapM (decryptEntry d key) l.
Proof.
  revert idx m. induction l as [|s l IH]; intros idx m; [done|].
  change (forEach (decryptOne d key n) idx (s :: l) (ContentExpanded m))
    with (decryptOne d key n (ContentExpanded m) s idx
          ≫= forEach (decryptOne d key n) (S idx) l).
  change (mapM (decryptEntry d key) (s :: l))
    with (y ← decryptEntry d key s; k ← mapM (decryptEntry d key) l;
          mret (y :: k)).
  rewrite decryptOne_expanded.
  destruct (decryptEntry d key s) as [x|]; [|done].
  cbn [fmap option_fmap option_map mbind option_bind].
  rewrite IH. by destruct (mapM (decryptEntry d key) l).
Qed.

Lemma foldl_insert_fmap {A B : Type} (key : A → string) (g : A → B)
  (l : list A) (m : gmap string A) :
  foldl (λ m x, <[key x := g x]> m) (g <$> m) l
  = g <$> foldl (λ m x, <[key x := x]> m) m l.
Proof.
  revert m. induction l as [|x l IH]; intros m; [done|].
  simpl. by rewrite <- IH, fmap_insert.
Qed.

(** Assigning the entries of a list one after the other: the entries with
    the key [__proto__] leave no own property. *)
Lemma foldl_js_set {A B : Type} (key : A → string) (g : A → B)
  (l : list A) (m : gmap string B) :
  foldl (λ m x, js_set (key x) (g x) m) m l
  = foldl (λ m x, <[key x := g x]> m) m
      (filter (λ x, key x ≠ "__proto__") l).
Proof.
  revert m. induction l as [|x l IH]; intros m; [done|].
  rewrite filter_cons. simpl. rewrite IH. unfold js_set.
  destruct (decide (key x = "__proto__")) as [Hk|Hk].
  - by rewrite decide_False by (by intros ?).
  - by rewrite decide_True by done.
Qed.

(** The decrypted entries that leave an own property. *)
Lemma decryptSecrets_object_eq d secrets key :
  decryptSecrets d secrets key object
  = (λ xs, ContentObject
             (ExpandedSecret.plaintextValue
                <$> indexBy ExpandedSecret.plaintextKey
                      (filter (λ x, ExpandedSecret.plaintextKey x
                                    ≠ "__proto__") xs)))
      <$> mapM (decryptEntry d key) secrets.
Proof.
  unfold decryptSecrets. rewrite forEach_object.
  destruct (mapM (decryptEntry d key) secrets) as [xs|]; [|done].
  simpl. do 2 f_equal. unfold indexBy.
  rewrite (foldl_js_set ExpandedSecret.plaintextKey
             ExpandedSecret.plaintextValue).
  rewrite <- foldl_insert_fmap. by rewrite fmap_empty.
Qed.

Lemma decryptSecrets_expanded_eq d secrets key :
  decryptSecrets d secrets key expanded
  = (λ xs, ContentExpanded
             (indexBy ExpandedSecret.plaintextKey
                (filter (λ x, ExpandedSecret.plaintextKey x ≠ "__proto__")
                   xs)))
      <$> mapM (decryptEntry d key) secrets.
Proof.
  unfold decryptSecrets. rewrite forEach_expanded.
  destruct (mapM (decryptEntry d key) secrets) as [xs|]; [|done].
  simpl. do 2 f_equal.
  by rewrite (foldl_js_set ExpandedSecret.plaintextKey (λ x, x)).
Qed.

(** X11: [decryptSecrets] is all or nothing, in every format: it throws
    exactly when the key or the value of some incoming secret fails to
    decrypt, and then returns nothing of the other secrets. *)
Theorem decryptSecrets_all_or_nothing d secrets key format :
  decryptSecrets d secrets key format = None
  ↔ ∃ s, s ∈ secrets
         ∧ (d (PushSecret.ciphertextKey s) (PushSecret.ivKey s)
              (PushSecret.tagKey s) key = None
            ∨ d (PushSecret.ciphertextValue s) (PushSecret.ivValue s)
                (PushSecret.tagValue s) key = None).
Proof.
  transitivity (mapM (decryptEntry d key) secrets = None).
  - destruct format.
    + unfold decryptSecrets. rewrite forEach_text by (simpl; lia).
      rewrite fmap_None, !mapM_None.
      split; intros (s & Hs & Hn); exists s; split; try done;
        by apply textLine_None.
    + by rewrite decryptSecrets_object_eq, fmap_None.
    + by rewrite decryptSecrets_expanded_eq, fmap_None.
  - rewrite mapM_None.
    split; intros (s & Hs & Hn); exists s; split; try done;
      by apply decryptEntry_None.
Qed.

(** X12: in the [object] format a later secret overwrites an earlier one
    with the same decrypted key: the object has, as own property under
    each key other than [__proto__], the value of the last incoming secret
    that decrypts to this key, and has a property only if some incoming
    secret decrypts to its key.  A secret whose key decrypts to
    [__proto__] leaves no own property: the assignment runs the setter
    inherited from [Object.prototype]. *)
Theorem decryptSecrets_object_last_wins d secrets key xs :
  mapM (decryptEntry d key) secrets = Some xs →
  ∃ m,
    decryptSecrets d secrets key object = Some (ContentObject m)
    ∧ ∀ k, m !! k
           = if decide (k = "__proto__") then None
             else ExpandedSecret.plaintextValue
                    <$> last (filter (λ x, ExpandedSecret.plaintextKey x = k)
                                xs).
Proof.
  intros Hxs. eexists. split.
  - by rewrite decryptSecrets_object_eq, Hxs.
  - intros k. rewrite lookup_fmap, indexBy_lookup_last, list_filter_filter.
    destruct (decide (k = "__proto__")) as [->|Hk].
    + rewrite filter_none; [done|]. by intros x _ [? ?].
    + f_equal. f_equal. apply filter_ext_in. intros x _.
      split; [tauto|]. intros Hx. split; [done|]. congruence.
Qed.

Lemma decryptSecrets_object_last_wins_witness :
  let d := λ ciphertext (_ _ _ : string), Some ciphertext in
  let s1 := PushSecret.mk "KEY" "i" "t" "h" "first" "i" "t" "h1"
              SECRET_SHARED in
  let s2 := PushSecret.mk "KEY" "i" "t" "h" "second" "i" "t" "h2"
              SECRET_SHARED in
  let s3 := PushSecret.mk "__proto__" "i" "t" "h" "third" "i" "t" "h3"
              SECRET_SHARED in
  let xs := [ExpandedSecret.mk s1 "KEY" "first";
             ExpandedSecret.mk s2 "KEY" "second";
             ExpandedSecret.mk s3 "__proto__" "third"] in
  mapM (decryptEntry d "secret") [s1; s2; s3] = Some xs
  ∧ decryptSecrets d [s1; s2; s3] "secret" object
    = Some (ContentObject {["KEY" := "second"]})
  ∧ ∃ m,
      decryptSecrets d [s1; s2; s3] "secret" object = Some (ContentObject m)
      ∧ ∀ k, m !! k
             = if decide (k = "__proto__") then None
               else ExpandedSecret.plaintextValue
                      <$> last (filter
                                  (λ x, ExpandedSecret.plaintextKey x = k)
                                  xs).
Proof.
  intros d s1 s2 s3 xs.
  assert (Hxs : mapM (decryptEntry d "secret") [s1; s2; s3] = Some xs)
    by reflexivity.
  split; [exact Hxs|].
  split; [vm_compute; reflexivity|].
  exact (decryptSecrets_object_last_wins d [s1; s2; s3] "secret" xs Hxs).
Defined.

(** X13: the [expanded] format is the [object] format with each value
    replaced by its whole entry: taking the plaintext values of the
    expanded object gives the object of the [object] format, and every
    entry is stored under its own plaintext key and carries one of the
    incoming secrets together with the two plaintexts this secret decrypts
    to. *)
Theorem decryptSecrets_expanded_entries d secrets key m :
  decryptSecrets d secrets key expanded = Some (ContentExpanded m) →
  decryptSecrets d secrets key object
  = Some (ContentObject (ExpandedSecret.plaintextValue <$> m))
  ∧ ∀ k x, m !! k = Some x →
      ExpandedSecret.plaintextKey x = k
      ∧ ExpandedSecret.secret x ∈ secrets
      ∧ decryptEntry d key (ExpandedSecret.secret x) = Some x.
Proof.
  rewrite decryptSecrets_expanded_eq, decryptSecrets_object_eq.
  destruct (mapM (decryptEntry d key) secrets) as [xs|] eqn:Hxs; [|done].
  simpl. injection 1 as <-. split; [done|].
  intros k x [Hx Hk]%indexBy_lookup_Some. split; [done|].
  apply list_elem_of_filter in Hx as [_ Hx].
  apply mapM_Some in Hxs.
  apply list_elem_of_lookup in Hx as [i Hi].
  destruct (Forall2_lookup_r _ _ _ _ _ Hxs Hi) as (s & Hs & Hd).
  assert (ExpandedSecret.secret x = s) as ->.
  { unfold decryptEntry in Hd.
    destruct (d (PushSecret.ciphertextKey s) _ _ _); [|done].
    destruct (d (PushSecret.ciphertextValue s) _ _ _); [|done].
    simpl in Hd. by injection Hd as <-. }
  split; [by eapply list_elem_of_lookup_2|done].
Qed.

Lemma decryptSecrets_expanded_entries_witness :
  let d := λ ciphertext (_ _ _ : string), Some ciphertext in
  let s1 := PushSecret.mk "KEY" "i" "t" "h" "first" "i" "t" "h1"
              SECRET_SHARED in
  let s2 := PushSecret.mk "KEY" "i" "t" "h" "second" "i" "t" "h2"
              SECRET_SHARED in
  let m : gmap string ExpandedSecret.t :=
    {["KEY" := ExpandedSecret.mk s2 "KEY" "second"]} in
  decryptSecrets d [s1; s2] "secret" expanded = Some (ContentExpanded m)
  ∧ decryptSecrets d [s1; s2] "secret" object
    = Some (ContentObject (ExpandedSecret.plaintextValue <$> m)).
Proof.
  intros d s1 s2 m.
  assert (Hm : decryptSecrets d [s1; s2] "secret" expanded
               = Some (ContentExpanded m)) by (vm_compute; reflexivity).
  split; [exact Hm|].
  exact (proj1 (decryptSecrets_expanded_entries d [s1; s2] "secret" m Hm)).
Defined.

(** ** Reformatting pulled secrets *)

(** X14: [reformatPullSecrets] keeps the number and the order of the
    secrets and forgets exactly the owner and the version of each: two
    lists are reformatted to the same list if and only if they have the
    same length and agree, position by position, on every field other than
    [user] and [version]. *)
Theorem reformatPullSecrets_forgets_user_and_version l l' :
  length (reformatPullSecrets l) = length l
  ∧ (reformatPullSecrets l = reformatPullSecrets l'
     ↔ Forall2 (λ s s',
         s' = ISecret.mk (ISecret._id s) (ISecret.workspace s)
                (ISecret.type s) (ISecret.user s') (ISecret.environment s)
                (ISecret.secretKeyCiphertext s) (ISecret.secretKeyIV s)
                (ISecret.secretKeyTag s) (ISecret.secretKeyHash s)
                (ISecret.secretValueCiphertext s) (ISecret.secretValueIV s)
                (ISecret.secretValueTag s) (ISecret.secretValueHash s)
                (ISecret.version s')) l l').
Proof.
  unfold reformatPullSecrets. split; [by rewrite length_fmap|].
  revert l'. induction l as [|s l IH]; intros [|s' l'].
  - split; [constructor|done].
  - split; [done|]. intros H. inversion H.
  - split; [done|]. intros H. inversion H.
  - rewrite !fmap_cons. split.
    + intros H. injection H as H1 H2 H3 H4 H5 H6 H7 H8 H9 H10 H11 H12 H13 H14
        H15. constructor; [|by apply IH].
      destruct s, s'. simpl in *. congruence.
    + intros H. apply Forall2_cons_1 in H as [Hs Hl].
      f_equal; [|by apply IH]. rewrite Hs. by destruct s.
Qed.

(** ** The request handlers for pushing and pulling secrets *)

Lemma findEnvironment_None envs environment :
  WorkspaceController.findEnvironment envs environment = None
  ↔ ∀ e, e ∈ envs → Environment.slug e ≠ environment.
Proof.
  unfold WorkspaceController.findEnvironment.
  induction envs as [|e envs IH]; simpl.
  - split; [|done]. by intros _ e ?%not_elem_of_nil.
  - destruct (bool_decide_reflect (Environment.slug e = environment))
      as [He|He].
    + split; [done|]. intros H. exfalso. apply (H e); [by left|done].
    + rewrite IH. split.
      * intros H e' [->|He']%elem_of_cons; auto.
      * intros H e' He'. apply H. by right.
Qed.

Lemma channelOrCli_nonempty channel :
  WorkspaceController.channelOrCli channel ≠ "".
Proof.
  unfold WorkspaceController.channelOrCli.
  destruct channel as [c|]; [|done]. by destruct (decide (c = "")).
Qed.

Ltac case_services sv :=
  repeat match goal with
    | |- context [WorkspaceController.getPostHogClient sv] =>
        destruct (WorkspaceController.getPostHogClient sv) as [?|[]] eqn:?;
        simpl
    | |- context [WorkspaceController.push sv ?a] =>
        destruct (WorkspaceController.push sv a) eqn:?; simpl
    | |- context [WorkspaceController.pushKeys sv ?u ?w ?k] =>
        destruct (WorkspaceController.pushKeys sv u w k) eqn:?; simpl
    | |- context [WorkspaceController.pull sv ?a] =>
        destruct (WorkspaceController.pull sv a) eqn:?; simpl
    | |- context [WorkspaceController.capture sv ?c] =>
        destruct (WorkspaceController.capture sv c) eqn:?; simpl
    | |- context [WorkspaceController.handleEvent sv ?w ?e ?p] =>
        destruct (WorkspaceController.handleEvent sv w e p) eqn:?; simpl
    end.

Ltac run_handler :=
  unfold WorkspaceController.request, WorkspaceController.invoke,
    WorkspaceController.property_of, WorkspaceController.raise;
  unfold mbind, mret, WorkspaceController.Handler_bind,
    WorkspaceController.Handler_ret; cbv beta iota zeta.

(** X15: the push handler checks before it pushes.  With an environment
    that is not one of the workspace's slugs, or without a user on the
    request, it has asked for the telemetry client and made no other call,
    and it throws; once the telemetry client is there, the error for the
    environment is the validation error, whoever asks and whatever the body
    holds. *)
Theorem pushWorkspaceSecrets_checks_first {Keys : Type}
  (sv : WorkspaceController.Services Keys)
  (req : WorkspaceController.Request Keys) :
  let run := WorkspaceController.pushWorkspaceSecrets sv req in
  let badEnvironment :=
    ∀ e, e ∈ WorkspaceController.membership_workspace_environments req →
         Environment.slug e ≠ WorkspaceController.body_environment req in
  (badEnvironment ∨ WorkspaceController.user req = None →
   fst run = [WorkspaceController.CallGetPostHogClient]
   ∧ ∃ e, snd run = inl e)
  ∧ (badEnvironment →
     ∀ client, WorkspaceController.getPostHogClient sv = inr client →
       snd run = inl WorkspaceController.invalidEnvironment).
Proof.
  intros run badEnvironment. unfold run, badEnvironment.
  unfold WorkspaceController.pushWorkspaceSecrets. run_handler. split.
  - intros [Henv%findEnvironment_None| ->].
    + rewrite Henv. case_services sv; eauto.
    + destruct (WorkspaceController.findEnvironment _ _);
        case_services sv; eauto.
  - intros Henv%findEnvironment_None client ->. by rewrite Henv.
Qed.

(** X16: what the push handler hands on is sanitized.  Whenever the
    handler calls the push helper, which it does right after asking for
    the telemetry client, the secrets it passes are the incoming ones with
    a non-empty key ciphertext and a non-empty value ciphertext, in their
    order, the channel it passes is never empty, and the telemetry event,
    if one is captured, counts the sanitized secrets; a response is sent
    only after the push helper, the key helper and the event service have
    all returned. *)
Theorem pushWorkspaceSecrets_sanitizes {Keys : Type}
  (sv : WorkspaceController.Services Keys)
  (req : WorkspaceController.Request Keys) :
  let run := WorkspaceController.pushWorkspaceSecrets sv req in
  let sane := WorkspaceController.sanitize
                (WorkspaceController.body_secrets req) in
  (∀ s, s ∈ sane ↔
        s ∈ WorkspaceController.body_secrets req
        ∧ V2PushSecret.secretKeyCiphertext s ≠ ""
        ∧ V2PushSecret.secretValueCiphertext s ≠ "")
  ∧ sane `sublist_of` WorkspaceController.body_secrets req
  ∧ (∀ a, WorkspaceController.CallPush a ∈ fst run →
          fst run !! 1 = Some (WorkspaceController.CallPush a)
          ∧ WorkspaceController.PushArgs.secrets a = sane
          ∧ WorkspaceController.PushArgs.channel a ≠ "")
  ∧ (∀ c, WorkspaceController.CallCapture c ∈ fst run →
          WorkspaceController.Capture.numberOfSecrets c = length sane)
  ∧ (∀ resp, snd run = inr resp →
       ∃ a u,
         WorkspaceController.user req = Some u
         ∧ WorkspaceController.push sv a = None
         ∧ WorkspaceController.pushKeys sv (User._id u)
             (WorkspaceController.params_workspaceId req)
             (WorkspaceController.body_keys req) = None
         ∧ WorkspaceController.handleEvent sv
             (WorkspaceController.params_workspaceId req)
             (WorkspaceController.body_environment req) "/" = None
         ∧ WorkspaceController.CallPush a ∈ fst run
         ∧ WorkspaceController.CallPushKeys (User._id u)
             (WorkspaceController.params_workspaceId req)
             (WorkspaceController.body_keys req) ∈ fst run
         ∧ WorkspaceController.status resp = 200).
Proof.
  intros run sane. split_and!.
  - intros s. unfold sane, WorkspaceController.sanitize.
    rewrite list_elem_of_filter. tauto.
  - apply sublist_filter.
  - unfold run, WorkspaceController.pushWorkspaceSecrets. run_handler.
    intros a. fold sane.
    destruct (WorkspaceController.findEnvironment _ _);
      destruct (WorkspaceController.user req) as [u|];
      case_services sv;
      rewrite ?elem_of_cons, ?elem_of_nil; intros H;
      repeat (destruct H as [H|H]); try done;
      injection H as ->; (split_and!; [done|done|]);
      apply channelOrCli_nonempty.
  - unfold run, WorkspaceController.pushWorkspaceSecrets. run_handler.
    intros c. fold sane.
    destruct (WorkspaceController.findEnvironment _ _);
      destruct (WorkspaceController.user req) as [u|];
      case_services sv;
      rewrite ?elem_of_cons, ?elem_of_nil; intros H;
      repeat (destruct H as [H|H]); try done; by injection H as ->.
  - unfold run, WorkspaceController.pushWorkspaceSecrets. run_handler.
    intros resp. fold sane.
    destruct (WorkspaceController.findEnvironment _ _);
      destruct (WorkspaceController.user req) as [u|];
      case_services sv; try done; injection 1 as <-;
      eexists _, u; (split_and!; [done|eassumption|done|done| | |done]);
      rewrite ?elem_of_cons; auto 10.
Qed.

(** X17: the pull handler reformats unless the channel is literally
    ["cli"].  Every response carries the secrets that the pull helper
    returned, as they are when the query says ["cli"] and reformatted
    otherwise; the helper itself is told ["cli"] also when the query names
    no channel or an empty one, so that such a request is pulled as a CLI
    request and yet answered in the reformatted shape. *)
Theorem pullSecrets_handler_reformats_unless_cli {Keys : Type}
  (sv : WorkspaceController.Services Keys)
  (req : WorkspaceController.Request Keys) resp :
  snd (WorkspaceController.pullSecrets sv req) = inr resp →
  ∃ a l,
    fst (WorkspaceController.pullSecrets sv req) !! 1
    = Some (WorkspaceController.CallPull a)
    ∧ WorkspaceController.pull sv a = inr l
    ∧ WorkspaceController.PullArgs.channel a
      = WorkspaceController.channelOrCli
          (WorkspaceController.query_channel req)
    ∧ WorkspaceController.status resp = 200
    ∧ (WorkspaceController.query_channel req = Some "cli" →
       WorkspaceController.body resp = WorkspaceController.BodySecrets l)
    ∧ (WorkspaceController.query_channel req ≠ Some "cli" →
       WorkspaceController.body resp
       = WorkspaceController.BodyReformatted (reformatPullSecrets l))
    ∧ (WorkspaceController.query_channel req = None
       ∨ WorkspaceController.query_channel req = Some "" →
       WorkspaceController.PullArgs.channel a = "cli"
       ∧ WorkspaceController.body resp
         = WorkspaceController.BodyReformatted (reformatPullSecrets l)).
Proof.
  unfold WorkspaceController.pullSecrets. run_handler.
  destruct (WorkspaceController.findEnvironment _ _);
    destruct (WorkspaceController.user req) as [u|];
    case_services sv; try done;
    injection 1 as <-; eexists _, _;
    (split_and!; [done|eassumption|done|done| | |]); simpl;
    unfold WorkspaceController.pulledBody.
  all: try (intros ->; by rewrite decide_False by (by intros ?)).
  all: try (intros Hne; by rewrite decide_True).
  all: intros [-> | ->]; by rewrite decide_True.
Qed.

Lemma pullSecrets_handler_reformats_unless_cli_witness :
  let sv := WorkspaceController.mkServices (Keys := unit) (inr false)
              (λ _, None) (λ _ _ _, None) (λ _, inr [sharedDoc])
              (λ _, None) (λ _ _ _, None) in
  let req := WorkspaceController.mkRequest (Keys := unit) [] () "dev" None
               "dev" None "w" [Environment.mk "dev"]
               (Some (User.mk "u" "u@example.org")) None "127.0.0.1" in
  let resp := WorkspaceController.mkResponse 200
                (WorkspaceController.BodyReformatted
                   (reformatPullSecrets [sharedDoc])) in
  snd (WorkspaceController.pullSecrets sv req) = inr resp
  ∧ ∃ a l,
      fst (WorkspaceController.pullSecrets sv req) !! 1
      = Some (WorkspaceController.CallPull a)
      ∧ WorkspaceController.pull sv a = inr l
      ∧ WorkspaceController.PullArgs.channel a = "cli"
      ∧ WorkspaceController.body resp
        = WorkspaceController.BodyReformatted (reformatPullSecrets l).
Proof.
  intros sv req resp.
  assert (Hrun : snd (WorkspaceController.pullSecrets sv req) = inr resp)
    by reflexivity.
  split; [exact Hrun|].
  destruct (pullSecrets_handler_reformats_unless_cli sv req resp Hrun)
    as (a & l & Hcall & Hpull & _ & _ & _ & _ & Habsent).
  exists a, l. split; [exact Hcall|]. split; [exact Hpull|].
  apply Habsent. left. reflexivity.
Defined.

(** X18: the pull handler reads the e-mail address of [req.user] for its
    telemetry event.  A request authenticated by a service token alone is
    pulled for the user of the token, and then, when a telemetry client is
    present, the handler throws instead of answering: with telemetry on, a
    pull succeeds only for a request that carries a user. *)
Theorem pullSecrets_handler_telemetry_needs_user {Keys : Type}
  (sv : WorkspaceController.Services Keys)
  (req : WorkspaceController.Request Keys) client t l :
  WorkspaceController.getPostHogClient sv = inr client →
  WorkspaceController.user req = None →
  WorkspaceController.serviceTokenData req = Some t →
  is_Some (WorkspaceController.findEnvironment
             (WorkspaceController.membership_workspace_environments req)
             (WorkspaceController.query_environment req)) →
  let a := WorkspaceController.PullArgs.mk (Some (ServiceTokenData.user t))
             (WorkspaceController.params_workspaceId req)
             (WorkspaceController.query_environment req)
             (WorkspaceController.channelOrCli
                (WorkspaceController.query_channel req))
             (WorkspaceController.realIP req) in
  WorkspaceController.pull sv a = inr l →
  WorkspaceController.pullSecrets sv req
  = ([WorkspaceController.CallGetPostHogClient;
      WorkspaceController.CallPull a],
     if client
     then inl WorkspaceController.typeError
     else inr (WorkspaceController.mkResponse 200
                 (WorkspaceController.pulledBody
                    (WorkspaceController.query_channel req) l))).
Proof.
  intros Hc Hu Ht [e He] a Hpull.
  unfold WorkspaceController.pullSecrets. run_handler.
  rewrite Hc, Hu, Ht, He. fold a. simpl. rewrite Hpull. simpl.
  by destruct client.
Qed.

Lemma pullSecrets_handler_telemetry_needs_user_witness :
  let sv := WorkspaceController.mkServices (Keys := unit) (inr true)
              (λ _, None) (λ _ _ _, None) (λ _, inr [sharedDoc])
              (λ _, None) (λ _ _ _, None) in
  let req := WorkspaceController.mkRequest (Keys := unit) [] () "dev" None
               "dev" (Some "cli") "w" [Environment.mk "dev"]
               None (Some (ServiceTokenData.mk "u")) "127.0.0.1" in
  let a := WorkspaceController.PullArgs.mk (Some "u") "w" "dev" "cli"
             "127.0.0.1" in
  WorkspaceController.getPostHogClient sv = inr true
  ∧ WorkspaceController.user req = None
  ∧ WorkspaceController.serviceTokenData req = Some (ServiceTokenData.mk "u")
  ∧ is_Some (WorkspaceController.findEnvironment
               (WorkspaceController.membership_workspace_environments req)
               (WorkspaceController.query_environment req))
  ∧ WorkspaceController.pull sv a = inr [sharedDoc]
  ∧ WorkspaceController.pullSecrets sv req
    = ([WorkspaceController.CallGetPostHogClient;
        WorkspaceController.CallPull a],
       inl WorkspaceController.typeError).
Proof.
  intros sv req a.
  assert (He : is_Some (WorkspaceController.findEnvironment
                          (WorkspaceController.membership_workspace_environments
                             req)
                          (WorkspaceController.query_environment req)))
    by (vm_compute; eauto).
  split; [reflexivity|]. split; [reflexivity|]. split; [reflexivity|].
  split; [exact He|]. split; [reflexivity|].
  exact (pullSecrets_handler_telemetry_needs_user sv req true
           (ServiceTokenData.mk "u") [sharedDoc] eq_refl eq_refl eq_refl He
           eq_refl).
Defined.

(** ** The ids of the stored secrets across a push *)

(** X19: a successful push keeps the stored secrets that it does not
    delete at their ids and in their order, and appends the new secrets
    behind them under consecutive fresh ids: the ids after the push are the
    ids before it without those classified [toDelete], followed by as many
    ids as there are entries to add, counted from the allocator, which
    advances by that number. *)
Theorem pushSecrets_ids_in_order
  f userId workspaceId environment secrets db db' :
  ids_ok db →
  pushSecrets f userId workspaceId environment secrets db = (db', inr ()) →
  let old := scope userId workspaceId environment db in
  ISecret._id <$> Secret db'
  = filter (λ i, i ∉ toDelete old secrets) (ISecret._id <$> Secret db)
    ++ seq (nextId db) (length (toAdd old secrets))
  ∧ nextId db' = nextId db + length (toAdd old secrets).
Proof.
  intros Hids ->%pushSecrets_success old. split; [|apply nextId_afterPush].
  rewrite (Secret_final _ _ _ _ _ Hids), fmap_app, fresh_ids.
  fold old. f_equal.
  rewrite <- list_fmap_compose.
  rewrite (list_fmap_ext _ ISecret._id) by (intros i r _; apply h_id).
  by rewrite Secret_afterDelete, filter_fmap.
Qed.

Lemma pushSecrets_ids_in_order_witness :
  ids_ok dbA
  ∧ pushSecrets no_faults "u" "w" "dev" [k2v1] dbA
    = (afterPush "u" "w" "dev" [k2v1] dbA, inr ())
  ∧ ISecret._id <$> Secret (afterPush "u" "w" "dev" [k2v1] dbA)
    = filter (λ i, i ∉ toDelete (scope "u" "w" "dev" dbA) [k2v1])
        (ISecret._id <$> Secret dbA)
      ++ seq (nextId dbA) (length (toAdd (scope "u" "w" "dev" dbA) [k2v1])).
Proof.
  assert (Hids : ids_ok dbA).
  { apply (ids_ok_afterPush "u" "w" "dev" [k1v1] emptyDb), ids_ok_emptyDb. }
  assert (Hp : pushSecrets no_faults "u" "w" "dev" [k2v1] dbA
               = (afterPush "u" "w" "dev" [k2v1] dbA, inr ()))
    by apply pushSecrets_no_faults.
  split; [exact Hids|]. split; [exact Hp|].
  exact (proj1 (pushSecrets_ids_in_order no_faults "u" "w" "dev" [k2v1] dbA
                  _ Hids Hp)).
Defined.
